(** * StegApp: the steganographic codec and its encryption envelope

    A shallow embedding of [src/services/steganography.ts] and
    [src/services/pdfStego.ts] (which also carries the encryption service),
    followed by the properties of the bit framer, the three carrier adapters,
    the tamper simulator and the error flow.

    Conventions of the embedding.
    - A JavaScript string is the list of its UTF-16 code units ([jsstring]);
      [charCodeAt] can only return a value below 65536.
    - The strings over the alphabet '0'/'1' that the codec builds with
      [toString(2)] and [(x & 1).toString()] are lists of booleans ([bits]),
      ['1'] being [true].
    - Typed-array elements are integers ([Z]) and the bit operators are the
      ones of [Z]; indices and lengths are natural numbers.
    - A [throw] is the [Throw] outcome of [Result]; the thrown value keeps the
      name and the message the source gives it.
    - [while] loops run on a fuel that is shown to be enough, so every loop
      leaves through its own condition. *)

From Stdlib Require Import ZArith NArith Lia List Ascii String DecimalString.
From stdpp Require Import base tactics option list numbers strings.

Set Default Proof Using "Type".
Set Warnings "-register-all".

(** ** JavaScript values shared by the services *)

Definition jsstring := list N.
Definition bits := list bool.

(** A string literal of the source, as code units. *)
Definition lit (s : string) : jsstring :=
  map N_of_ascii (list_ascii_of_string s).

Record JsError := mkError { err_name : string; err_message : string }.

(** [new Error(msg)] *)
Definition Error (msg : string) : JsError := mkError "Error" msg.

Inductive Result (A : Type) : Type :=
| Ok (a : A)
| Throw (e : JsError).
Arguments Ok {A} a.
Arguments Throw {A} e.

(** Sequencing of statements that may throw: [x ← r; k]. *)
#[global] Instance Result_bind : MBind Result := fun A B k r =>
  match r with
  | Ok a => k a
  | Throw e => Throw e
  end.
#[global] Instance Result_ret : MRet Result := fun A a => Ok a.

(** [try { r } catch (e) { handler(e) }] *)
Definition try_catch {A} (r : Result A) (handler : JsError -> Result A) : Result A :=
  match r with
  | Ok a => Ok a
  | Throw e => handler e
  end.

(** ** Loops *)

Section While.
Context {St : Type}.
Variable cond : St -> bool.
Variable body : St -> St.

Fixpoint while (fuel : nat) (s : St) : St :=
  match fuel with
  | O => s
  | S fuel' => if cond s then while fuel' (body s) else s
  end.

End While.

(** ** Binary text: [toString(2)], [padStart], [parseInt(_, 2)] *)

Fixpoint pos_digits (p : positive) (acc : bits) : bits :=
  match p with
  | xH => true :: acc
  | xO q => pos_digits q (false :: acc)
  | xI q => pos_digits q (true :: acc)
  end.

(** [n.toString(2)] for a non-negative integer. *)
Definition toString2 (n : N) : bits :=
  match n with
  | N0 => [false]
  | Npos p => pos_digits p []
  end.

(** [s.padStart(width, '0')]; also ['0'.repeat(width - s.length) + s] when
    the count is not negative. *)
Definition padStart (width : nat) (s : bits) : bits :=
  replicate (width - length s) false ++ s.

Definition digit_value (b : bool) : N := if b then 1%N else 0%N.

(** [parseInt(s, 2)]: [None] is NaN, the result on the empty string. *)
Definition parseInt2 (s : bits) : option N :=
  match s with
  | [] => None
  | _ => Some (fold_left (fun acc b => (2 * acc + digit_value b)%N) s 0%N)
  end.

(** [String.fromCharCode(n)]: ToUint16, NaN becoming 0. *)
Definition fromCharCode (n : option N) : N :=
  match n with
  | None => 0%N
  | Some v => (v mod 65536)%N
  end.

(** ** The framer ([steganography.ts], lines 6-20 and 65-67) *)

Definition stringToBinary (str : jsstring) : bits :=
  concat (map (fun char => let binary := toString2 char in
                           replicate (16 - length binary) false ++ binary) str).

Record B2S := { b2s_i : nat; b2s_chars : jsstring }.

Definition b2s_cond (binary : bits) (s : B2S) : bool := b2s_i s <? length binary.

Definition b2s_body (binary : bits) (s : B2S) : B2S :=
  let byte := take 16 (drop (b2s_i s) binary) in
  {| b2s_i := b2s_i s + 16;
     b2s_chars := b2s_chars s ++ [fromCharCode (parseInt2 byte)] |}.

Definition binaryToString (binary : bits) : jsstring :=
  b2s_chars (while (b2s_cond binary) (b2s_body binary) (length binary)
                   {| b2s_i := 0; b2s_chars := [] |}).

(** [lengthBin + binaryMessage] of the encoders. *)
Definition fullBinary (finalMessage : jsstring) : bits :=
  let binaryMessage := stringToBinary finalMessage in
  let lengthBin := padStart 32 (toString2 (N.of_nat (length binaryMessage))) in
  lengthBin ++ binaryMessage.

(** ** The platform the services call into

    The Web Crypto provider, the text codecs, [JSON.parse] and the typed-array
    constructor belong to the host, not to the repository: they are the
    operations of the class below.  A rejected promise is a [Throw]; the
    provider rejects [decrypt] with a value named [OperationError] when the
    authentication tag does not verify. *)

Inductive json : Type :=
| JUndefined
| JNull
| JBool (b : bool)
| JNum (n : Z)
| JFrac
| JStr (s : jsstring)
| JArr (items : list json)
| JObj (fields : list (jsstring * json)).

Inductive KeyUsage := UsageEncrypt | UsageDecrypt.

Class Platform := {
  PasswordKey : Type;
  AesKey : Type;
  TextEncoder_encode : jsstring -> list Z;
  TextDecoder_decode : list Z -> jsstring;
  subtle_importKey : list Z -> Result PasswordKey;
  subtle_deriveKey : PasswordKey -> list Z -> N -> KeyUsage -> Result AesKey;
  subtle_encrypt : AesKey -> list Z -> list Z -> Result (list Z);
  subtle_decrypt : AesKey -> list Z -> list Z -> Result (list Z);
  JSON_parse : jsstring -> Result json;
  Uint8Array_from : json -> Result (list Z)
}.

(** [if (x)] on a string that may be [undefined]. *)
Definition truthy_string (s : option jsstring) : bool :=
  match s with
  | Some (_ :: _) => true
  | _ => false
  end.

(** [if (x)] on a value. *)
Definition truthy (v : json) : bool :=
  match v with
  | JUndefined | JNull => false
  | JBool b => b
  | JNum n => negb (n =? 0)%Z
  | JStr s => truthy_string (Some s)
  | JFrac | JArr _ | JObj _ => true
  end.

Fixpoint assoc (key : jsstring) (fields : list (jsstring * json)) : json :=
  match fields with
  | [] => JUndefined
  | (k, v) :: rest => if bool_decide (k = key) then v else assoc key rest
  end.

(** [bundle.key] for one of the keys [s], [iv], [d]: reading a property of
    [null] throws, a value that is not a record has none of these keys. *)
Definition get_prop (bundle : json) (key : jsstring) : Result json :=
  match bundle with
  | JUndefined | JNull =>
      Throw (mkError "TypeError" "Cannot read properties of null or undefined")
  | JObj fields => Ok (assoc key fields)
  | _ => Ok JUndefined
  end.

(** ** The encryption service (second document of [pdfStego.ts]) *)

Definition ITERATIONS : N := 100000%N.
Definition SALT_LENGTH : nat := 16.
Definition IV_LENGTH : nat := 12.

Definition dquote : N := 34%N.

Definition decimal (n : Z) : jsstring := lit (NilZero.string_of_int (Z.to_int n)).

Fixpoint join_comma (parts : list jsstring) : jsstring :=
  match parts with
  | [] => []
  | [p] => p
  | p :: rest => p ++ lit "," ++ join_comma rest
  end.

(** [JSON.stringify] of an array of numbers. *)
Definition stringify_numbers (l : list Z) : jsstring :=
  lit "[" ++ join_comma (map decimal l) ++ lit "]".

(** [JSON.stringify({ s: [...], iv: [...], d: [...] })] *)
Definition stringify_bundle (s iv d : list Z) : jsstring :=
  lit "{" ++ [dquote] ++ lit "s" ++ [dquote] ++ lit ":" ++ stringify_numbers s ++
  lit "," ++ [dquote] ++ lit "iv" ++ [dquote] ++ lit ":" ++ stringify_numbers iv ++
  lit "," ++ [dquote] ++ lit "d" ++ [dquote] ++ lit ":" ++ stringify_numbers d ++
  lit "}".

(** The value [JSON.parse] is expected to give back for that text. *)
Definition bundle_value (s iv d : list Z) : json :=
  JObj [(lit "s", JArr (map JNum s)); (lit "iv", JArr (map JNum iv));
        (lit "d", JArr (map JNum d))].

Definition MSG_ENCRYPT_FAILED : string :=
  "AES-GCM Encryption failed. Check environment security context.".
Definition MSG_INVALID_PAYLOAD : string :=
  "Invalid payload format. Not an encrypted container.".
Definition MSG_CORRUPTED_HEADER : string := "Corrupted encryption header.".
Definition MSG_INTEGRITY : string :=
  "INTEGRITY CHECK FAILED: Data has been tampered with (GCM Auth Tag Mismatch).".
Definition MSG_DECRYPT_FAILED : string :=
  "Decryption failed. Invalid password or corrupted data.".

Section Encryption.
Context `{Platform}.

Definition getPasswordKey (password : jsstring) : Result PasswordKey :=
  subtle_importKey (TextEncoder_encode password).

Definition deriveKey (passwordKey : PasswordKey) (salt : list Z)
    (keyUsage : KeyUsage) : Result AesKey :=
  subtle_deriveKey passwordKey salt ITERATIONS keyUsage.

(** [salt] and [iv] are the two draws of [getRandomValues]. *)
Definition encryptMessage (message password : jsstring) (salt iv : list Z)
    : Result jsstring :=
  try_catch
    (passwordKey ← getPasswordKey password;
     aesKey ← deriveKey passwordKey salt UsageEncrypt;
     let encodedMessage := TextEncoder_encode message in
     encryptedContent ← subtle_encrypt aesKey iv encodedMessage;
     mret (stringify_bundle salt iv encryptedContent))
    (fun _ => Throw (Error MSG_ENCRYPT_FAILED)).

(** The body of the outer [try] of [decryptMessage].  Reading a property
    has no effect and throws on [null] only, whatever the key, so the three
    reads of the presence test are made up front. *)
Definition decryptMessage_try (encryptedJson password : jsstring)
    : Result jsstring :=
  bundle ← try_catch (JSON_parse encryptedJson)
                     (fun _ => Throw (Error MSG_INVALID_PAYLOAD));
  bs ← get_prop bundle (lit "s");
  biv ← get_prop bundle (lit "iv");
  bd ← get_prop bundle (lit "d");
  if negb (truthy bs) || negb (truthy biv) || negb (truthy bd)
  then Throw (Error MSG_CORRUPTED_HEADER) else
  salt ← Uint8Array_from bs;
  iv ← Uint8Array_from biv;
  data ← Uint8Array_from bd;
  passwordKey ← getPasswordKey password;
  aesKey ← deriveKey passwordKey salt UsageDecrypt;
  decryptedContent ← subtle_decrypt aesKey iv data;
  mret (TextDecoder_decode decryptedContent).

Definition decryptMessage (encryptedJson password : jsstring) : Result jsstring :=
  try_catch (decryptMessage_try encryptedJson password)
    (fun error =>
       if bool_decide (err_name error = "OperationError")
       then Throw (Error MSG_INTEGRITY)
       else Throw (Error MSG_DECRYPT_FAILED)).
End Encryption.

(** ** Byte buffers and single bits *)

(** [a[i]] as an operand of a bit operator: [undefined] counts as 0. *)
Definition elem (a : list Z) (i : nat) : Z := default 0%Z (a !! i).

(** [parseInt(fullBinary[i], 10)] under [|]: NaN counts as 0. *)
Definition bit_at (fullBinary : bits) (i : nat) : Z :=
  match fullBinary !! i with
  | Some true => 1%Z
  | _ => 0%Z
  end.

(** [(x & 1).toString()] *)
Definition lsb_char (x : Z) : bool := (Z.land x 1 =? 1)%Z.

(** [(x & ~1) | bit]: clear the least-significant bit and set the new one. *)
Definition setLSB (x bit : Z) : Z := Z.lor (Z.land x (Z.lnot 1)) bit.

(** Stores into a [Uint8ClampedArray] clamp, stores into a [Uint8Array] wrap. *)
Definition clamp_uint8 (v : Z) : Z := Z.max 0 (Z.min 255 v).
Definition wrap_uint8 (v : Z) : Z := (v mod 256)%Z.

(** Comparisons with a number that may be NaN are false on NaN. *)
Definition lt_num (n : nat) (m : option N) : bool :=
  match m with
  | Some v => (N.of_nat n <? v)%N
  | None => false
  end.
Definition gt_num (m : option N) (n : nat) : bool :=
  match m with
  | Some v => (N.of_nat n <? v)%N
  | None => false
  end.
Definition le0_num (m : option N) : bool :=
  match m with
  | Some v => (v =? 0)%N
  | None => false
  end.

Definition show_nat (n : nat) : string := NilZero.string_of_uint (Nat.to_uint n).

(** [if (password)]: only a non-empty password selects the encrypted path. *)
Definition finalMessageOf `{Platform} (message : jsstring)
    (password : option jsstring) (salt iv : list Z) : Result jsstring :=
  match password with
  | Some (c :: p) => encryptMessage message (c :: p) salt iv
  | _ => Ok message
  end.

Definition decryptIfNeeded `{Platform} (decoded : jsstring)
    (password : option jsstring) : Result jsstring :=
  match password with
  | Some (c :: p) => decryptMessage decoded (c :: p)
  | _ => Ok decoded
  end.

(** ** Image adapter ([steganography.ts], lines 24-222)

    The carrier is the RGBA buffer [imageData.data] the canvas hands out;
    the PNG blob an operation returns is identified with the buffer it was
    made of.  Failures of the host (image load, missing canvas context,
    [toBlob]) are not part of the codec. *)

Definition MSG_CAPACITY_IMAGE (needs allows : nat) : string :=
  "Capacity exceeded. Payload needs " +:+ show_nat needs +:+
  " bits, image allows approx " +:+ show_nat allows +:+ " bits.".
Definition MSG_NO_HEADER : string :=
  "No valid header found. File may be empty or not processed by this tool.".

(** Skip Alpha channel (every 4th byte). *)
Definition isAlpha (dataIndex : nat) : bool := ((dataIndex + 1) mod 4 =? 0).

Record EncodeState := {
  enc_data : list Z;
  enc_dataIndex : nat;
  enc_binIndex : nat
}.

Definition encode_cond (fullBinary : bits) (s : EncodeState) : bool :=
  (enc_binIndex s <? length fullBinary) && (enc_dataIndex s <? length (enc_data s)).

Definition encode_body (fullBinary : bits) (s : EncodeState) : EncodeState :=
  if isAlpha (enc_dataIndex s) then
    {| enc_data := enc_data s;
       enc_dataIndex := enc_dataIndex s + 1;
       enc_binIndex := enc_binIndex s |}
  else
    let bit := bit_at fullBinary (enc_binIndex s) in
    {| enc_data := <[enc_dataIndex s :=
                       clamp_uint8 (setLSB (elem (enc_data s) (enc_dataIndex s)) bit)]>
                     (enc_data s);
       enc_dataIndex := enc_dataIndex s + 1;
       enc_binIndex := enc_binIndex s + 1 |}.

(** The embedding loop of [encodeImage] (lines 73-89). *)
Definition writeImage (fullBinary : bits) (data : list Z) : list Z :=
  enc_data (while (encode_cond fullBinary) (encode_body fullBinary) (length data)
                  {| enc_data := data; enc_dataIndex := 0; enc_binIndex := 0 |}).

(** [fullBinary.length > data.length * 3 / 4], the quotient being exact. *)
Definition exceedsImage (fullLength dataLength : nat) : bool :=
  3 * dataLength <? 4 * fullLength.

(** The outcome and the pixel buffer as the call leaves it. *)
Definition encodeImage `{Platform} (data : list Z) (message : jsstring)
    (password : option jsstring) (salt iv : list Z) : Result (list Z) * list Z :=
  match finalMessageOf message password salt iv with
  | Throw e => (Throw e, data)
  | Ok finalMessage =>
      let fullBinary := fullBinary finalMessage in
      if exceedsImage (length fullBinary) (length data) then
        (Throw (Error (MSG_CAPACITY_IMAGE (length fullBinary) (3 * length data / 4))),
         data)
      else
        let data' := writeImage fullBinary data in
        (Ok data', data')
  end.

Record ReadState := { rd_dataIndex : nat; rd_text : bits }.

Definition read_cond (data : list Z) (wanted : option N) (s : ReadState) : bool :=
  lt_num (length (rd_text s)) wanted && (rd_dataIndex s <? length data).

Definition read_body (data : list Z) (s : ReadState) : ReadState :=
  if isAlpha (rd_dataIndex s) then
    {| rd_dataIndex := rd_dataIndex s + 1; rd_text := rd_text s |}
  else
    {| rd_dataIndex := rd_dataIndex s + 1;
       rd_text := rd_text s ++ [lsb_char (elem data (rd_dataIndex s))] |}.

(** One reading loop of [decodeImage]: from [dataIndex], until [wanted]
    characters are collected or the buffer ends. *)
Definition readImage (data : list Z) (wanted : option N) (dataIndex : nat) : ReadState :=
  while (read_cond data wanted) (read_body data) (length data)
        {| rd_dataIndex := dataIndex; rd_text := [] |}.

Definition decodeImage `{Platform} (data : list Z) (password : option jsstring)
    : Result jsstring :=
  let header := readImage data (Some 32%N) 0 in
  let lengthBin := rd_text header in
  let msgLength := parseInt2 lengthBin in
  if le0_num msgLength || gt_num msgLength (length data * 8) then
    Throw (Error MSG_NO_HEADER)
  else
    let binary := rd_text (readImage data msgLength (rd_dataIndex header)) in
    let decoded := binaryToString binary in
    decryptIfNeeded decoded password.

Record CorruptState := {
  co_data : list Z;
  co_i : nat;
  co_validBytesFound : nat;
  co_corrupted : bool
}.

Definition corrupt_cond (s : CorruptState) : bool :=
  (co_i s <? length (co_data s)) && negb (co_corrupted s).

Definition corrupt_body (s : CorruptState) : CorruptState :=
  if isAlpha (co_i s) then
    {| co_data := co_data s; co_i := co_i s + 1;
       co_validBytesFound := co_validBytesFound s; co_corrupted := co_corrupted s |}
  else if 42 <? co_validBytesFound s then
    {| co_data := <[co_i s := clamp_uint8 (Z.lxor (elem (co_data s) (co_i s)) 1)]>
                    (co_data s);
       co_i := co_i s + 1;
       co_validBytesFound := co_validBytesFound s + 1;
       co_corrupted := true |}
  else
    {| co_data := co_data s; co_i := co_i s + 1;
       co_validBytesFound := co_validBytesFound s + 1;
       co_corrupted := co_corrupted s |}.

Definition corruptImage (data : list Z) : list Z :=
  co_data (while corrupt_cond corrupt_body (length data)
                 {| co_data := data; co_i := 0;
                    co_validBytesFound := 0; co_corrupted := false |}).

(** ** Audio adapter ([steganography.ts], lines 227-353)

    The carrier is the byte content of the file's [ArrayBuffer]. *)

Definition MSG_CAPACITY_AUDIO : string := "Capacity Exceeded for Audio LSB".
Definition MSG_INVALID_WAV_STRUCTURE : string := "Invalid WAV structure".
Definition MSG_NO_HIDDEN_AUDIO : string := "No hidden data detected".
Definition MSG_INVALID_WAV_FILE : string := "Invalid WAV file".

Definition RangeError : JsError :=
  mkError "RangeError" "Offset is outside the bounds of the DataView".

Definition getUint8 (buffer : list Z) (offset : nat) : Result Z :=
  match buffer !! offset with
  | Some x => Ok x
  | None => Throw RangeError
  end.

(** [dataView.getUint32(offset, true)] *)
Definition getUint32_le (buffer : list Z) (offset : nat) : Result nat :=
  b0 ← getUint8 buffer offset;
  b1 ← getUint8 buffer (offset + 1);
  b2 ← getUint8 buffer (offset + 2);
  b3 ← getUint8 buffer (offset + 3);
  mret (Z.to_nat (b0 + 256 * b1 + 65536 * b2 + 16777216 * b3)).

Definition chunkId_data : list Z := [100; 97; 116; 97]%Z.

Section ChunkScan.
Context {A : Type}.
Variable buffer : list Z.
(** what the body does in the [data] chunk, given the start and the size. *)
Variable onData : nat -> nat -> A.
Variable onThrow : JsError -> A.
Variable notFound : A.

(** The chunk walk shared by the three audio operations:
    [while (offset < byteLength) { id; size; if (id === 'data') ...;
    offset += chunkSize }]. *)
Fixpoint scanChunks (fuel offset : nat) : A :=
  match fuel with
  | O => notFound
  | S fuel' =>
      if offset <? length buffer then
        match (c0 ← getUint8 buffer offset;
               c1 ← getUint8 buffer (offset + 1);
               c2 ← getUint8 buffer (offset + 2);
               c3 ← getUint8 buffer (offset + 3);
               chunkSize ← getUint32_le buffer (offset + 4);
               mret ([c0; c1; c2; c3], chunkSize)) with
        | Throw e => onThrow e
        | Ok (chunkId, chunkSize) =>
            if bool_decide (chunkId = chunkId_data)
            then onData (offset + 8) chunkSize
            else scanChunks fuel' (offset + 8 + chunkSize)
        end
      else notFound
  end.
End ChunkScan.

(** [new Uint8Array(arrayBuffer, offset, chunkSize)] is a view: it throws
    when it does not fit, reads outside it are [undefined], writes outside it
    are dropped. *)
Definition view_fits (buffer : list Z) (offset chunkSize : nat) : bool :=
  offset + chunkSize <=? length buffer.

Definition samples_get (buffer : list Z) (offset chunkSize i : nat) : Z :=
  if i <? chunkSize then elem buffer (offset + i) else 0%Z.

Definition samples_set (buffer : list Z) (offset chunkSize i : nat) (v : Z) : list Z :=
  if i <? chunkSize then <[offset + i := wrap_uint8 v]> buffer else buffer.

(** [for (let i = 0; i < fullBinary.length; i++) samples[i] = ...] *)
Definition writeAudio (fullBinary : bits) (offset chunkSize : nat)
    (buffer : list Z) : list Z :=
  fold_left (fun buf i =>
               samples_set buf offset chunkSize i
                 (setLSB (samples_get buf offset chunkSize i) (bit_at fullBinary i)))
            (seq 0 (length fullBinary)) buffer.

Definition encodeAudio `{Platform} (arrayBuffer : list Z) (message : jsstring)
    (password : option jsstring) (salt iv : list Z) : Result (list Z) * list Z :=
  scanChunks arrayBuffer
    (fun offset chunkSize =>
       if negb (view_fits arrayBuffer offset chunkSize)
       then (Throw RangeError, arrayBuffer) else
       match finalMessageOf message password salt iv with
       | Throw e => (Throw e, arrayBuffer)
       | Ok finalMessage =>
           let fullBinary := fullBinary finalMessage in
           if chunkSize <? length fullBinary then
             (Throw (Error MSG_CAPACITY_AUDIO), arrayBuffer)
           else
             let buffer' := writeAudio fullBinary offset chunkSize arrayBuffer in
             (Ok buffer', buffer')
       end)
    (fun e => (Throw e, arrayBuffer))
    (Throw (Error MSG_INVALID_WAV_STRUCTURE), arrayBuffer)
    (length arrayBuffer) 12.

(** [for (i = from; i < upto; i++) text += (samples[i] & 1).toString()] *)
Definition readAudio (buffer : list Z) (offset chunkSize from count : nat) : bits :=
  map (fun i => lsb_char (samples_get buffer offset chunkSize i)) (seq from count).

Definition decodeAudio `{Platform} (arrayBuffer : list Z)
    (password : option jsstring) : Result jsstring :=
  scanChunks arrayBuffer
    (fun offset chunkSize =>
       if negb (view_fits arrayBuffer offset chunkSize) then Throw RangeError else
       let lengthBin := readAudio arrayBuffer offset chunkSize 0 32 in
       let msgLength := parseInt2 lengthBin in
       if le0_num msgLength || gt_num msgLength chunkSize then
         Throw (Error MSG_NO_HIDDEN_AUDIO)
       else
         let binary := readAudio arrayBuffer offset chunkSize 32
                                 (N.to_nat (default 0%N msgLength)) in
         let decoded := binaryToString binary in
         decryptIfNeeded decoded password)
    Throw
    (Throw (Error MSG_INVALID_WAV_FILE))
    (length arrayBuffer) 12.

(** Works on a copy of the buffer, which is what it returns. *)
Definition corruptAudio (arrayBuffer : list Z) : Result (list Z) :=
  scanChunks arrayBuffer
    (fun offset chunkSize =>
       if negb (view_fits arrayBuffer offset chunkSize) then Throw RangeError else
       if 50 <? chunkSize then
         Ok (samples_set arrayBuffer offset chunkSize 40
               (Z.lxor (samples_get arrayBuffer offset chunkSize 40) 1))
       else Ok arrayBuffer)
    Throw
    (Throw (Error MSG_INVALID_WAV_STRUCTURE))
    (length arrayBuffer) 12.

(** ** [btoa] and [atob] of the host (forgiving base64) *)

Definition InvalidCharacterError : JsError :=
  mkError "InvalidCharacterError" "The string contains invalid characters.".

Definition b64_alphabet : jsstring :=
  lit "ABCDEFGHIJKLMNOPQRSTUVWXYZabcdefghijklmnopqrstuvwxyz0123456789+/".

Definition b64_char (sextet : N) : N := nth (N.to_nat sextet) b64_alphabet 0%N.

Fixpoint index_of (c : N) (l : list N) : option N :=
  match l with
  | [] => None
  | x :: rest => if (x =? c)%N then Some 0%N else N.succ <$> index_of c rest
  end.

Definition b64_value (c : N) : option N := index_of c b64_alphabet.

Definition equals_sign : N := 61%N.

(** Bytes to six-bit groups, the last group padded with zero bits. *)
Fixpoint sextets (bytes : list N) : list N :=
  match bytes with
  | a :: b :: c :: rest =>
      [a / 4; (a mod 4) * 16 + b / 16; (b mod 16) * 4 + c / 64; c mod 64]%N
      ++ sextets rest
  | [a; b] => [a / 4; (a mod 4) * 16 + b / 16; (b mod 16) * 4]%N
  | [a] => [a / 4; (a mod 4) * 16]%N
  | [] => []
  end.

(** Six-bit groups back to bytes, the bits left over being dropped. *)
Fixpoint unsextets (values : list N) : list N :=
  match values with
  | a :: b :: c :: d :: rest =>
      [a * 4 + b / 16; (b mod 16) * 16 + c / 4; (c mod 4) * 64 + d]%N
      ++ unsextets rest
  | [a; b; c] => [a * 4 + b / 16; (b mod 16) * 16 + c / 4]%N
  | [a; b] => [a * 4 + b / 16]%N
  | _ => []
  end.

(** [btoa(s)]: throws on a code unit above U+00FF. *)
Definition btoa (s : jsstring) : Result jsstring :=
  if forallb (fun c => (c <=? 255)%N) s then
    Ok (map b64_char (sextets s)
        ++ replicate ((3 - length s mod 3) mod 3) equals_sign)
  else Throw InvalidCharacterError.

Definition is_ascii_whitespace (c : N) : bool :=
  bool_decide (c ∈ [9; 10; 12; 13; 32]%N).

Definition ends_with_equals (data : jsstring) : bool :=
  bool_decide (last data = Some equals_sign).

(** If the length is a multiple of four, one or two trailing [=] go. *)
Definition strip_padding (data : jsstring) : jsstring :=
  if length data mod 4 =? 0 then
    if ends_with_equals data then
      let data := removelast data in
      if ends_with_equals data then removelast data else data
    else data
  else data.

(** [atob(data)] *)
Definition atob (data : jsstring) : Result jsstring :=
  let data := filter (fun c => is_ascii_whitespace c = false) data in
  let data := strip_padding data in
  if length data mod 4 =? 1 then Throw InvalidCharacterError else
  match mapM b64_value data with
  | None => Throw InvalidCharacterError
  | Some values => Ok (unsextets values)
  end.

(** ** PDF adapter (first document of [pdfStego.ts])

    The carrier is a loaded document: its Subject entry, which may be
    missing, and everything else. *)

Record PdfDoc := { pdf_subject : option jsstring; pdf_content : list Z }.

Definition setSubject (doc : PdfDoc) (subject : jsstring) : PdfDoc :=
  {| pdf_subject := Some subject; pdf_content := pdf_content doc |}.

Definition flag : jsstring := lit "STEGAPP_HIDDEN:".

Definition MSG_NO_HIDDEN_PDF : string :=
  "No hidden message found in PDF Subject metadata.".
Definition MSG_CORRUPTED_ENCODING : string := "Corrupted hidden data encoding.".

Definition startsWith (s pattern : jsstring) : bool :=
  bool_decide (take (length pattern) s = pattern).

(** [s.replace(pattern, replacement)] for a string pattern: the first
    occurrence only (the replacement used here has no [$]). *)
Fixpoint replace (pattern replacement s : jsstring) : jsstring :=
  if startsWith s pattern then replacement ++ drop (length pattern) s
  else match s with
       | [] => []
       | c :: rest => c :: replace pattern replacement rest
       end.

Definition encodePdf `{Platform} (pdfDoc : PdfDoc) (message : jsstring)
    (password : option jsstring) (salt iv : list Z) : Result PdfDoc :=
  finalMessage ←
    match password with
    | Some (c :: p) =>
        finalMessage ← encryptMessage message (c :: p) salt iv;
        btoa finalMessage
    | _ => btoa message
    end;
  mret (setSubject pdfDoc (flag ++ finalMessage)).

Definition decodePdf `{Platform} (pdfDoc : PdfDoc) (password : option jsstring)
    : Result jsstring :=
  let subject := pdf_subject pdfDoc in
  if negb (truthy_string subject) || negb (startsWith (default [] subject) flag) then
    Throw (Error MSG_NO_HIDDEN_PDF)
  else
    let rawData := replace flag [] (default [] subject) in
    decoded ← try_catch (atob rawData)
                        (fun _ => Throw (Error MSG_CORRUPTED_ENCODING));
    decryptIfNeeded decoded password.

Definition corruptPdf (pdfDoc : PdfDoc) : PdfDoc :=
  let subject := pdf_subject pdfDoc in
  if truthy_string subject && startsWith (default [] subject) flag then
    let rawData := replace flag [] (default [] subject) in
    if 10 <? length rawData then
      let idx := length rawData / 2 in
      let char := rawData !! idx in
      let newChar := if bool_decide (char = Some 65%N) then 66%N else 65%N in
      let corrupted := take idx rawData ++ [newChar] ++ drop (idx + 1) rawData in
      setSubject pdfDoc (flag ++ corrupted)
    else pdfDoc
  else pdfDoc.

(** ** A deterministic provider for running the services

    A stand-in for the host with the same interface: the text codec is the
    real one on ASCII text, the cipher shifts bytes by the key and appends a
    one-byte tag over key, nonce and plaintext, the parser reads the text
    form of the envelope and nothing else. *)

Definition sumZ (l : list Z) : Z := fold_right Z.add 0%Z l.

Definition test_encrypt (key iv plaintext : list Z) : Result (list Z) :=
  Ok (map (fun x => (x + sumZ key) mod 256)%Z plaintext
      ++ [(sumZ key + sumZ iv + sumZ plaintext) mod 256]%Z).

Definition test_decrypt (key iv data : list Z) : Result (list Z) :=
  match reverse data with
  | [] => Throw (mkError "OperationError" "")
  | tag :: r =>
      let plaintext := map (fun x => (x - sumZ key) mod 256)%Z (reverse r) in
      if bool_decide (tag = (sumZ key + sumZ iv + sumZ plaintext) mod 256)%Z
      then Ok plaintext
      else Throw (mkError "OperationError" "")
  end.

Definition is_digit (c : N) : bool := (48 <=? c)%N && (c <=? 57)%N.

Fixpoint parse_numbers (s : jsstring) (current : option Z) (acc : list Z)
    : option (list Z * jsstring) :=
  match s with
  | [] => None
  | c :: rest =>
      if is_digit c then
        parse_numbers rest (Some (10 * default 0 current + Z.of_N (c - 48)))%Z acc
      else if (c =? 44)%N then
        match current with
        | Some n => parse_numbers rest None (acc ++ [n])
        | None => None
        end
      else if (c =? 93)%N then
        match current, acc with
        | Some n, _ => Some (acc ++ [n], rest)
        | None, [] => Some ([], rest)
        | None, _ => None
        end
      else None
  end.

Definition expect (pattern s : jsstring) : option jsstring :=
  if startsWith s pattern then Some (drop (length pattern) s) else None.

Definition test_parse (text : jsstring) : Result json :=
  match (r ← expect (lit "{" ++ [dquote] ++ lit "s" ++ [dquote] ++ lit ":[") text;
         '(s, r) ← parse_numbers r None [];
         r ← expect (lit "," ++ [dquote] ++ lit "iv" ++ [dquote] ++ lit ":[") r;
         '(iv, r) ← parse_numbers r None [];
         r ← expect (lit "," ++ [dquote] ++ lit "d" ++ [dquote] ++ lit ":[") r;
         '(d, r) ← parse_numbers r None [];
         if bool_decide (r = lit "}") then Some (bundle_value s iv d) else None) with
  | Some v => Ok v
  | None => Throw (mkError "SyntaxError" "Unexpected token")
  end.

Definition test_Uint8Array_from (v : json) : Result (list Z) :=
  match v with
  | JArr items =>
      Ok (map (fun item => match item with
                           | JNum n => (n mod 256)%Z
                           | _ => 0%Z
                           end) items)
  | JNum n => if (n <? 0)%Z then Throw RangeError else Ok (replicate (Z.to_nat n) 0%Z)
  | _ => Ok []
  end.

Definition test_platform : Platform := {|
  PasswordKey := list Z;
  AesKey := list Z;
  TextEncoder_encode := map (fun c => if (c <? 128)%N then Z.of_N c else 63%Z);
  TextDecoder_decode := map (fun b => if (b <? 128)%Z then Z.to_N b else 65533%N);
  subtle_importKey := fun raw => Ok raw;
  subtle_deriveKey := fun passwordKey salt _ _ => Ok (passwordKey ++ salt);
  subtle_encrypt := test_encrypt;
  subtle_decrypt := test_decrypt;
  JSON_parse := test_parse;
  Uint8Array_from := test_Uint8Array_from
|}.

(** Sample carriers. *)
Definition blank_image (pixels : nat) : list Z := replicate (4 * pixels) 255%Z.

Definition wav_file (samples : list Z) : list Z :=
  map (fun c => Z.of_N c) (lit "RIFF") ++ [0; 0; 0; 0]%Z
  ++ map (fun c => Z.of_N c) (lit "WAVE")
  ++ chunkId_data
  ++ [Z.of_nat (length samples) mod 256; Z.of_nat (length samples) / 256 mod 256;
      Z.of_nat (length samples) / 65536 mod 256;
      Z.of_nat (length samples) / 16777216 mod 256]%Z
  ++ samples.

Definition blank_pdf : PdfDoc := {| pdf_subject := None; pdf_content := [] |}.

(** * Notions the statements are written with *)

(** The numeral of [n] on [width] binary digits, most significant first:
    the reading of "big-endian" the framer is checked against. *)
Fixpoint be_bits (width : nat) (n : N) : bits :=
  match width with
  | O => []
  | S w => be_bits w (n / 2) ++ [N.odd n]
  end.

(** Bytes and code units in range. *)
Definition is_byte (x : Z) : Prop := (0 <= x < 256)%Z.
Definition is_unit (c : N) : Prop := (c < 65536)%N.

(** The number a binary text denotes, read most significant digit first. *)
Definition bits_value (s : bits) : N :=
  fold_left (fun acc b => (2 * acc + digit_value b)%N) s 0%N.

(** What the image loop stores for bit [b] over byte [x], and what the
    audio loop stores. *)
Definition embed_clamped (x : Z) (b : bool) : Z := clamp_uint8 (setLSB x (Z.b2z b)).
Definition embed_wrapped (x : Z) (b : bool) : Z := wrap_uint8 (setLSB x (Z.b2z b)).
Definition flip_clamped (x : Z) : Z := clamp_uint8 (Z.lxor x 1).
Definition flip_wrapped (x : Z) : Z := wrap_uint8 (Z.lxor x 1).

(** The facts about one byte that the loops rely on, as a check that is run
    over all 256 bytes: what is stored is a byte, has the wanted last bit,
    the same upper bits and the expected value; a flip changes the last bit
    only. *)
Definition byte_facts (x : Z) : bool :=
  forallb (fun b =>
    forallb (fun y => (0 <=? y)%Z && (y <? 256)%Z
                      && Bool.eqb (lsb_char y) b
                      && (Z.shiftr y 1 =? Z.shiftr x 1)%Z
                      && (y =? 2 * (x / 2) + Z.b2z b)%Z)
            [embed_clamped x b; embed_wrapped x b]) [true; false]
  && forallb (fun y => (0 <=? y)%Z && (y <? 256)%Z
                       && Bool.eqb (lsb_char y) (negb (lsb_char x))
                       && (Z.shiftr y 1 =? Z.shiftr x 1)%Z
                       && (Z.lxor y x =? 1)%Z)
             [flip_clamped x; flip_wrapped x].

(** The image loops as recursions over the buffer, from index [i] on:
    what the embedding loop leaves in the buffer, and the index and text the
    reading loop ends with when [n] characters are still wanted. *)
Fixpoint embed_from (i : nat) (bs : bits) (data : list Z) : list Z :=
  match data with
  | [] => []
  | x :: rest =>
      match bs with
      | [] => data
      | b :: bs' =>
          if isAlpha i then x :: embed_from (S i) bs rest
          else embed_clamped x b :: embed_from (S i) bs' rest
      end
  end.

Fixpoint read_from (i n : nat) (data : list Z) : nat * bits :=
  match data with
  | [] => (i, [])
  | x :: rest =>
      match n with
      | O => (i, [])
      | S n' =>
          if isAlpha i then read_from (S i) n rest
          else (fst (read_from (S i) n' rest),
                lsb_char x :: snd (read_from (S i) n' rest))
      end
  end.

(** The ranges are decidable, so that they can be checked on sample data. *)
#[global] Instance is_byte_dec x : Decision (is_byte x).
Proof. unfold is_byte. apply _. Defined.
#[global] Instance is_unit_dec c : Decision (is_unit c).
Proof. unfold is_unit. apply _. Defined.

(** The slot sequence of an image buffer read from index [i]: the
    least-significant bits of its bytes, every 4th byte left out. *)
Fixpoint slots_from (i : nat) (data : list Z) : bits :=
  match data with
  | [] => []
  | x :: rest =>
      if isAlpha i then slots_from (S i) rest
      else lsb_char x :: slots_from (S i) rest
  end.

(** Where the chunk walk of the audio operations ends. *)
Inductive ScanOutcome :=
| FoundData (offset chunkSize : nat)
| ScanThrew (e : JsError)
| NoData.

Definition locateData (buffer : list Z) : ScanOutcome :=
  scanChunks buffer FoundData ScanThrew NoData (length buffer) 12.

(** One turn of the embedding loop of [encodeAudio]. *)
Definition audio_step (fullBinary : bits) (offset chunkSize : nat)
    (buf : list Z) (i : nat) : list Z :=
  samples_set buf offset chunkSize i
    (setLSB (samples_get buf offset chunkSize i) (bit_at fullBinary i)).

(** The loop of [corruptImage] as a recursion over the buffer from index
    [i] on, [v] bytes outside the alpha channel having been seen. *)
Fixpoint corrupt_from (i v : nat) (data : list Z) : list Z :=
  match data with
  | [] => []
  | x :: rest =>
      if isAlpha i then x :: corrupt_from (S i) v rest
      else if 42 <? v then flip_clamped x :: rest
      else x :: corrupt_from (S i) (S v) rest
  end.

(** ** Situations of a decryption call *)

Section Situations.
Context `{Platform}.

(** The call gets as far as the cipher, and the cipher rejects the data
    because the authentication tag does not verify. *)
Definition tag_rejected (encryptedJson password : jsstring) : Prop :=
  exists bundle bs biv bd salt iv data passwordKey aesKey e,
    JSON_parse encryptedJson = Ok bundle
    /\ get_prop bundle (lit "s") = Ok bs
    /\ get_prop bundle (lit "iv") = Ok biv
    /\ get_prop bundle (lit "d") = Ok bd
    /\ truthy bs = true /\ truthy biv = true /\ truthy bd = true
    /\ Uint8Array_from bs = Ok salt
    /\ Uint8Array_from biv = Ok iv
    /\ Uint8Array_from bd = Ok data
    /\ getPasswordKey password = Ok passwordKey
    /\ deriveKey passwordKey salt UsageDecrypt = Ok aesKey
    /\ subtle_decrypt aesKey iv data = Throw e
    /\ err_name e = "OperationError".

(** On this run the host gives back what it was given: the parser reads the
    envelope text, the typed arrays hold the parsed numbers, the cipher
    decrypts under the key derived for decryption what it encrypted under the
    key derived for encryption, the text decoder undoes the text encoder. *)
Definition platform_inverts (message password : jsstring) (salt iv : list Z) : Prop :=
  forall passwordKey aesKey encryptedContent,
    subtle_importKey (TextEncoder_encode password) = Ok passwordKey ->
    subtle_deriveKey passwordKey salt ITERATIONS UsageEncrypt = Ok aesKey ->
    subtle_encrypt aesKey iv (TextEncoder_encode message) = Ok encryptedContent ->
    JSON_parse (stringify_bundle salt iv encryptedContent)
    = Ok (bundle_value salt iv encryptedContent)
    /\ Uint8Array_from (JArr (map JNum salt)) = Ok salt
    /\ Uint8Array_from (JArr (map JNum iv)) = Ok iv
    /\ Uint8Array_from (JArr (map JNum encryptedContent)) = Ok encryptedContent
    /\ (exists aesKey',
          subtle_deriveKey passwordKey salt ITERATIONS UsageDecrypt = Ok aesKey'
          /\ subtle_decrypt aesKey' iv encryptedContent
             = Ok (TextEncoder_encode message))
    /\ TextDecoder_decode (TextEncoder_encode message) = message.

(** The text does not parse, or parses to a value that has no usable [s],
    [iv] or [d]. *)
Definition malformed_envelope (encryptedJson : jsstring) : Prop :=
  match JSON_parse encryptedJson with
  | Throw _ => True
  | Ok bundle =>
      match get_prop bundle (lit "s"), get_prop bundle (lit "iv"),
            get_prop bundle (lit "d") with
      | Ok bs, Ok biv, Ok bd => truthy bs && truthy biv && truthy bd = false
      | _, _, _ => True
      end
  end.
End Situations.

(** Code units [btoa] accepts, six-bit values, and code units of ASCII. *)
Definition is_latin1 (c : N) : Prop := (c <= 255)%N.

Definition is_sextet (v : N) : Prop := (v < 64)%N.

(** The facts about one base64 character, as a check that is run over the
    64 six-bit values. *)
Definition sextet_facts (v : N) : bool :=
  bool_decide (b64_value (b64_char v) = Some v)
  && negb (is_ascii_whitespace (b64_char v))
  && negb (b64_char v =? equals_sign)%N
  && (b64_char v <? 128)%N.

Definition is_ascii (c : N) : Prop := (c < 128)%N.

#[global] Instance is_ascii_dec c : Decision (is_ascii c).
Proof. unfold is_ascii. apply _. Defined.

#[global] Instance JsError_eq_dec : EqDecision JsError.
Proof. solve_decision. Defined.

(** Every fixed error value of the three service files other than the
    integrity error, the capacity error of the image encoder apart (its
    message carries two numbers). *)
Definition service_errors : list JsError :=
  [ Error MSG_DECRYPT_FAILED; Error MSG_INVALID_PAYLOAD;
    Error MSG_CORRUPTED_HEADER; Error MSG_ENCRYPT_FAILED;
    Error MSG_NO_HEADER; Error MSG_CAPACITY_AUDIO; Error MSG_INVALID_WAV_STRUCTURE;
    Error MSG_NO_HIDDEN_AUDIO; Error MSG_INVALID_WAV_FILE;
    Error MSG_NO_HIDDEN_PDF; Error MSG_CORRUPTED_ENCODING;
    Error "Canvas context not available"; Error "Encoding failed";
    Error "Corruption failed"; RangeError; InvalidCharacterError ].

(** A 16-pixel image whose first 32 slots spell the length 100: it has 48
    slots in all, 16 of them after the header. *)
Definition short_image : list Z := writeImage (be_bits 32 100) (blank_image 16).

(** The characters [binaryToString] makes of a text: one for each group of
    16 digits, the last group being the shorter one ([n] bounds the number of
    groups). *)
Fixpoint b2s_groups (n : nat) (binary : bits) : jsstring :=
  match n with
  | O => []
  | S n' =>
      match binary with
      | [] => []
      | _ => fromCharCode (parseInt2 (take 16 binary))
             :: b2s_groups n' (drop 16 binary)
      end
  end.

(** ** The layout of a RIFF file, as the chunk walk reads it

    The identifier and the size the walk reads at [offset]. *)
Definition chunk_header (buffer : list Z) (offset : nat) : Result (list Z * nat) :=
  c0 ← getUint8 buffer offset;
  c1 ← getUint8 buffer (offset + 1);
  c2 ← getUint8 buffer (offset + 2);
  c3 ← getUint8 buffer (offset + 3);
  chunkSize ← getUint32_le buffer (offset + 4);
  mret ([c0; c1; c2; c3], chunkSize).

(** The four bytes of a size, least significant first. *)
Definition le32 (n : nat) : list Z :=
  [Z.of_nat n mod 256; Z.of_nat n / 256 mod 256;
   Z.of_nat n / 65536 mod 256; Z.of_nat n / 16777216 mod 256]%Z.

(** A chunk: identifier, size of the body, body; chunks follow one another
    without padding. *)
Definition riff_chunk (id body : list Z) : list Z := id ++ le32 (length body) ++ body.

Definition riff_chunks (chunks : list (list Z * list Z)) : list Z :=
  concat (map (fun c => riff_chunk c.1 c.2) chunks).

(** A chunk the walk steps over: a four-byte identifier other than [data]
    and a body whose size fits the 32-bit field. *)
Definition plain_chunk (c : list Z * list Z) : Prop :=
  length c.1 = 4 /\ c.1 <> chunkId_data /\ (N.of_nat (length c.2) < 2 ^ 32)%N.

(** ** The exported calls, with the host steps around the codec

    An exported function first obtains its carrier from the host and, when
    it encodes, hands the result back to the host; a rejection of a host
    step is not caught by the services.  What the host steps of one call
    settle with are arguments, as the random draws are: [loaded] is the
    outcome of [loadImg] (for audio of [arrayBuffer()], for a PDF of
    [arrayBuffer()] followed by [PDFDocument.load]), [context] tells whether
    [getContext('2d')] gave a context, [pixels] is the outcome of [drawImage]
    and [getImageData], [blob] tells whether [toBlob] called back with a blob,
    [saved] is the outcome of [pdfDoc.save()].  Beside the outcome an encoder
    call gives the carrier buffer as it leaves it, if it got one.  A host
    step that never settles (a file reader that fails: [loadImg] sets no
    [onerror] on it) leaves the call without any outcome; such a run throws
    nothing and is no case of these definitions. *)


Section Calls.
Context `{Platform}.






End Calls.

(** * Properties *)

(** ** Loops leave through their condition *)

Section WhileFacts.
Context {St : Type}.
Variable cond : St -> bool.
Variable body : St -> St.

Lemma while_inv (Inv : St -> Prop) :
  (forall s, Inv s -> cond s = true -> Inv (body s)) ->
  forall fuel s, Inv s -> Inv (while cond body fuel s).
Proof.
  intros Hstep fuel. induction fuel as [|fuel IH]; intros s Hs; simpl.
  - exact Hs.
  - destruct (cond s) eqn:Hc; [apply IH, Hstep|]; assumption.
Qed.

Lemma while_exit (Inv : St -> Prop) (measure : St -> nat) :
  (forall s, Inv s -> cond s = true ->
             Inv (body s) /\ measure (body s) < measure s) ->
  forall fuel s, Inv s -> measure s <= fuel ->
                 cond (while cond body fuel s) = false.
Proof.
  intros Hstep fuel. induction fuel as [|fuel IH]; intros s Hs Hm; simpl.
  - destruct (cond s) eqn:Hc; [|reflexivity].
    destruct (Hstep s Hs Hc) as [_ Hlt]. lia.
  - destruct (cond s) eqn:Hc; [|exact Hc].
    destruct (Hstep s Hs Hc) as [Hi Hlt]. apply IH; [exact Hi|lia].
Qed.

Lemma while_false fuel s : cond s = false -> while cond body fuel s = s.
Proof. intros Hc. destruct fuel; simpl; [|rewrite Hc]; reflexivity. Qed.

Lemma while_true fuel s :
  cond s = true -> while cond body (S fuel) s = while cond body fuel (body s).
Proof. intros Hc. simpl. rewrite Hc. reflexivity. Qed.
End WhileFacts.

(** The four [while] loops of the codec stop because their condition has
    become false, not because the fuel they are given has run out. *)

Lemma binaryToString_exits binary :
  b2s_cond binary
    (while (b2s_cond binary) (b2s_body binary) (length binary)
           {| b2s_i := 0; b2s_chars := [] |}) = false.
Proof.
  apply (while_exit _ _ (fun _ => True) (fun s => length binary - b2s_i s)).
  - intros s _ Hc. split; [exact I|].
    unfold b2s_cond in Hc. apply Nat.ltb_lt in Hc.
    unfold b2s_body. cbn [b2s_i]. lia.
  - exact I.
  - cbn [b2s_i]. lia.
Qed.

Lemma writeImage_exits fullBinary data :
  encode_cond fullBinary
    (while (encode_cond fullBinary) (encode_body fullBinary) (length data)
           {| enc_data := data; enc_dataIndex := 0; enc_binIndex := 0 |}) = false.
Proof.
  apply (while_exit _ _ (fun s => length (enc_data s) = length data)
                    (fun s => length data - enc_dataIndex s)).
  - intros s Hs Hc. unfold encode_cond in Hc.
    apply andb_prop in Hc as [_ Hc]. apply Nat.ltb_lt in Hc.
    unfold encode_body. destruct (isAlpha (enc_dataIndex s));
      cbn [enc_data enc_dataIndex]; rewrite ?length_insert; split; lia.
  - reflexivity.
  - cbn [enc_dataIndex]. lia.
Qed.

Lemma readImage_exits data wanted dataIndex :
  read_cond data wanted (readImage data wanted dataIndex) = false.
Proof.
  apply (while_exit _ _ (fun _ => True) (fun s => length data - rd_dataIndex s)).
  - intros s _ Hc. split; [exact I|]. unfold read_cond in Hc.
    apply andb_prop in Hc as [_ Hc]. apply Nat.ltb_lt in Hc.
    unfold read_body. destruct (isAlpha (rd_dataIndex s)); cbn [rd_dataIndex]; lia.
  - exact I.
  - cbn [rd_dataIndex]. lia.
Qed.

Lemma corruptImage_exits data :
  corrupt_cond
    (while corrupt_cond corrupt_body (length data)
           {| co_data := data; co_i := 0;
              co_validBytesFound := 0; co_corrupted := false |}) = false.
Proof.
  apply (while_exit _ _ (fun s => length (co_data s) = length data)
                    (fun s => length data - co_i s)).
  - intros s Hs Hc. unfold corrupt_cond in Hc.
    apply andb_prop in Hc as [Hc _]. apply Nat.ltb_lt in Hc.
    unfold corrupt_body.
    destruct (isAlpha (co_i s)); [|destruct (42 <? co_validBytesFound s)];
      cbn [co_data co_i]; rewrite ?length_insert; split; lia.
  - reflexivity.
  - cbn [co_i]. lia.
Qed.

(** ** Binary numerals *)

Lemma parseInt2_value s : s <> [] -> parseInt2 s = Some (bits_value s).
Proof. destruct s; [congruence|reflexivity]. Qed.

Lemma pos_digits_acc p acc : pos_digits p acc = pos_digits p [] ++ acc.
Proof.
  revert acc. induction p as [q IH|q IH|]; intros acc; simpl.
  - rewrite IH, (IH [true]), <- app_assoc. reflexivity.
  - rewrite IH, (IH [false]), <- app_assoc. reflexivity.
  - reflexivity.
Qed.

Lemma toString2_double (p : positive) :
  toString2 (N.pos p~0) = toString2 (N.pos p) ++ [false].
Proof. simpl. apply pos_digits_acc. Qed.

Lemma toString2_double_one (p : positive) :
  toString2 (N.pos p~1) = toString2 (N.pos p) ++ [true].
Proof. simpl. apply pos_digits_acc. Qed.

Lemma pos_digits_nonempty p acc : pos_digits p acc <> [].
Proof.
  revert acc. induction p as [q IH|q IH|]; intros acc; simpl;
    [apply IH|apply IH|discriminate].
Qed.

Lemma toString2_nonempty n : toString2 n <> [].
Proof. destruct n as [|p]; [discriminate|apply pos_digits_nonempty]. Qed.

Lemma be_bits_length w n : length (be_bits w n) = w.
Proof.
  revert n. induction w as [|w IH]; intros n; simpl; [reflexivity|].
  rewrite length_app, IH. simpl. lia.
Qed.

Lemma replicate_snoc {A} n (x : A) : replicate (S n) x = replicate n x ++ [x].
Proof. induction n as [|n IH]; simpl; [reflexivity|]. f_equal. exact IH. Qed.

Lemma be_bits_zero w : be_bits w 0 = replicate w false.
Proof.
  induction w as [|w IH]; [reflexivity|].
  rewrite replicate_snoc, <- IH. reflexivity.
Qed.

Lemma padStart_snoc w s b :
  padStart (S w) (s ++ [b]) = padStart w s ++ [b].
Proof.
  unfold padStart. rewrite length_app. simpl.
  replace (w - length s)%nat with (S w - (length s + 1))%nat by lia.
  rewrite <- app_assoc. reflexivity.
Qed.

(** [padStart] of [toString(2)] is the fixed-width big-endian numeral. *)
Lemma padStart_toString2 w n :
  (n < 2 ^ N.of_nat (S w))%N -> padStart (S w) (toString2 n) = be_bits (S w) n.
Proof.
  revert n. induction w as [|w IH]; intros n Hn.
  - change (2 ^ N.of_nat 1)%N with 2%N in Hn.
    destruct n as [|[q|q|]]; try lia; reflexivity.
  - rewrite Nat2N.inj_succ, N.pow_succ_r' in Hn.
    destruct n as [|[q|q|]].
    + rewrite be_bits_zero, replicate_snoc. unfold padStart. simpl.
      reflexivity.
    + rewrite toString2_double_one, padStart_snoc.
      change (be_bits (S (S w)) (N.pos q~1))
        with (be_bits (S w) (N.pos q~1 / 2) ++ [true]).
      replace (N.pos q~1 / 2)%N with (N.pos q).
      2:{ apply N.div_unique with (r := 1%N); lia. }
      rewrite IH by lia. reflexivity.
    + rewrite toString2_double, padStart_snoc.
      change (be_bits (S (S w)) (N.pos q~0))
        with (be_bits (S w) (N.pos q~0 / 2) ++ [false]).
      replace (N.pos q~0 / 2)%N with (N.pos q).
      2:{ apply N.div_unique with (r := 0%N); lia. }
      rewrite IH by lia. reflexivity.
    + change (be_bits (S (S w)) 1) with (be_bits (S w) 0 ++ [true]).
      rewrite be_bits_zero.
      unfold padStart. simpl. reflexivity.
Qed.

Lemma bits_value_snoc s b :
  bits_value (s ++ [b]) = (2 * bits_value s + digit_value b)%N.
Proof. unfold bits_value. rewrite fold_left_app. reflexivity. Qed.

Lemma bits_value_be_bits w n :
  (n < 2 ^ N.of_nat w)%N -> bits_value (be_bits w n) = n.
Proof.
  revert n. induction w as [|w IH]; intros n Hn.
  - simpl in Hn. assert (n = 0%N) as -> by lia. reflexivity.
  - rewrite Nat2N.inj_succ, N.pow_succ_r' in Hn. simpl.
    rewrite bits_value_snoc, IH.
    + pose proof (N.div_mod' n 2) as Hdm.
      rewrite <- N.bit0_mod, N.bit0_odd in Hdm.
      destruct (N.odd n); simpl in *; lia.
    + apply N.Div0.div_lt_upper_bound. lia.
Qed.

Lemma toString2_length w n :
  (n < 2 ^ N.of_nat (S w))%N -> length (toString2 n) <= S w.
Proof.
  intros Hn. pose proof (f_equal length (padStart_toString2 w n Hn)) as Hl.
  rewrite be_bits_length in Hl. unfold padStart in Hl.
  rewrite length_app, length_replicate in Hl. lia.
Qed.

(** ** The framer *)

Lemma be_bits_16_value c : is_unit c -> parseInt2 (be_bits 16 c) = Some c.
Proof.
  intros Hc. rewrite parseInt2_value.
  - f_equal. apply bits_value_be_bits. exact Hc.
  - intros Hnil. apply (f_equal length) in Hnil.
    rewrite be_bits_length in Hnil. discriminate.
Qed.

Lemma stringToBinary_be str :
  Forall is_unit str -> stringToBinary str = concat (map (be_bits 16) str).
Proof.
  intros Hstr. unfold stringToBinary. f_equal.
  induction Hstr as [|c str Hc _ IH]; simpl; [reflexivity|].
  rewrite IH. f_equal. apply (padStart_toString2 15 c). exact Hc.
Qed.

Lemma concat_be_bits_length w (str : jsstring) :
  length (concat (map (be_bits w) str)) = w * length str.
Proof.
  induction str as [|c str IH]; simpl; [lia|].
  rewrite length_app, be_bits_length, IH. lia.
Qed.

Lemma stringToBinary_length str :
  Forall is_unit str -> length (stringToBinary str) = 16 * length str.
Proof. intros Hstr. rewrite stringToBinary_be by exact Hstr. apply concat_be_bits_length. Qed.

Lemma stringToBinary_app s1 s2 :
  stringToBinary (s1 ++ s2) = stringToBinary s1 ++ stringToBinary s2.
Proof. unfold stringToBinary. rewrite map_app, concat_app. reflexivity. Qed.

(** The header of a frame is the 32-digit numeral of the body length. *)
Lemma fullBinary_be str :
  Forall is_unit str -> (N.of_nat (16 * length str) < 2 ^ 32)%N ->
  fullBinary str = be_bits 32 (N.of_nat (16 * length str)) ++ stringToBinary str.
Proof.
  intros Hstr Hlen. unfold fullBinary. cbv zeta.
  rewrite stringToBinary_length by exact Hstr.
  rewrite (padStart_toString2 31); [reflexivity|].
  change (N.of_nat 32) with 32%N. exact Hlen.
Qed.

Lemma fullBinary_length str :
  Forall is_unit str -> (N.of_nat (16 * length str) < 2 ^ 32)%N ->
  length (fullBinary str) = 32 + 16 * length str.
Proof.
  intros Hstr Hlen. rewrite fullBinary_be by assumption.
  rewrite length_app, be_bits_length, stringToBinary_length by exact Hstr.
  reflexivity.
Qed.

(** Whatever the length, a frame is never shorter than header plus body. *)
Lemma fullBinary_length_ge str :
  Forall is_unit str -> 32 + 16 * length str <= length (fullBinary str).
Proof.
  intros Hstr. unfold fullBinary, padStart. cbv zeta.
  rewrite !length_app, length_replicate, stringToBinary_length by exact Hstr. lia.
Qed.

Lemma binaryToString_loop (binary : bits) (rest done : jsstring) fuel :
  Forall is_unit (done ++ rest) ->
  binary = stringToBinary (done ++ rest) ->
  length rest <= fuel ->
  while (b2s_cond binary) (b2s_body binary) fuel
        {| b2s_i := 16 * length done; b2s_chars := done |}
  = {| b2s_i := length binary; b2s_chars := done ++ rest |}.
Proof.
  revert done fuel. induction rest as [|c rest IH]; intros done fuel Hall Hbin Hfuel.
  - rewrite app_nil_r in *. rewrite while_false.
    + rewrite Hbin, stringToBinary_length by exact Hall. reflexivity.
    + unfold b2s_cond. cbn [b2s_i].
      rewrite Hbin, stringToBinary_length by exact Hall.
      apply Nat.ltb_irrefl.
  - destruct fuel as [|fuel]; [simpl in Hfuel; lia|].
    pose proof Hall as Hsplit. apply Forall_app in Hsplit as [Hdone Hcr].
    apply Forall_cons in Hcr as [Hc Hrest].
    rewrite while_true.
    2:{ unfold b2s_cond. cbn [b2s_i].
        rewrite Hbin, stringToBinary_length by exact Hall.
        rewrite length_app. cbn [length]. apply Nat.ltb_lt. lia. }
    unfold b2s_body at 2. cbn [b2s_i b2s_chars].
    assert (Hbyte : take 16 (drop (16 * length done) binary) = be_bits 16 c).
    { rewrite Hbin, stringToBinary_app.
      rewrite <- (stringToBinary_length done Hdone), drop_app_length.
      change (c :: rest) with ([c] ++ rest). rewrite stringToBinary_app.
      rewrite (stringToBinary_be [c]) by (constructor; [exact Hc|constructor]).
      cbn [map concat]. rewrite app_nil_r.
      rewrite <- (be_bits_length 16 c) at 1. apply take_app_length. }
    rewrite Hbyte, be_bits_16_value by exact Hc. cbn [fromCharCode].
    rewrite N.mod_small by exact Hc.
    replace (16 * length done + 16) with (16 * length (done ++ [c]))
      by (rewrite length_app; simpl; lia).
    rewrite (IH (done ++ [c]) fuel).
    + rewrite <- app_assoc. reflexivity.
    + rewrite <- app_assoc. exact Hall.
    + rewrite <- app_assoc. exact Hbin.
    + simpl in Hfuel. lia.
Qed.

(** The two framer functions are inverse on 16-bit text. *)
Lemma binaryToString_stringToBinary str :
  Forall is_unit str -> binaryToString (stringToBinary str) = str.
Proof.
  intros Hstr. unfold binaryToString.
  rewrite (binaryToString_loop (stringToBinary str) str [] _ Hstr eq_refl).
  - reflexivity.
  - rewrite stringToBinary_length by exact Hstr. lia.
Qed.

(** ** Least-significant bits of bytes *)

Lemma byte_forall (f : Z -> bool) :
  forallb f (map Z.of_nat (seq 0 256)) = true ->
  forall x, is_byte x -> f x = true.
Proof.
  intros Hall x [Hlo Hhi]. rewrite forallb_forall in Hall. apply Hall.
  apply in_map_iff. exists (Z.to_nat x). split; [lia|].
  apply in_seq. lia.
Qed.

Lemma byte_facts_hold x : is_byte x -> byte_facts x = true.
Proof. apply (byte_forall byte_facts). vm_compute. reflexivity. Qed.

Ltac byte_fact x Hx :=
  let H := fresh "Hfacts" in
  pose proof (byte_facts_hold x Hx) as H; unfold byte_facts in H;
  cbn [forallb] in H;
  repeat (apply andb_prop in H; destruct H as [H ?]);
  repeat match goal with
         | Hb : (_ && _) = true |- _ => apply andb_prop in Hb; destruct Hb
         end.

Lemma embed_clamped_byte x b : is_byte x -> is_byte (embed_clamped x b).
Proof. intros Hx. byte_fact x Hx. unfold is_byte. destruct b; lia. Qed.

Lemma embed_clamped_lsb x b : is_byte x -> lsb_char (embed_clamped x b) = b.
Proof.
  intros Hx. byte_fact x Hx.
  destruct b; apply Bool.eqb_prop; assumption.
Qed.

Lemma embed_clamped_upper x b :
  is_byte x -> Z.shiftr (embed_clamped x b) 1 = Z.shiftr x 1.
Proof. intros Hx. byte_fact x Hx. destruct b; lia. Qed.

Lemma embed_wrapped_byte x b : is_byte x -> is_byte (embed_wrapped x b).
Proof. intros Hx. byte_fact x Hx. unfold is_byte. destruct b; lia. Qed.

Lemma embed_wrapped_lsb x b : is_byte x -> lsb_char (embed_wrapped x b) = b.
Proof.
  intros Hx. byte_fact x Hx.
  destruct b; apply Bool.eqb_prop; assumption.
Qed.

Lemma embed_wrapped_upper x b :
  is_byte x -> Z.shiftr (embed_wrapped x b) 1 = Z.shiftr x 1.
Proof. intros Hx. byte_fact x Hx. destruct b; lia. Qed.

Lemma flip_clamped_facts x :
  is_byte x ->
  is_byte (flip_clamped x) /\ lsb_char (flip_clamped x) = negb (lsb_char x)
  /\ Z.shiftr (flip_clamped x) 1 = Z.shiftr x 1 /\ Z.lxor (flip_clamped x) x = 1%Z.
Proof.
  intros Hx. byte_fact x Hx. unfold is_byte.
  repeat split; try lia. apply Bool.eqb_prop; assumption.
Qed.

Lemma flip_wrapped_facts x :
  is_byte x ->
  is_byte (flip_wrapped x) /\ lsb_char (flip_wrapped x) = negb (lsb_char x)
  /\ Z.shiftr (flip_wrapped x) 1 = Z.shiftr x 1 /\ Z.lxor (flip_wrapped x) x = 1%Z.
Proof.
  intros Hx. byte_fact x Hx. unfold is_byte.
  repeat split; try lia. apply Bool.eqb_prop; assumption.
Qed.

Lemma bit_at_lookup fullBinary i b :
  fullBinary !! i = Some b -> bit_at fullBinary i = Z.b2z b.
Proof. intros Hb. unfold bit_at. rewrite Hb. destruct b; reflexivity. Qed.

(** ** The image loops *)

Lemma elem_middle (pre : list Z) x rest : elem (pre ++ x :: rest) (length pre) = x.
Proof. unfold elem. rewrite list_lookup_middle by reflexivity. reflexivity. Qed.

Lemma insert_middle (pre : list Z) x y rest :
  <[length pre := y]> (pre ++ x :: rest) = pre ++ y :: rest.
Proof.
  rewrite insert_app_r_alt by lia. rewrite Nat.sub_diag. reflexivity.
Qed.

Lemma snoc_shift {A} (pre : list A) x rest : pre ++ x :: rest = (pre ++ [x]) ++ rest.
Proof. rewrite <- app_assoc. reflexivity. Qed.

Lemma length_snoc {A} (pre : list A) x : length (pre ++ [x]) = length pre + 1.
Proof. rewrite length_app. reflexivity. Qed.

Lemma encode_loop fullBinary data : forall pre binIndex fuel,
  length data <= fuel ->
  enc_data (while (encode_cond fullBinary) (encode_body fullBinary) fuel
              {| enc_data := pre ++ data; enc_dataIndex := length pre;
                 enc_binIndex := binIndex |})
  = pre ++ embed_from (length pre) (drop binIndex fullBinary) data.
Proof.
  induction data as [|x rest IH]; intros pre binIndex fuel Hfuel.
  - rewrite while_false; [reflexivity|].
    unfold encode_cond. cbn [enc_data enc_dataIndex enc_binIndex].
    rewrite app_nil_r, Nat.ltb_irrefl. apply andb_false_r.
  - destruct fuel as [|fuel]; [simpl in Hfuel; lia|].
    simpl in Hfuel.
    destruct (fullBinary !! binIndex) as [b|] eqn:Hb.
    + rewrite while_true.
      2:{ unfold encode_cond. cbn [enc_data enc_dataIndex enc_binIndex].
          apply andb_true_intro. split; apply Nat.ltb_lt.
          - eapply lookup_lt_Some. exact Hb.
          - rewrite length_app. simpl. lia. }
      rewrite (drop_S _ _ _ Hb). cbn [embed_from].
      unfold encode_body at 2. cbn [enc_data enc_dataIndex enc_binIndex].
      destruct (isAlpha (length pre)) eqn:Halpha.
      * rewrite snoc_shift, <- length_snoc with (x := x).
        rewrite IH by lia. rewrite length_snoc, Nat.add_1_r, <- app_assoc.
        rewrite (drop_S _ _ _ Hb). reflexivity.
      * rewrite elem_middle, insert_middle, (bit_at_lookup _ _ _ Hb).
        fold (embed_clamped x b).
        rewrite snoc_shift, <- length_snoc with (x := embed_clamped x b).
        rewrite Nat.add_1_r, <- Nat.add_1_r.
        rewrite IH by lia. rewrite length_snoc, Nat.add_1_r, <- app_assoc.
        reflexivity.
    + rewrite while_false.
      * cbn [enc_data]. rewrite drop_ge; [reflexivity|].
        apply lookup_ge_None. exact Hb.
      * unfold encode_cond. cbn [enc_data enc_dataIndex enc_binIndex].
        apply andb_false_intro1. apply Nat.ltb_ge, lookup_ge_None. exact Hb.
Qed.

Lemma writeImage_embed fullBinary data :
  writeImage fullBinary data = embed_from 0 fullBinary data.
Proof. apply (encode_loop fullBinary data [] 0). lia. Qed.

Lemma read_loop data : forall pre acc wanted fuel,
  length data <= fuel ->
  while (read_cond (pre ++ data) (Some wanted)) (read_body (pre ++ data)) fuel
        {| rd_dataIndex := length pre; rd_text := acc |}
  = {| rd_dataIndex := fst (read_from (length pre) (N.to_nat wanted - length acc) data);
       rd_text := acc ++ snd (read_from (length pre) (N.to_nat wanted - length acc) data) |}.
Proof.
  induction data as [|x rest IH]; intros pre acc wanted fuel Hfuel.
  - rewrite while_false.
    + cbn [read_from fst snd]. rewrite app_nil_r. reflexivity.
    + unfold read_cond. cbn [rd_dataIndex rd_text].
      rewrite app_nil_r, Nat.ltb_irrefl. apply andb_false_r.
  - destruct fuel as [|fuel]; [simpl in Hfuel; lia|].
    simpl in Hfuel.
    destruct (N.to_nat wanted - length acc) as [|n'] eqn:Hn.
    + rewrite while_false.
      * cbn [read_from fst snd]. rewrite app_nil_r. reflexivity.
      * unfold read_cond, lt_num. cbn [rd_dataIndex rd_text].
        apply andb_false_intro1. apply N.ltb_ge. lia.
    + rewrite while_true.
      2:{ unfold read_cond, lt_num. cbn [rd_dataIndex rd_text].
          apply andb_true_intro. split; [apply N.ltb_lt; lia|].
          apply Nat.ltb_lt. rewrite length_app. simpl. lia. }
      cbn [read_from]. unfold read_body at 2. cbn [rd_dataIndex rd_text].
      destruct (isAlpha (length pre)) eqn:Halpha.
      * rewrite snoc_shift, <- length_snoc with (x := x).
        rewrite IH by lia. rewrite Hn, length_snoc, Nat.add_1_r. reflexivity.
      * rewrite elem_middle.
        rewrite snoc_shift, <- length_snoc with (x := x).
        rewrite IH by lia. rewrite !length_snoc.
        replace (N.to_nat wanted - (length acc + 1)) with n' by lia.
        rewrite Nat.add_1_r, <- app_assoc. reflexivity.
Qed.

(** A reading loop started at an index inside the buffer. *)
Lemma readImage_from data wanted dataIndex :
  dataIndex <= length data ->
  readImage data (Some wanted) dataIndex
  = {| rd_dataIndex := fst (read_from dataIndex (N.to_nat wanted) (drop dataIndex data));
       rd_text := snd (read_from dataIndex (N.to_nat wanted) (drop dataIndex data)) |}.
Proof.
  intros Hle. unfold readImage.
  assert (Hlen : length (take dataIndex data) = dataIndex)
    by (rewrite length_take; lia).
  pose proof (read_loop (drop dataIndex data) (take dataIndex data) [] wanted
                        (length data)) as Hloop.
  rewrite take_drop, Hlen in Hloop. rewrite Hloop.
  - cbn [length]. rewrite Nat.sub_0_r. reflexivity.
  - rewrite length_drop. lia.
Qed.

Lemma isAlpha_spec i : isAlpha i = true <-> i mod 4 = 3.
Proof.
  unfold isAlpha. rewrite Nat.eqb_eq.
  pose proof (Nat.mod_upper_bound i 4). pose proof (Nat.div_mod_eq i 4).
  pose proof (Nat.mod_upper_bound (i + 1) 4).
  pose proof (Nat.div_mod_eq (i + 1) 4). lia.
Qed.

Lemma embed_from_length i bs data : length (embed_from i bs data) = length data.
Proof.
  revert i bs. induction data as [|x rest IH]; intros i bs; [reflexivity|].
  cbn [embed_from]. destruct bs as [|b bs']; [reflexivity|].
  destruct (isAlpha i); cbn [length]; rewrite IH; reflexivity.
Qed.

Lemma embed_from_bytes i bs data :
  Forall is_byte data -> Forall is_byte (embed_from i bs data).
Proof.
  intros Hdata. revert i bs.
  induction Hdata as [|x rest Hx Hrest IH]; intros i bs; [constructor|].
  cbn [embed_from]. destruct bs as [|b bs']; [constructor; assumption|].
  destruct (isAlpha i); constructor; auto using embed_clamped_byte.
Qed.

(** Byte by byte: the seven upper bits stay, alpha bytes stay whole. *)
Lemma embed_from_lookup i bs data k x :
  Forall is_byte data -> data !! k = Some x ->
  exists y, embed_from i bs data !! k = Some y
            /\ Z.shiftr y 1 = Z.shiftr x 1
            /\ (isAlpha (i + k) = true -> y = x).
Proof.
  intros Hdata. revert i bs k.
  induction Hdata as [|x0 rest Hx Hrest IH]; intros i bs k Hk; [discriminate|].
  cbn [embed_from]. destruct bs as [|b bs'].
  { exists x. auto. }
  destruct k as [|k]; simpl in Hk.
  - injection Hk as ->. rewrite Nat.add_0_r.
    destruct (isAlpha i) eqn:Ha.
    + exists x. auto.
    + exists (embed_clamped x b). split; [reflexivity|].
      split; [apply embed_clamped_upper; exact Hx|discriminate].
  - replace (i + S k) with (S i + k) by lia.
    destruct (isAlpha i); simpl; apply IH; exact Hk.
Qed.

Lemma read_from_bounds data : forall i n,
  i <= fst (read_from i n data) <= i + length data
  /\ length (snd (read_from i n data)) <= n.
Proof.
  induction data as [|x rest IH]; intros i n; cbn [read_from].
  - simpl. lia.
  - destruct n as [|n']; [simpl; lia|].
    destruct (isAlpha i).
    + specialize (IH (S i) (S n')). cbn [length]. lia.
    + specialize (IH (S i) n'). cbn [fst snd length]. lia.
Qed.

(** Reading [a] then [b] characters is reading [a + b] of them. *)
Lemma read_from_split data : forall i a b,
  let j := fst (read_from i a data) in
  read_from i (a + b) data
  = (fst (read_from j b (drop (j - i) data)),
     snd (read_from i a data) ++ snd (read_from j b (drop (j - i) data))).
Proof.
  induction data as [|x rest IH]; intros i a b; cbv zeta.
  - cbn [read_from fst snd]. rewrite drop_nil. reflexivity.
  - destruct a as [|a'].
    + change (read_from i 0 (x :: rest)) with (i, @nil bool).
      cbn [fst snd]. rewrite Nat.sub_diag, drop_0. cbn [app].
      change (0 + b) with b. apply surjective_pairing.
    + cbn [read_from Nat.add]. destruct (isAlpha i) eqn:Ha.
      * change (S (a' + b)) with (S a' + b). rewrite IH.
        pose proof (read_from_bounds rest (S i) (S a')) as [[Hlo _] _].
        replace (fst (read_from (S i) (S a') rest) - i)
          with (S (fst (read_from (S i) (S a') rest) - S i)) by lia.
        reflexivity.
      * rewrite IH. cbn [fst snd].
        pose proof (read_from_bounds rest (S i) a') as [[Hlo _] _].
        replace (fst (read_from (S i) a' rest) - i)
          with (S (fst (read_from (S i) a' rest) - S i)) by lia.
        reflexivity.
Qed.

(** Reading gives back what was embedded, in the order it was embedded. *)
Lemma read_embed data : forall i bs,
  Forall is_byte data ->
  4 * length bs + i mod 4 <= 3 * length data ->
  snd (read_from i (length bs) (embed_from i bs data)) = bs.
Proof.
  induction data as [|x rest IH]; intros i bs Hdata Hcap.
  - destruct bs; [reflexivity|simpl in Hcap; lia].
  - apply Forall_cons in Hdata as [Hx Hrest].
    destruct bs as [|b bs']; [reflexivity|].
    cbn [embed_from]. destruct (isAlpha i) eqn:Ha.
    + cbn [read_from length]. rewrite Ha.
      change (S (length bs')) with (length (b :: bs')).
      apply IH; [exact Hrest|].
      apply isAlpha_spec in Ha. cbn [length] in *.
      pose proof (Nat.mod_upper_bound (S i) 4).
      pose proof (Nat.div_mod_eq i 4). pose proof (Nat.div_mod_eq (S i) 4). lia.
    + cbn [read_from length]. rewrite Ha. cbn [snd].
      rewrite embed_clamped_lsb by exact Hx. f_equal.
      apply IH; [exact Hrest|].
      assert (i mod 4 <> 3) by (rewrite <- isAlpha_spec; congruence).
      cbn [length] in *.
      pose proof (Nat.mod_upper_bound (S i) 4). pose proof (Nat.mod_upper_bound i 4).
      pose proof (Nat.div_mod_eq i 4). pose proof (Nat.div_mod_eq (S i) 4). lia.
Qed.

Section ImageFacts.
Context `{Platform}.

(** What [decodeImage] finds in a buffer the embedding loop has written a
    frame into: the framed text, handed to the decryption step. *)
Lemma decodeImage_embedded data finalMessage password :
  Forall is_byte data -> Forall is_unit finalMessage -> finalMessage <> [] ->
  (N.of_nat (16 * length finalMessage) < 2 ^ 32)%N ->
  4 * length (fullBinary finalMessage) <= 3 * length data ->
  decodeImage (writeImage (fullBinary finalMessage) data) password
  = decryptIfNeeded finalMessage password.
Proof.
  intros Hdata Hmsg Hne Hlen Hcap.
  rewrite writeImage_embed.
  set (fb := fullBinary finalMessage) in *.
  set (data' := embed_from 0 fb data).
  set (hd := be_bits 32 (N.of_nat (16 * length finalMessage))).
  set (body := stringToBinary finalMessage).
  assert (Hfb : fb = hd ++ body) by (apply fullBinary_be; assumption).
  assert (Hbody : length body = 16 * length finalMessage)
    by (apply stringToBinary_length; exact Hmsg).
  assert (Hhd : length hd = 32) by apply be_bits_length.
  assert (Hfull : length fb = 32 + length body)
    by (rewrite Hfb, length_app, Hhd; reflexivity).
  assert (Hlen' : length data' = length data) by apply embed_from_length.
  assert (Hread : snd (read_from 0 (length fb) data') = fb).
  { apply read_embed; [exact Hdata|]. rewrite Nat.Div0.mod_0_l. lia. }
  rewrite Hfull, read_from_split in Hread. cbv zeta in Hread. cbn [snd] in Hread.
  rewrite Nat.sub_0_r in Hread.
  set (j := fst (read_from 0 32 data')) in *.
  pose proof (read_from_bounds data' 0 32) as [[_ Hj] Hl1]. fold j in Hj.
  pose proof (read_from_bounds (drop j data') j (length body)) as [_ Hl2].
  assert (Hsplit : snd (read_from 0 32 data') = hd
                   /\ snd (read_from j (length body) (drop j data')) = body).
  { apply app_inj_1; [|rewrite Hread; exact Hfb].
    apply (f_equal length) in Hread.
    rewrite length_app, Hfull in Hread. lia. }
  destruct Hsplit as [Hh Hb].
  unfold decodeImage. cbv zeta.
  rewrite (readImage_from data' 32 0) by lia.
  rewrite drop_0. change (N.to_nat 32) with 32. cbn [rd_text rd_dataIndex].
  fold j. rewrite Hh.
  assert (Hparse : parseInt2 hd = Some (N.of_nat (16 * length finalMessage))).
  { rewrite parseInt2_value.
    - f_equal. apply bits_value_be_bits. exact Hlen.
    - intros Hnil. rewrite Hnil in Hhd. discriminate. }
  rewrite Hparse.
  assert (Hguard : le0_num (Some (N.of_nat (16 * length finalMessage)))
                   || gt_num (Some (N.of_nat (16 * length finalMessage)))
                             (length data' * 8) = false).
  { apply orb_false_intro; unfold le0_num, gt_num.
    - apply N.eqb_neq. destruct finalMessage; [congruence|]. simpl. lia.
    - apply N.ltb_ge. lia. }
  rewrite Hguard.
  rewrite (readImage_from data' _ j) by lia.
  cbn [rd_text]. rewrite Nat2N.id, <- Hbody, Hb.
  unfold body. rewrite binaryToString_stringToBinary by exact Hmsg.
  reflexivity.
Qed.
End ImageFacts.

Lemma read_from_slots data : forall i n,
  snd (read_from i n data) = take n (slots_from i data).
Proof.
  induction data as [|x rest IH]; intros i n; cbn [read_from slots_from].
  - rewrite take_nil. reflexivity.
  - destruct n as [|n']; [rewrite take_0; reflexivity|].
    destruct (isAlpha i); [apply IH|].
    cbn [snd]. rewrite IH. reflexivity.
Qed.

Lemma encodeImage_plain `{Platform} data message salt iv :
  encodeImage data message None salt iv
  = if exceedsImage (length (fullBinary message)) (length data)
    then (Throw (Error (MSG_CAPACITY_IMAGE (length (fullBinary message))
                                           (3 * length data / 4))), data)
    else (Ok (writeImage (fullBinary message) data),
          writeImage (fullBinary message) data).
Proof. reflexivity. Qed.

Lemma exceedsImage_false fullLength dataLength :
  exceedsImage fullLength dataLength = false <-> 4 * fullLength <= 3 * dataLength.
Proof. unfold exceedsImage. rewrite Nat.ltb_ge. reflexivity. Qed.

Lemma exceedsImage_true fullLength dataLength :
  exceedsImage fullLength dataLength = true <-> 3 * dataLength < 4 * fullLength.
Proof. unfold exceedsImage. rewrite Nat.ltb_lt. reflexivity. Qed.

(** ** The frame format *)

(** Digit [k] of the numeral, counted from the left, is bit [width - 1 - k]
    of the number. *)
Lemma be_bits_testbit w : forall n k,
  k < w -> be_bits w n !! k = Some (N.testbit n (N.of_nat (w - 1 - k))).
Proof.
  induction w as [|w IH]; intros n k Hk; [lia|].
  change (be_bits (S w) n) with (be_bits w (n / 2) ++ [N.odd n]).
  unfold bits in *.
  destruct (decide (k < w)) as [Hlt|Hge].
  - rewrite lookup_app_l by (rewrite be_bits_length; exact Hlt).
    rewrite IH by exact Hlt. f_equal.
    replace (N.of_nat (S w - 1 - k)) with (N.of_nat (w - 1 - k) + 1)%N by lia.
    rewrite <- N.div2_div, N.div2_spec, N.shiftr_spec by apply N.le_0_l.
    reflexivity.
  - assert (k = w) as -> by lia.
    rewrite list_lookup_middle by (rewrite be_bits_length; reflexivity).
    replace (S w - 1 - w) with 0 by lia. rewrite N.bit0_odd. reflexivity.
Qed.

Lemma concat_be_bits_lookup w (str : jsstring) : forall k c j,
  str !! k = Some c -> j < w ->
  concat (map (be_bits w) str) !! (w * k + j) = be_bits w c !! j.
Proof.
  induction str as [|c0 str IH]; intros k c j Hk Hj; [discriminate|].
  cbn [map concat]. destruct k as [|k].
  - injection Hk as ->. rewrite Nat.mul_0_r, Nat.add_0_l.
    apply lookup_app_l. rewrite be_bits_length. exact Hj.
  - cbn in Hk. rewrite lookup_app_r by (rewrite be_bits_length; lia).
    rewrite be_bits_length.
    replace (w * S k + j - w) with (w * k + j) by lia.
    apply IH; assumption.
Qed.

(** C6: the framer writes each character of its input as exactly 16 bits,
    most significant first (bit [16 * k + j] of the body is bit [15 - j] of
    character [k]), concatenates them and puts in front the 32-digit
    big-endian count of the body bits.  The message "hello" gives a frame of
    112 bits, 32 of header (the numeral of 80) and 80 of body; the body
    decodes to "hello", and so does every image that has room for the frame
    once "hello" is encoded into it without a password. *)
Theorem frame_layout (str : jsstring) :
  Forall is_unit str -> (N.of_nat (16 * length str) < 2 ^ 32)%N ->
  stringToBinary str = concat (map (be_bits 16) str)
  /\ (forall k c j, str !! k = Some c -> j < 16 ->
        stringToBinary str !! (16 * k + j)
        = Some (N.testbit c (N.of_nat (15 - j))))
  /\ (forall j, j < 32 ->
        fullBinary str !! j
        = Some (N.testbit (N.of_nat (length (stringToBinary str))) (N.of_nat (31 - j))))
  /\ length (stringToBinary str) = 16 * length str
  /\ fullBinary str
     = be_bits 32 (N.of_nat (length (stringToBinary str))) ++ stringToBinary str
  /\ binaryToString (stringToBinary str) = str
  /\ length (fullBinary (lit "hello")) = 112
  /\ take 32 (fullBinary (lit "hello")) = be_bits 32 80
  /\ binaryToString (drop 32 (fullBinary (lit "hello"))) = lit "hello"
  /\ forall (P : Platform) data salt iv,
       Forall is_byte data -> 4 * 112 <= 3 * length data ->
       exists data',
         encodeImage data (lit "hello") None salt iv = (Ok data', data')
         /\ decodeImage data' None = Ok (lit "hello").
Proof.
  intros Hstr Hlen.
  split; [apply stringToBinary_be; exact Hstr|].
  split.
  { intros k c j Hk Hj. rewrite stringToBinary_be by exact Hstr.
    etransitivity; [exact (concat_be_bits_lookup 16 str k c j Hk Hj)|].
    exact (be_bits_testbit 16 c j Hj). }
  split.
  { intros j Hj. rewrite fullBinary_be by assumption.
    rewrite stringToBinary_length by exact Hstr.
    etransitivity; [|exact (be_bits_testbit 32 _ j Hj)].
    apply lookup_app_l. rewrite be_bits_length. exact Hj. }
  split; [apply stringToBinary_length; exact Hstr|].
  split.
  { rewrite stringToBinary_length by exact Hstr. apply fullBinary_be; assumption. }
  split; [apply binaryToString_stringToBinary; exact Hstr|].
  split; [reflexivity|]. split; [reflexivity|]. split; [reflexivity|].
  intros P data salt iv Hdata Hcap.
  exists (writeImage (fullBinary (lit "hello")) data).
  rewrite encodeImage_plain.
  assert (Hex : exceedsImage (length (fullBinary (lit "hello"))) (length data) = false).
  { apply exceedsImage_false. change (length (fullBinary (lit "hello"))) with 112. lia. }
  rewrite Hex. split; [reflexivity|].
  apply (decodeImage_embedded data (lit "hello") None).
  - exact Hdata.
  - apply (bool_decide_unpack _). vm_compute. reflexivity.
  - discriminate.
  - vm_compute. reflexivity.
  - change (length (fullBinary (lit "hello"))) with 112. lia.
Qed.

Lemma frame_layout_witness :
  stringToBinary (lit "hi") = concat (map (be_bits 16) (lit "hi"))
  /\ length (fullBinary (lit "hello")) = 112.
Proof.
  assert (Hu : Forall is_unit (lit "hi"))
    by (apply (bool_decide_unpack _); vm_compute; exact I).
  assert (Hl : (N.of_nat (16 * length (lit "hi")) < 2 ^ 32)%N)
    by (vm_compute; reflexivity).
  destruct (frame_layout (lit "hi") Hu Hl) as (H1 & _ & _ & _ & _ & _ & H5 & _).
  split; [exact H1|exact H5].
Defined.

(** ** The image write and read operations *)

(** C9: for every image buffer and every frame within capacity, the write
    loop keeps the length of the buffer and the seven upper bits of every
    byte, leaves every 4th byte (alpha) as it was, and the read loop returns
    the least-significant bits of the other bytes in buffer order, which after
    a write are the frame that was written. *)
Theorem image_write_only_lsb (data : list Z) (frame : bits) :
  Forall is_byte data -> 4 * length frame <= 3 * length data ->
  let data' := writeImage frame data in
  length data' = length data
  /\ (forall k x, data !! k = Some x ->
        exists y, data' !! k = Some y
                  /\ Z.shiftr y 1 = Z.shiftr x 1
                  /\ ((k + 1) mod 4 = 0 -> y = x))
  /\ (forall n, rd_text (readImage data' (Some n) 0)
                = take (N.to_nat n) (slots_from 0 data'))
  /\ rd_text (readImage data' (Some (N.of_nat (length frame))) 0) = frame.
Proof.
  intros Hdata Hcap data'. subst data'. rewrite writeImage_embed.
  split; [apply embed_from_length|]. split.
  { intros k x Hk.
    destruct (embed_from_lookup 0 frame data k x Hdata Hk) as (y & Hy & Hup & Ha).
    exists y. split; [exact Hy|]. split; [exact Hup|].
    intros Hmod. apply Ha. unfold isAlpha. cbn [Nat.add]. apply Nat.eqb_eq. exact Hmod. }
  split.
  { intros n. rewrite readImage_from by lia. cbn [rd_text].
    rewrite drop_0. apply read_from_slots. }
  rewrite readImage_from by lia. cbn [rd_text].
  rewrite drop_0, Nat2N.id. apply read_embed; [exact Hdata|].
  rewrite Nat.Div0.mod_0_l. lia.
Qed.

Lemma image_write_only_lsb_witness :
  rd_text (readImage (writeImage [true; false; true] (blank_image 1))
                     (Some (N.of_nat 3)) 0) = [true; false; true].
Proof.
  assert (Hd : Forall is_byte (blank_image 1))
    by (apply (bool_decide_unpack _); vm_compute; exact I).
  assert (Hc : 4 * length [true; false; true] <= 3 * length (blank_image 1))
    by (vm_compute; lia).
  exact (proj2 (proj2 (proj2
           (image_write_only_lsb (blank_image 1) [true; false; true] Hd Hc)))).
Defined.

(** ** The audio chunk walk and loops *)

Section ScanFacts.
Context {A : Type}.
Variable buffer : list Z.
Variable onData : nat -> nat -> A.
Variable onThrow : JsError -> A.
Variable notFound : A.

Lemma scanChunks_outcome fuel offset :
  scanChunks buffer onData onThrow notFound fuel offset
  = match scanChunks buffer FoundData ScanThrew NoData fuel offset with
    | FoundData o c => onData o c
    | ScanThrew e => onThrow e
    | NoData => notFound
    end.
Proof.
  revert offset. induction fuel as [|fuel IH]; intros offset; cbn [scanChunks].
  - reflexivity.
  - destruct (offset <? length buffer); [|reflexivity].
    destruct (c0 ← getUint8 buffer offset;
              c1 ← getUint8 buffer (offset + 1);
              c2 ← getUint8 buffer (offset + 2);
              c3 ← getUint8 buffer (offset + 3);
              chunkSize ← getUint32_le buffer (offset + 4);
              mret ([c0; c1; c2; c3], chunkSize)) as [[chunkId chunkSize]|e];
      [|reflexivity].
    destruct (bool_decide (chunkId = chunkId_data)); [reflexivity|apply IH].
Qed.

(** The walk never stops for lack of fuel: every turn moves the offset
    forward, so more fuel than the buffer is long changes nothing. *)
Lemma scanChunks_fuel fuel offset :
  length buffer <= offset + fuel ->
  scanChunks buffer onData onThrow notFound (S fuel) offset
  = scanChunks buffer onData onThrow notFound fuel offset.
Proof.
  revert offset. induction fuel as [|fuel IH]; intros offset Hfuel.
  - cbn [scanChunks].
    destruct (offset <? length buffer) eqn:Hlt; [|reflexivity].
    apply Nat.ltb_lt in Hlt. lia.
  - change (scanChunks buffer onData onThrow notFound (S (S fuel)) offset)
      with (if offset <? length buffer then
              match (c0 ← getUint8 buffer offset;
                     c1 ← getUint8 buffer (offset + 1);
                     c2 ← getUint8 buffer (offset + 2);
                     c3 ← getUint8 buffer (offset + 3);
                     chunkSize ← getUint32_le buffer (offset + 4);
                     mret ([c0; c1; c2; c3], chunkSize)) with
              | Throw e => onThrow e
              | Ok (chunkId, chunkSize) =>
                  if bool_decide (chunkId = chunkId_data)
                  then onData (offset + 8) chunkSize
                  else scanChunks buffer onData onThrow notFound (S fuel)
                                  (offset + 8 + chunkSize)
              end
            else notFound).
    cbn [scanChunks].
    destruct (offset <? length buffer); [|reflexivity].
    destruct (c0 ← getUint8 buffer offset;
              c1 ← getUint8 buffer (offset + 1);
              c2 ← getUint8 buffer (offset + 2);
              c3 ← getUint8 buffer (offset + 3);
              chunkSize ← getUint32_le buffer (offset + 4);
              mret ([c0; c1; c2; c3], chunkSize)) as [[chunkId chunkSize]|e];
      [|reflexivity].
    destruct (bool_decide (chunkId = chunkId_data)); [reflexivity|].
    apply IH. lia.
Qed.
End ScanFacts.

Lemma getUint8_agree (b1 b2 : list Z) i :
  b1 !! i = b2 !! i -> getUint8 b1 i = getUint8 b2 i.
Proof. intros Heq. unfold getUint8. rewrite Heq. reflexivity. Qed.

Lemma getUint8_Ok buffer i x : getUint8 buffer i = Ok x -> i < length buffer.
Proof.
  unfold getUint8. destruct (buffer !! i) eqn:Hi; [|discriminate].
  intros _. eapply lookup_lt_Some. exact Hi.
Qed.

(** The walk only looks at the bytes before the samples it finds. *)
Lemma scanChunks_agree (b1 b2 : list Z) fuel : forall offset o c,
  length b1 = length b2 ->
  scanChunks b1 FoundData ScanThrew NoData fuel offset = FoundData o c ->
  (forall i, i < o -> b2 !! i = b1 !! i) ->
  scanChunks b2 FoundData ScanThrew NoData fuel offset = FoundData o c
  /\ offset + 8 <= o.
Proof.
  induction fuel as [|fuel IH]; intros offset o c Hlen Hscan Hagree;
    cbn [scanChunks] in *; [discriminate|].
  rewrite <- Hlen. destruct (offset <? length b1); [|discriminate].
  destruct (getUint8 b1 offset) as [c0|] eqn:H0; [|discriminate].
  destruct (getUint8 b1 (offset + 1)) as [c1|] eqn:H1; [|discriminate].
  destruct (getUint8 b1 (offset + 2)) as [c2|] eqn:H2; [|discriminate].
  destruct (getUint8 b1 (offset + 3)) as [c3|] eqn:H3; [|discriminate].
  unfold getUint32_le in *.
  destruct (getUint8 b1 (offset + 4)) as [s0|] eqn:H4; [|discriminate].
  destruct (getUint8 b1 (offset + 4 + 1)) as [s1|] eqn:H5; [|discriminate].
  destruct (getUint8 b1 (offset + 4 + 2)) as [s2|] eqn:H6; [|discriminate].
  destruct (getUint8 b1 (offset + 4 + 3)) as [s3|] eqn:H7; [|discriminate].
  cbn [mbind Result_bind mret Result_ret] in Hscan.
  assert (Hge : offset + 8 <= o).
  { destruct (bool_decide ([c0; c1; c2; c3] = chunkId_data)).
    - injection Hscan as <- _. lia.
    - destruct (IH _ _ _ Hlen Hscan Hagree) as [_ Hle]. lia. }
  rewrite (getUint8_agree b2 b1 offset), H0 by (apply Hagree; lia).
  rewrite (getUint8_agree b2 b1 (offset + 1)), H1 by (apply Hagree; lia).
  rewrite (getUint8_agree b2 b1 (offset + 2)), H2 by (apply Hagree; lia).
  rewrite (getUint8_agree b2 b1 (offset + 3)), H3 by (apply Hagree; lia).
  rewrite (getUint8_agree b2 b1 (offset + 4)), H4 by (apply Hagree; lia).
  rewrite (getUint8_agree b2 b1 (offset + 4 + 1)), H5 by (apply Hagree; lia).
  rewrite (getUint8_agree b2 b1 (offset + 4 + 2)), H6 by (apply Hagree; lia).
  rewrite (getUint8_agree b2 b1 (offset + 4 + 3)), H7 by (apply Hagree; lia).
  cbn [mbind Result_bind mret Result_ret].
  split; [|exact Hge].
  destruct (bool_decide ([c0; c1; c2; c3] = chunkId_data)); [exact Hscan|].
  apply (IH _ _ _ Hlen Hscan Hagree).
Qed.

Lemma locateData_agree (b1 b2 : list Z) o c :
  length b1 = length b2 -> locateData b1 = FoundData o c ->
  (forall i, i < o -> b2 !! i = b1 !! i) ->
  locateData b2 = FoundData o c.
Proof.
  intros Hlen Hloc Hagree. unfold locateData in *. rewrite <- Hlen.
  apply (scanChunks_agree b1 b2 _ _ _ _ Hlen Hloc Hagree).
Qed.

Lemma writeAudio_fold fullBinary offset chunkSize buffer :
  writeAudio fullBinary offset chunkSize buffer
  = fold_left (audio_step fullBinary offset chunkSize)
              (seq 0 (length fullBinary)) buffer.
Proof. reflexivity. Qed.

(** The first [n] turns of the embedding loop of [encodeAudio]. *)
Lemma audio_steps fullBinary offset chunkSize buffer n :
  n <= length fullBinary -> length fullBinary <= chunkSize ->
  offset + chunkSize <= length buffer ->
  let buf := fold_left (audio_step fullBinary offset chunkSize) (seq 0 n) buffer in
  length buf = length buffer
  /\ (forall i b x, i < n -> fullBinary !! i = Some b ->
        buffer !! (offset + i) = Some x ->
        buf !! (offset + i) = Some (embed_wrapped x b))
  /\ (forall j, j < offset \/ offset + n <= j -> buf !! j = buffer !! j).
Proof.
  intros Hn Hchunk Hfit. induction n as [|n IH]; cbv zeta.
  - cbn [seq fold_left]. split; [reflexivity|]. split; [intros; lia|reflexivity].
  - rewrite seq_S, fold_left_app. cbn [fold_left Nat.add].
    destruct IH as (Hlen & Hin & Hout); [lia|].
    set (buf := fold_left (audio_step fullBinary offset chunkSize) (seq 0 n) buffer) in *.
    destruct (lookup_lt_is_Some_2 fullBinary n) as [bn Hbn]; [lia|].
    destruct (lookup_lt_is_Some_2 buffer (offset + n)) as [xn Hxn]; [lia|].
    assert (Hstep : audio_step fullBinary offset chunkSize buf n
                    = <[offset + n := embed_wrapped xn bn]> buf).
    { unfold audio_step, samples_set, samples_get, elem.
      assert (Hlt : (n <? chunkSize) = true) by (apply Nat.ltb_lt; lia).
      rewrite Hlt, (Hout (offset + n)) by lia.
      rewrite Hxn, (bit_at_lookup _ _ _ Hbn). reflexivity. }
    rewrite Hstep. split; [rewrite length_insert; exact Hlen|]. split.
    + intros i b x Hi Hb Hx. destruct (decide (i = n)) as [->|Hne].
      * rewrite list_lookup_insert_eq by lia. congruence.
      * rewrite list_lookup_insert_ne by lia. apply Hin; [lia|assumption..].
    + intros j Hj. rewrite list_lookup_insert_ne by lia. apply Hout. lia.
Qed.

Lemma writeAudio_spec fullBinary offset chunkSize buffer :
  length fullBinary <= chunkSize -> offset + chunkSize <= length buffer ->
  let buf := writeAudio fullBinary offset chunkSize buffer in
  length buf = length buffer
  /\ (forall i b x, fullBinary !! i = Some b ->
        buffer !! (offset + i) = Some x ->
        buf !! (offset + i) = Some (embed_wrapped x b))
  /\ (forall j, j < offset \/ offset + length fullBinary <= j ->
                buf !! j = buffer !! j).
Proof.
  intros Hchunk Hfit. cbv zeta. rewrite writeAudio_fold.
  destruct (audio_steps fullBinary offset chunkSize buffer (length fullBinary))
    as (Hlen & Hin & Hout); [lia..|].
  split; [exact Hlen|]. split; [|exact Hout].
  intros i b x Hb Hx. apply Hin; [|assumption..].
  eapply lookup_lt_Some. exact Hb.
Qed.

(** Reading the samples of a written buffer gives the frame back. *)
Lemma readAudio_written fullBinary offset chunkSize buffer from count :
  Forall is_byte buffer ->
  length fullBinary <= chunkSize -> offset + chunkSize <= length buffer ->
  from + count <= length fullBinary ->
  readAudio (writeAudio fullBinary offset chunkSize buffer) offset chunkSize from count
  = take count (drop from fullBinary).
Proof.
  intros Hbytes Hchunk Hfit Hrange.
  destruct (writeAudio_spec fullBinary offset chunkSize buffer Hchunk Hfit)
    as (Hlen & Hin & _).
  unfold readAudio. apply list_eq. intros k.
  rewrite list_lookup_fmap. destruct (decide (k < count)) as [Hk|Hk].
  - rewrite lookup_seq_lt by exact Hk. cbn [fmap option_fmap option_map].
    rewrite lookup_take_lt, lookup_drop by exact Hk.
    destruct (lookup_lt_is_Some_2 fullBinary (from + k)) as [b Hb]; [lia|].
    destruct (lookup_lt_is_Some_2 buffer (offset + (from + k))) as [x Hx]; [lia|].
    rewrite Hb. f_equal. unfold samples_get, elem.
    assert (Hlt : (from + k <? chunkSize) = true) by (apply Nat.ltb_lt; lia).
    rewrite Hlt, (Hin _ _ _ Hb Hx). cbn [from_option id].
    apply embed_wrapped_lsb.
    eapply Forall_lookup_1; [exact Hbytes|exact Hx].
  - rewrite lookup_seq_ge by lia. cbn [fmap option_fmap option_map].
    symmetry. apply lookup_ge_None. rewrite length_take, length_drop. lia.
Qed.

Section AudioFacts.
Context `{Platform}.

Lemma encodeAudio_found arrayBuffer message password salt iv offset chunkSize :
  locateData arrayBuffer = FoundData offset chunkSize ->
  view_fits arrayBuffer offset chunkSize = true ->
  encodeAudio arrayBuffer message password salt iv
  = match finalMessageOf message password salt iv with
    | Throw e => (Throw e, arrayBuffer)
    | Ok finalMessage =>
        if chunkSize <? length (fullBinary finalMessage) then
          (Throw (Error MSG_CAPACITY_AUDIO), arrayBuffer)
        else
          (Ok (writeAudio (fullBinary finalMessage) offset chunkSize arrayBuffer),
           writeAudio (fullBinary finalMessage) offset chunkSize arrayBuffer)
    end.
Proof.
  intros Hloc Hfit. unfold encodeAudio. rewrite scanChunks_outcome.
  unfold locateData in Hloc. rewrite Hloc, Hfit. reflexivity.
Qed.

Lemma decodeAudio_found arrayBuffer password offset chunkSize :
  locateData arrayBuffer = FoundData offset chunkSize ->
  view_fits arrayBuffer offset chunkSize = true ->
  decodeAudio arrayBuffer password
  = let lengthBin := readAudio arrayBuffer offset chunkSize 0 32 in
    let msgLength := parseInt2 lengthBin in
    if le0_num msgLength || gt_num msgLength chunkSize then
      Throw (Error MSG_NO_HIDDEN_AUDIO)
    else
      decryptIfNeeded
        (binaryToString (readAudio arrayBuffer offset chunkSize 32
                                   (N.to_nat (default 0%N msgLength))))
        password.
Proof.
  intros Hloc Hfit. unfold decodeAudio. rewrite scanChunks_outcome.
  unfold locateData in Hloc. rewrite Hloc, Hfit. reflexivity.
Qed.

(** What [decodeAudio] finds in a file whose samples the embedding loop has
    written a frame into. *)
Lemma decodeAudio_written arrayBuffer finalMessage password offset chunkSize :
  Forall is_byte arrayBuffer -> Forall is_unit finalMessage -> finalMessage <> [] ->
  (N.of_nat (16 * length finalMessage) < 2 ^ 32)%N ->
  locateData arrayBuffer = FoundData offset chunkSize ->
  view_fits arrayBuffer offset chunkSize = true ->
  length (fullBinary finalMessage) <= chunkSize ->
  decodeAudio (writeAudio (fullBinary finalMessage) offset chunkSize arrayBuffer)
              password
  = decryptIfNeeded finalMessage password.
Proof.
  intros Hbytes Hmsg Hne Hlen Hloc Hfit Hcap.
  apply Nat.leb_le in Hfit as Hfit'.
  set (fb := fullBinary finalMessage) in *.
  destruct (writeAudio_spec fb offset chunkSize arrayBuffer Hcap Hfit')
    as (Hlen' & _ & Hout).
  set (buf := writeAudio fb offset chunkSize arrayBuffer) in *.
  assert (Hloc' : locateData buf = FoundData offset chunkSize).
  { apply (locateData_agree arrayBuffer buf); [symmetry; exact Hlen'|exact Hloc|].
    intros i Hi. apply Hout. lia. }
  rewrite (decodeAudio_found buf password offset chunkSize Hloc')
    by (unfold view_fits; rewrite Hlen'; exact Hfit).
  cbv zeta.
  set (hd := be_bits 32 (N.of_nat (16 * length finalMessage))).
  set (body := stringToBinary finalMessage).
  assert (Hfb : fb = hd ++ body) by (apply fullBinary_be; assumption).
  assert (Hbody : length body = 16 * length finalMessage)
    by (apply stringToBinary_length; exact Hmsg).
  assert (Hhd : length hd = 32) by apply be_bits_length.
  assert (Hfull : length fb = 32 + length body)
    by (rewrite Hfb, length_app, Hhd; reflexivity).
  unfold buf.
  rewrite (readAudio_written fb offset chunkSize arrayBuffer 0 32) by (assumption || lia).
  rewrite drop_0, Hfb, <- Hhd, take_app_length.
  assert (Hparse : parseInt2 hd = Some (N.of_nat (16 * length finalMessage))).
  { rewrite parseInt2_value.
    - f_equal. apply bits_value_be_bits. exact Hlen.
    - intros Hnil. rewrite Hnil in Hhd. discriminate. }
  rewrite Hparse.
  assert (Hguard : le0_num (Some (N.of_nat (16 * length finalMessage)))
                   || gt_num (Some (N.of_nat (16 * length finalMessage)))
                             chunkSize = false).
  { apply orb_false_intro; unfold le0_num, gt_num.
    - apply N.eqb_neq. destruct finalMessage; [congruence|]. simpl. lia.
    - apply N.ltb_ge. lia. }
  rewrite Hguard. cbn [from_option id]. rewrite Nat2N.id, <- Hbody, <- Hfb.
  rewrite (readAudio_written fb offset chunkSize arrayBuffer) by (assumption || lia).
  rewrite Hfb, Hhd, <- Hhd, drop_app_length, firstn_all.
  unfold body. rewrite binaryToString_stringToBinary by exact Hmsg.
  reflexivity.
Qed.
End AudioFacts.

(** ** The capacity check *)

Section Capacity.
Context `{Platform}.

Lemma encodeImage_final data message password salt iv finalMessage :
  finalMessageOf message password salt iv = Ok finalMessage ->
  encodeImage data message password salt iv
  = if exceedsImage (length (fullBinary finalMessage)) (length data)
    then (Throw (Error (MSG_CAPACITY_IMAGE (length (fullBinary finalMessage))
                                           (3 * length data / 4))), data)
    else (Ok (writeImage (fullBinary finalMessage) data),
          writeImage (fullBinary finalMessage) data).
Proof. intros Hfinal. unfold encodeImage. rewrite Hfinal. reflexivity. Qed.
End Capacity.

(** ** Base64 of the host *)

Lemma list_ind3 {A} (P : list A -> Prop) :
  P [] -> (forall a, P [a]) -> (forall a b, P [a; b]) ->
  (forall a b c l, P l -> P (a :: b :: c :: l)) ->
  forall l, P l.
Proof.
  intros H0 H1 H2 H3.
  fix IH 1. intros [|a [|b [|c l]]]; [exact H0|apply H1|apply H2|].
  apply H3, IH.
Qed.

Lemma quot_rem (k r m : N) :
  (r < m)%N -> ((k * m + r) / m = k /\ (k * m + r) mod m = r)%N.
Proof.
  intros Hr. split.
  - symmetry. apply N.div_unique with (r := r); lia.
  - symmetry. apply N.mod_unique with (q := k); lia.
Qed.

Lemma unsextets_sextets bytes :
  Forall is_latin1 bytes -> unsextets (sextets bytes) = bytes.
Proof.
  induction bytes as [|a|a b|a b c rest IH] using list_ind3; intros Hall.
  - reflexivity.
  - cbn [sextets unsextets]. f_equal.
    destruct (quot_rem (a mod 4) 0 16) as [Hq _]; [lia|].
    rewrite N.add_0_r in Hq. rewrite Hq.
    pose proof (N.div_mod' a 4). lia.
  - apply Forall_cons in Hall as [Ha Hall]. apply Forall_cons in Hall as [Hb _].
    unfold is_latin1 in *. cbn [sextets unsextets].
    assert (b / 16 < 16)%N by (apply N.Div0.div_lt_upper_bound; lia).
    destruct (quot_rem (a mod 4) (b / 16) 16) as [-> ->]; [assumption|].
    destruct (quot_rem (b mod 16) 0 4) as [Hq _]; [lia|].
    rewrite N.add_0_r in Hq. rewrite Hq.
    pose proof (N.div_mod' a 4). pose proof (N.div_mod' b 16).
    f_equal; [lia|]. f_equal. lia.
  - apply Forall_cons in Hall as [Ha Hall]. apply Forall_cons in Hall as [Hb Hall].
    apply Forall_cons in Hall as [Hc Hrest].
    unfold is_latin1 in *. cbn [sextets unsextets app].
    assert (b / 16 < 16)%N by (apply N.Div0.div_lt_upper_bound; lia).
    assert (c / 64 < 4)%N by (apply N.Div0.div_lt_upper_bound; lia).
    destruct (quot_rem (a mod 4) (b / 16) 16) as [-> ->]; [assumption|].
    destruct (quot_rem (b mod 16) (c / 64) 4) as [-> ->]; [assumption|].
    pose proof (N.div_mod' a 4). pose proof (N.div_mod' b 16).
    pose proof (N.div_mod' c 64).
    rewrite IH by exact Hrest.
    f_equal; [lia|]. f_equal; [lia|]. f_equal. lia.
Qed.

Lemma sextets_range bytes : Forall is_latin1 bytes -> Forall is_sextet (sextets bytes).
Proof.
  induction bytes as [|a|a b|a b c rest IH] using list_ind3; intros Hall.
  - constructor.
  - apply Forall_cons in Hall as [Ha _]. unfold is_latin1, is_sextet in *.
    cbn [sextets].
    assert (a / 4 < 64)%N by (apply N.Div0.div_lt_upper_bound; lia).
    pose proof (N.mod_upper_bound a 4).
    repeat constructor; lia.
  - apply Forall_cons in Hall as [Ha Hall]. apply Forall_cons in Hall as [Hb _].
    unfold is_latin1, is_sextet in *. cbn [sextets].
    assert (a / 4 < 64)%N by (apply N.Div0.div_lt_upper_bound; lia).
    assert (b / 16 < 16)%N by (apply N.Div0.div_lt_upper_bound; lia).
    pose proof (N.mod_upper_bound a 4). pose proof (N.mod_upper_bound b 16).
    repeat constructor; lia.
  - apply Forall_cons in Hall as [Ha Hall]. apply Forall_cons in Hall as [Hb Hall].
    apply Forall_cons in Hall as [Hc Hrest].
    unfold is_latin1, is_sextet in *. cbn [sextets app].
    assert (a / 4 < 64)%N by (apply N.Div0.div_lt_upper_bound; lia).
    assert (b / 16 < 16)%N by (apply N.Div0.div_lt_upper_bound; lia).
    assert (c / 64 < 4)%N by (apply N.Div0.div_lt_upper_bound; lia).
    pose proof (N.mod_upper_bound a 4). pose proof (N.mod_upper_bound b 16).
    pose proof (N.mod_upper_bound c 64).
    repeat (constructor; [lia|]). apply IH. exact Hrest.
Qed.

(** Length of the groups: 4 for each 3 bytes, 2 or 3 for what is left. *)
Lemma sextets_length bytes :
  exists q, (length bytes = 3 * q /\ length (sextets bytes) = 4 * q)
            \/ (length bytes = 3 * q + 1 /\ length (sextets bytes) = 4 * q + 2)
            \/ (length bytes = 3 * q + 2 /\ length (sextets bytes) = 4 * q + 3).
Proof.
  induction bytes as [|a|a b|a b c rest IH] using list_ind3.
  - exists 0. left. split; reflexivity.
  - exists 0. right. left. split; reflexivity.
  - exists 0. right. right. split; reflexivity.
  - destruct IH as [q IH]. exists (S q). cbn [sextets length app].
    destruct IH as [[? ?]|[[? ?]|[? ?]]]; [left|right; left|right; right]; lia.
Qed.

Lemma sextet_facts_hold v : is_sextet v -> sextet_facts v = true.
Proof.
  intros Hv.
  assert (Hall : forallb sextet_facts (map N.of_nat (seq 0 64)) = true)
    by (vm_compute; reflexivity).
  rewrite forallb_forall in Hall. apply Hall.
  apply in_map_iff. exists (N.to_nat v). split; [lia|].
  apply in_seq. unfold is_sextet in Hv. lia.
Qed.

Lemma b64_char_facts v :
  is_sextet v ->
  b64_value (b64_char v) = Some v
  /\ is_ascii_whitespace (b64_char v) = false
  /\ b64_char v <> equals_sign
  /\ (b64_char v < 128)%N.
Proof.
  intros Hv. pose proof (sextet_facts_hold v Hv) as Hf. unfold sextet_facts in Hf.
  apply andb_prop in Hf as [Hf H4]. apply andb_prop in Hf as [Hf H3].
  apply andb_prop in Hf as [H1 H2].
  split; [apply bool_decide_eq_true in H1; exact H1|].
  split; [apply negb_true_iff; exact H2|].
  split; [apply N.eqb_neq, negb_true_iff; exact H3|].
  apply N.ltb_lt. exact H4.
Qed.

Lemma mapM_b64_value values :
  Forall is_sextet values -> mapM b64_value (map b64_char values) = Some values.
Proof.
  induction 1 as [|v values Hv _ IH]; [reflexivity|].
  cbn [map mapM]. destruct (b64_char_facts v Hv) as (-> & _).
  cbn. rewrite IH. reflexivity.
Qed.

Lemma filter_whitespace_chars values :
  Forall is_sextet values ->
  filter (fun c => is_ascii_whitespace c = false) (map b64_char values)
  = map b64_char values.
Proof.
  induction 1 as [|v values Hv _ IH]; [reflexivity|].
  cbn [map]. destruct (b64_char_facts v Hv) as (_ & Hw & _).
  rewrite filter_cons_True by exact Hw. rewrite IH. reflexivity.
Qed.

Lemma last_chars_not_equals values :
  Forall is_sextet values -> ends_with_equals (map b64_char values) = false.
Proof.
  intros Hall. unfold ends_with_equals. apply bool_decide_eq_false.
  destruct values as [|v values _] using rev_ind; [discriminate|].
  rewrite map_app. cbn [map]. rewrite last_snoc. intros Heq.
  apply Forall_app in Hall as [_ Hv]. apply Forall_cons in Hv as [Hv _].
  destruct (b64_char_facts v Hv) as (_ & _ & Hne & _). congruence.
Qed.

Lemma ends_with_equals_snoc l : ends_with_equals (l ++ [equals_sign]) = true.
Proof. unfold ends_with_equals. rewrite last_snoc. apply bool_decide_eq_true. reflexivity. Qed.

(** Padding is removed again, whatever the number of [=] appended. *)
Lemma strip_padding_encoded values k :
  Forall is_sextet values -> k <= 2 ->
  (length values + k) mod 4 = 0 ->
  strip_padding (map b64_char values ++ replicate k equals_sign)
  = map b64_char values.
Proof.
  intros Hall Hk Hmod. unfold strip_padding.
  rewrite length_app, length_map, length_replicate, Hmod. cbn [Nat.eqb].
  destruct k as [|[|[|k]]]; [| | |lia].
  - cbn [replicate]. rewrite app_nil_r, last_chars_not_equals by exact Hall.
    reflexivity.
  - cbn [replicate]. rewrite ends_with_equals_snoc. cbv zeta.
    rewrite removelast_last, last_chars_not_equals by exact Hall. reflexivity.
  - cbn [replicate].
    change (map b64_char values ++ [equals_sign; equals_sign])
      with (map b64_char values ++ [equals_sign] ++ [equals_sign]).
    rewrite app_assoc, ends_with_equals_snoc. cbv zeta.
    rewrite removelast_last, ends_with_equals_snoc, removelast_last. reflexivity.
Qed.

Lemma filter_whitespace_encoded values k :
  Forall is_sextet values ->
  filter (fun c => is_ascii_whitespace c = false)
         (map b64_char values ++ replicate k equals_sign)
  = map b64_char values ++ replicate k equals_sign.
Proof.
  intros Hall. rewrite filter_app, filter_whitespace_chars by exact Hall. f_equal.
  induction k as [|k IH]; [reflexivity|].
  cbn [replicate]. rewrite filter_cons_True by reflexivity. rewrite IH. reflexivity.
Qed.

Lemma btoa_latin1 s :
  Forall is_latin1 s ->
  btoa s = Ok (map b64_char (sextets s)
               ++ replicate ((3 - length s mod 3) mod 3) equals_sign).
Proof.
  intros Hs. unfold btoa.
  assert (Hall : forallb (fun c => (c <=? 255)%N) s = true).
  { apply forallb_forall. intros c Hc. apply N.leb_le.
    rewrite Forall_forall in Hs. apply Hs. apply list_elem_of_In. exact Hc. }
  rewrite Hall. reflexivity.
Qed.

(** [atob] undoes [btoa]. *)
Lemma atob_btoa s encoded : btoa s = Ok encoded -> atob encoded = Ok s.
Proof.
  intros Hb.
  assert (Hs : Forall is_latin1 s).
  { unfold btoa in Hb. destruct (forallb _ s) eqn:Hall; [|discriminate].
    rewrite forallb_forall in Hall. apply Forall_forall. intros c Hc.
    apply N.leb_le, Hall, list_elem_of_In. exact Hc. }
  rewrite btoa_latin1 in Hb by exact Hs. injection Hb as <-.
  pose proof (sextets_range s Hs) as Hrange.
  set (k := (3 - length s mod 3) mod 3).
  assert (Hk : k <= 2 /\ (length (sextets s) + k) mod 4 = 0
               /\ length (sextets s) mod 4 <> 1).
  { destruct (sextets_length s) as [q Hq]. subst k.
    pose proof (Nat.div_mod_eq (length s) 3).
    pose proof (Nat.mod_upper_bound (length s) 3).
    pose proof (Nat.div_mod_eq (3 - length s mod 3) 3).
    pose proof (Nat.mod_upper_bound (3 - length s mod 3) 3).
    pose proof (Nat.div_mod_eq (length (sextets s) + (3 - length s mod 3) mod 3) 4).
    pose proof (Nat.mod_upper_bound (length (sextets s) + (3 - length s mod 3) mod 3) 4).
    pose proof (Nat.div_mod_eq (length (sextets s)) 4).
    pose proof (Nat.mod_upper_bound (length (sextets s)) 4).
    destruct Hq as [[? ?]|[[? ?]|[? ?]]]; lia. }
  destruct Hk as (Hk & Hmod & Hne).
  unfold atob. cbv zeta.
  rewrite filter_whitespace_encoded by exact Hrange.
  rewrite strip_padding_encoded by assumption.
  rewrite length_map.
  destruct (length (sextets s) mod 4 =? 1) eqn:H1;
    [apply Nat.eqb_eq in H1; contradiction|].
  rewrite mapM_b64_value by exact Hrange.
  rewrite unsextets_sextets by exact Hs. reflexivity.
Qed.

(** ** The envelope text is ASCII *)

Ltac by_evaluation := apply (bool_decide_unpack _); vm_compute; exact I.

Lemma uint_ascii d : Forall is_ascii (lit (NilEmpty.string_of_uint d)).
Proof.
  induction d; cbn [NilEmpty.string_of_uint]; try constructor;
    (try exact IHd); unfold is_ascii; cbn; lia.
Qed.

Lemma decimal_ascii n : Forall is_ascii (decimal n).
Proof.
  unfold decimal, NilZero.string_of_int, NilZero.string_of_uint.
  destruct (Z.to_int n) as [d|d].
  - destruct d; try apply uint_ascii. by_evaluation.
  - change (lit (String "-" ?s)) with (45%N :: lit s).
    constructor; [unfold is_ascii; lia|].
    destruct d; try apply uint_ascii. by_evaluation.
Qed.

Lemma join_comma_ascii parts :
  Forall (Forall is_ascii) parts -> Forall is_ascii (join_comma parts).
Proof.
  induction 1 as [|p parts Hp Hparts IH]; [constructor|].
  cbn [join_comma]. destruct parts as [|q parts]; [exact Hp|].
  apply Forall_app. split; [exact Hp|].
  apply Forall_app. split; [|exact IH].
  by_evaluation.
Qed.

Lemma stringify_numbers_ascii l : Forall is_ascii (stringify_numbers l).
Proof.
  unfold stringify_numbers. apply Forall_app. split; [by_evaluation|].
  apply Forall_app. split; [|by_evaluation].
  apply join_comma_ascii. apply Forall_fmap, Forall_forall.
  intros n _. apply decimal_ascii.
Qed.

Lemma stringify_bundle_ascii s iv d : Forall is_ascii (stringify_bundle s iv d).
Proof.
  unfold stringify_bundle.
  rewrite !Forall_app.
  repeat split; first [apply stringify_numbers_ascii | by_evaluation].
Qed.

Lemma ascii_latin1 s : Forall is_ascii s -> Forall is_latin1 s.
Proof. intros Hs. eapply Forall_impl; [exact Hs|]. unfold is_ascii, is_latin1. intros c Hc. lia. Qed.

Lemma ascii_unit s : Forall is_ascii s -> Forall is_unit s.
Proof. intros Hs. eapply Forall_impl; [exact Hs|]. unfold is_ascii, is_unit. intros c Hc. lia. Qed.

Lemma latin1_unit s : Forall is_latin1 s -> Forall is_unit s.
Proof. intros Hs. eapply Forall_impl; [exact Hs|]. unfold is_latin1, is_unit. intros c Hc. lia. Qed.

(** ** The encryption service *)

Section EncryptionFacts.
Context `{Platform}.

Lemma encryptMessage_Ok message password salt iv envelope :
  encryptMessage message password salt iv = Ok envelope ->
  exists passwordKey aesKey encryptedContent,
    subtle_importKey (TextEncoder_encode password) = Ok passwordKey
    /\ subtle_deriveKey passwordKey salt ITERATIONS UsageEncrypt = Ok aesKey
    /\ subtle_encrypt aesKey iv (TextEncoder_encode message) = Ok encryptedContent
    /\ envelope = stringify_bundle salt iv encryptedContent.
Proof.
  unfold encryptMessage, getPasswordKey, deriveKey.
  destruct (subtle_importKey (TextEncoder_encode password)) as [pk|] eqn:Hpk;
    [|discriminate].
  cbn [mbind Result_bind].
  destruct (subtle_deriveKey pk salt ITERATIONS UsageEncrypt) as [k|] eqn:Hk;
    [|discriminate].
  cbn [mbind Result_bind].
  destruct (subtle_encrypt k iv (TextEncoder_encode message)) as [ct|] eqn:Hct;
    [|discriminate].
  cbn [mbind Result_bind mret Result_ret try_catch].
  intros [= <-]. exists pk, k, ct. auto.
Qed.

Lemma encryptMessage_Throw message password salt iv e :
  encryptMessage message password salt iv = Throw e -> e = Error MSG_ENCRYPT_FAILED.
Proof.
  unfold encryptMessage, try_catch.
  destruct (_ ≫= _) as [env|e']; [discriminate|]. intros [= <-]. reflexivity.
Qed.

Lemma encryptMessage_ascii message password salt iv envelope :
  encryptMessage message password salt iv = Ok envelope -> Forall is_ascii envelope.
Proof.
  intros Henc. apply encryptMessage_Ok in Henc as (pk & k & ct & _ & _ & _ & ->).
  apply stringify_bundle_ascii.
Qed.


Lemma decryptMessage_integrity encryptedJson password e :
  decryptMessage_try encryptedJson password = Throw e ->
  err_name e = "OperationError" ->
  decryptMessage encryptedJson password = Throw (Error MSG_INTEGRITY).
Proof.
  intros Htry Hname. unfold decryptMessage. rewrite Htry. cbn [try_catch].
  rewrite bool_decide_eq_true_2 by exact Hname. reflexivity.
Qed.

Lemma decryptMessage_generic encryptedJson password e :
  decryptMessage_try encryptedJson password = Throw e ->
  err_name e <> "OperationError" ->
  decryptMessage encryptedJson password = Throw (Error MSG_DECRYPT_FAILED).
Proof.
  intros Htry Hname. unfold decryptMessage. rewrite Htry. cbn [try_catch].
  rewrite bool_decide_eq_false_2 by exact Hname. reflexivity.
Qed.

Lemma tag_rejected_try encryptedJson password :
  tag_rejected encryptedJson password ->
  exists e, decryptMessage_try encryptedJson password = Throw e
            /\ err_name e = "OperationError".
Proof.
  intros (bundle & bs & biv & bd & salt & iv & data & pk & k & e &
          Hparse & Hs & Hiv & Hd & Ts & Tiv & Td & Us & Uiv & Ud & Hpk & Hk & Hdec & Hname).
  exists e. split; [|exact Hname].
  unfold decryptMessage_try. rewrite Hparse. cbn [try_catch mbind Result_bind].
  rewrite Hs. cbn [mbind Result_bind]. rewrite Hiv. cbn [mbind Result_bind].
  rewrite Hd. cbn [mbind Result_bind]. rewrite Ts, Tiv, Td. cbn [negb orb].
  rewrite Us. cbn [mbind Result_bind]. rewrite Uiv. cbn [mbind Result_bind].
  rewrite Ud. cbn [mbind Result_bind]. rewrite Hpk. cbn [mbind Result_bind].
  rewrite Hk. cbn [mbind Result_bind]. rewrite Hdec. reflexivity.
Qed.

(** Decrypting what was just encrypted, on a host that inverts itself. *)
Lemma decrypt_encrypt message password salt iv envelope :
  encryptMessage message password salt iv = Ok envelope ->
  platform_inverts message password salt iv ->
  decryptMessage envelope password = Ok message.
Proof.
  intros Henc Hinv.
  apply encryptMessage_Ok in Henc as (pk & k & ct & Hpk & Hk & Hct & ->).
  destruct (Hinv pk k ct Hpk Hk Hct)
    as (Hparse & Us & Uiv & Ud & (k' & Hk' & Hdec) & Htext).
  unfold decryptMessage, decryptMessage_try.
  rewrite Hparse. cbn [try_catch mbind Result_bind].
  change (get_prop (bundle_value salt iv ct) (lit "s")) with (Ok (JArr (map JNum salt))).
  change (get_prop (bundle_value salt iv ct) (lit "iv")) with (Ok (JArr (map JNum iv))).
  change (get_prop (bundle_value salt iv ct) (lit "d")) with (Ok (JArr (map JNum ct))).
  cbn [mbind Result_bind truthy negb orb].
  rewrite Us. cbn [mbind Result_bind]. rewrite Uiv. cbn [mbind Result_bind].
  rewrite Ud. cbn [mbind Result_bind].
  unfold getPasswordKey, deriveKey.
  rewrite Hpk. cbn [mbind Result_bind]. rewrite Hk'. cbn [mbind Result_bind].
  rewrite Hdec. cbn [mbind Result_bind mret Result_ret]. rewrite Htext. reflexivity.
Qed.
End EncryptionFacts.

(** ** Decoding with a password is decoding, then decrypting *)

Section DecodeThenDecrypt.
Context `{Platform}.

Lemma decryptIfNeeded_plain decoded : decryptIfNeeded decoded None = Ok decoded.
Proof. reflexivity. Qed.

Lemma decodeImage_password data c p :
  decodeImage data (Some (c :: p))
  = (decoded ← decodeImage data None; decryptMessage decoded (c :: p)).
Proof.
  unfold decodeImage. cbv zeta.
  destruct (le0_num _ || gt_num _ _); reflexivity.
Qed.

Lemma decodeAudio_password arrayBuffer c p :
  decodeAudio arrayBuffer (Some (c :: p))
  = (decoded ← decodeAudio arrayBuffer None; decryptMessage decoded (c :: p)).
Proof.
  unfold decodeAudio. rewrite !(scanChunks_outcome arrayBuffer _ Throw).
  destruct (scanChunks arrayBuffer FoundData ScanThrew NoData _ _)
    as [offset chunkSize|e|]; [|reflexivity..].
  destruct (negb (view_fits arrayBuffer offset chunkSize)); [reflexivity|].
  cbv zeta. destruct (le0_num _ || gt_num _ _); reflexivity.
Qed.

Lemma decodePdf_password pdfDoc c p :
  decodePdf pdfDoc (Some (c :: p))
  = (decoded ← decodePdf pdfDoc None; decryptMessage decoded (c :: p)).
Proof.
  unfold decodePdf. cbv zeta.
  destruct (negb _ || negb _); [reflexivity|].
  destruct (atob _) as [decoded|e]; reflexivity.
Qed.
End DecodeThenDecrypt.

(** ** The integrity error *)

Section Integrity.
Context `{Platform}.

(** C2: when the call reaches the cipher and the authentication tag does not
    verify (the provider rejects with [OperationError]), which is what
    happens to an artifact decoded under another password than the one it was
    encoded with, [decryptMessage] throws the integrity error, and the three
    decoders pass it on unchanged.  The integrity error is thrown in no other
    situation, and it is none of the other error values of the services:
    neither the generic decryption failure, nor the parse and not-found
    errors, nor a capacity error. *)
Theorem integrity_error encryptedJson c p :
  tag_rejected encryptedJson (c :: p) ->
  decryptMessage encryptedJson (c :: p) = Throw (Error MSG_INTEGRITY)
  /\ (forall data, decodeImage data None = Ok encryptedJson ->
        decodeImage data (Some (c :: p)) = Throw (Error MSG_INTEGRITY))
  /\ (forall arrayBuffer, decodeAudio arrayBuffer None = Ok encryptedJson ->
        decodeAudio arrayBuffer (Some (c :: p)) = Throw (Error MSG_INTEGRITY))
  /\ (forall pdfDoc, decodePdf pdfDoc None = Ok encryptedJson ->
        decodePdf pdfDoc (Some (c :: p)) = Throw (Error MSG_INTEGRITY))
  /\ (forall text password,
        decryptMessage text password = Throw (Error MSG_INTEGRITY) ->
        exists e, decryptMessage_try text password = Throw e
                  /\ err_name e = "OperationError")
  /\ (Error MSG_INTEGRITY ∉ service_errors)
  /\ (forall needs allows,
        Error (MSG_CAPACITY_IMAGE needs allows) <> Error MSG_INTEGRITY).
Proof.
  intros Hrej.
  assert (Hint : decryptMessage encryptedJson (c :: p) = Throw (Error MSG_INTEGRITY)).
  { destruct (tag_rejected_try _ _ Hrej) as (e & Htry & Hname).
    exact (decryptMessage_integrity _ _ _ Htry Hname). }
  split; [exact Hint|].
  split; [intros data Hd; rewrite decodeImage_password, Hd; exact Hint|].
  split; [intros buf Hd; rewrite decodeAudio_password, Hd; exact Hint|].
  split; [intros doc Hd; rewrite decodePdf_password, Hd; exact Hint|].
  split.
  { intros text password. unfold decryptMessage, try_catch.
    destruct (decryptMessage_try text password) as [m|e]; [discriminate|].
    destruct (bool_decide (err_name e = "OperationError")) eqn:Hname.
    - intros _. exists e. split; [reflexivity|].
      apply bool_decide_eq_true in Hname. exact Hname.
    - discriminate. }
  split.
  { apply (bool_decide_unpack _). vm_compute. exact I. }
  intros needs allows. discriminate.
Qed.
End Integrity.

Lemma integrity_error_witness :
  decryptMessage (H := test_platform)
    (stringify_bundle [1; 2] [3; 4] [82; 83; 194])%Z (lit "pq")
  = Throw (Error MSG_INTEGRITY).
Proof.
  refine (proj1 (integrity_error (H := test_platform)
                   (stringify_bundle [1; 2] [3; 4] [82; 83; 194])%Z 112%N (lit "q") _)).
  exists (bundle_value [1; 2] [3; 4] [82; 83; 194])%Z,
         (JArr (map JNum [1; 2]))%Z, (JArr (map JNum [3; 4]))%Z,
         (JArr (map JNum [82; 83; 194]))%Z,
         [1; 2]%Z, [3; 4]%Z, [82; 83; 194]%Z,
         [112; 113]%Z, [112; 113; 1; 2]%Z, (mkError "OperationError" "").
  repeat split; vm_compute; reflexivity.
Defined.

(** ** Malformed envelopes *)

Section Malformed.
Context `{Platform}.

(** What the code does about C7: on an envelope that is malformed the inner
    statements throw their own errors (invalid payload format, corrupted
    header, or the TypeError of reading a property of [null]), but the outer
    [catch] of [decryptMessage] replaces each of them by the generic
    decryption failure, which is all the caller sees. *)
Theorem malformed_envelope_folded encryptedJson password :
  malformed_envelope encryptedJson ->
  (exists e, decryptMessage_try encryptedJson password = Throw e
             /\ (e = Error MSG_INVALID_PAYLOAD \/ e = Error MSG_CORRUPTED_HEADER
                 \/ err_name e = "TypeError"))
  /\ decryptMessage encryptedJson password = Throw (Error MSG_DECRYPT_FAILED)
  /\ Error MSG_DECRYPT_FAILED <> Error MSG_INVALID_PAYLOAD
  /\ Error MSG_DECRYPT_FAILED <> Error MSG_CORRUPTED_HEADER.
Proof.
  intros Hmal.
  assert (Htry : exists e, decryptMessage_try encryptedJson password = Throw e
             /\ (e = Error MSG_INVALID_PAYLOAD \/ e = Error MSG_CORRUPTED_HEADER
                 \/ err_name e = "TypeError")).
  { unfold malformed_envelope in Hmal. unfold decryptMessage_try.
    destruct (JSON_parse encryptedJson) as [bundle|e0]; cbn [try_catch mbind Result_bind].
    - destruct bundle as [| |b|n| |s|items|fields]; cbn [get_prop mbind Result_bind] in *;
        try (eexists; split; [reflexivity|]; auto; fail).
      destruct (truthy (assoc (lit "s") fields)),
               (truthy (assoc (lit "iv") fields)),
               (truthy (assoc (lit "d") fields));
        cbn [negb orb andb] in *; try discriminate;
        eexists; split; try reflexivity; auto.
    - eexists. split; [reflexivity|]. auto. }
  split; [exact Htry|].
  split; [|split; discriminate].
  destruct Htry as (e & Htry & He).
  apply (decryptMessage_generic _ _ _ Htry).
  destruct He as [->|[->|He]]; [discriminate..|].
  rewrite He. discriminate.
Qed.
End Malformed.

Lemma malformed_envelope_folded_witness :
  decryptMessage (H := test_platform) (lit "not an envelope") (lit "pw")
  = Throw (Error MSG_DECRYPT_FAILED).
Proof.
  refine (proj1 (proj2 (malformed_envelope_folded (H := test_platform)
                          (lit "not an envelope") (lit "pw") _))).
  vm_compute. exact I.
Defined.

(** ** The PDF adapter *)

Lemma replace_unfold pattern replacement s :
  replace pattern replacement s
  = if startsWith s pattern then replacement ++ drop (length pattern) s
    else match s with
         | [] => []
         | c :: rest => c :: replace pattern replacement rest
         end.
Proof. destruct s; reflexivity. Qed.

Lemma startsWith_app pattern s : startsWith (pattern ++ s) pattern = true.
Proof. unfold startsWith. apply bool_decide_eq_true. apply take_app_length. Qed.


Lemma replace_prefix pattern replacement s :
  replace pattern replacement (pattern ++ s) = replacement ++ s.
Proof. rewrite replace_unfold, startsWith_app, drop_app_length. reflexivity. Qed.

Section PdfFacts.
Context `{Platform}.

Lemma decodePdf_flagged pdfDoc password rawData :
  pdf_subject pdfDoc = Some (flag ++ rawData) ->
  decodePdf pdfDoc password
  = (decoded ← try_catch (atob rawData)
                         (fun _ => Throw (Error MSG_CORRUPTED_ENCODING));
     decryptIfNeeded decoded password).
Proof.
  intros Hsub. unfold decodePdf. rewrite Hsub. cbv zeta. cbn [from_option id].
  rewrite startsWith_app, replace_prefix. reflexivity.
Qed.


End PdfFacts.

Lemma btoa_non_latin1 s :
  Exists (fun c => (255 < c)%N) s -> btoa s = Throw InvalidCharacterError.
Proof.
  intros Hex. unfold btoa.
  destruct (forallb (fun c => (c <=? 255)%N) s) eqn:Hall; [|reflexivity].
  rewrite forallb_forall in Hall. apply Exists_exists in Hex as (c & Hc & Hgt).
  apply list_elem_of_In, Hall, N.leb_le in Hc. lia.
Qed.

Section PdfPlaintext.
Context `{Platform}.

(** C10: without a password (none, or the empty one) [encodePdf] hands the
    message itself to [btoa], so it throws on every message that has a code
    unit above U+00FF and succeeds on every Latin-1 message.  With a password
    the text handed to [btoa] is the envelope, which is ASCII whatever the
    message: the call stores a payload unless the encryption itself fails. *)
Theorem pdf_plaintext_latin1_only pdfDoc message salt iv :
  (Exists (fun c => (255 < c)%N) message ->
   encodePdf pdfDoc message None salt iv = Throw InvalidCharacterError
   /\ encodePdf pdfDoc message (Some []) salt iv = Throw InvalidCharacterError)
  /\ (Forall is_latin1 message ->
      exists payload,
        encodePdf pdfDoc message None salt iv
        = Ok (setSubject pdfDoc (flag ++ payload)))
  /\ (forall c p,
        (exists envelope payload,
           encryptMessage message (c :: p) salt iv = Ok envelope
           /\ Forall is_ascii envelope
           /\ btoa envelope = Ok payload
           /\ encodePdf pdfDoc message (Some (c :: p)) salt iv
              = Ok (setSubject pdfDoc (flag ++ payload)))
        \/ (encryptMessage message (c :: p) salt iv = Throw (Error MSG_ENCRYPT_FAILED)
            /\ encodePdf pdfDoc message (Some (c :: p)) salt iv
               = Throw (Error MSG_ENCRYPT_FAILED))).
Proof.
  split.
  { intros Hex. unfold encodePdf. rewrite (btoa_non_latin1 _ Hex). split; reflexivity. }
  split.
  { intros Hlat. unfold encodePdf. rewrite (btoa_latin1 _ Hlat).
    eexists. reflexivity. }
  intros c p. unfold encodePdf.
  destruct (encryptMessage message (c :: p) salt iv) as [envelope|e] eqn:Henc.
  - left. pose proof (encryptMessage_ascii _ _ _ _ _ Henc) as Hascii.
    exists envelope. eexists.
    split; [reflexivity|]. split; [exact Hascii|].
    simpl. rewrite (btoa_latin1 _ (ascii_latin1 _ Hascii)).
    split; reflexivity.
  - right. apply encryptMessage_Throw in Henc as Heq. subst e.
    split; reflexivity.
Qed.
End PdfPlaintext.

Lemma pdf_plaintext_latin1_only_witness :
  encodePdf (H := test_platform) blank_pdf [104; 256]%N None [] []
  = Throw InvalidCharacterError.
Proof.
  refine (proj1 (proj1 (pdf_plaintext_latin1_only (H := test_platform)
                          blank_pdf [104; 256]%N [] []) _)).
  apply Exists_cons_tl, Exists_cons_hd. reflexivity.
Defined.


(** ** Round trip *)

Section RoundTrip.
Context `{Platform}.

Lemma finalMessage_unit message password salt iv finalMessage :
  Forall is_unit message ->
  finalMessageOf message password salt iv = Ok finalMessage ->
  Forall is_unit finalMessage.
Proof.
  intros Hmsg. unfold finalMessageOf.
  destruct password as [[|c p]|]; try (intros [= <-]; exact Hmsg).
  intros Henc. apply ascii_unit. eapply encryptMessage_ascii. exact Henc.
Qed.

Lemma decryptIfNeeded_final message password salt iv finalMessage :
  finalMessageOf message password salt iv = Ok finalMessage ->
  (forall c p, password = Some (c :: p) -> platform_inverts message (c :: p) salt iv) ->
  decryptIfNeeded finalMessage password = Ok message.
Proof.
  unfold finalMessageOf, decryptIfNeeded.
  destruct password as [[|c p]|]; try (intros [= <-] _; reflexivity).
  intros Henc Hinv. apply (decrypt_encrypt _ _ _ _ _ Henc). apply Hinv. reflexivity.
Qed.

Lemma encodePdf_Ok pdfDoc message password salt iv pdfDoc' :
  encodePdf pdfDoc message password salt iv = Ok pdfDoc' ->
  exists finalMessage payload,
    finalMessageOf message password salt iv = Ok finalMessage
    /\ btoa finalMessage = Ok payload
    /\ pdfDoc' = setSubject pdfDoc (flag ++ payload).
Proof.
  unfold encodePdf, finalMessageOf.
  destruct password as [[|c p]|].
  - destruct (btoa message) as [payload|e] eqn:Hb; simpl; [|discriminate].
    intros [= <-]. exists message, payload. auto.
  - destruct (encryptMessage message (c :: p) salt iv) as [envelope|e]; simpl;
      [|discriminate].
    destruct (btoa envelope) as [payload|e] eqn:Hb; simpl; [|discriminate].
    intros [= <-]. exists envelope, payload. auto.
  - destruct (btoa message) as [payload|e] eqn:Hb; simpl; [|discriminate].
    intros [= <-]. exists message, payload. auto.
Qed.

(** C1, as the code has it: take a message of 16-bit code units and a
    password or none, and let the text that gets framed (the message itself,
    or its envelope when a non-empty password is given) be shorter than 2^32
    bits once written in binary; with a password, let the host invert
    itself on this run.  Then an image or an audio file with room for the
    frame is encoded, and decoding the result with the same password returns
    the message, provided the framed text is not empty; and whenever
    [encodePdf] succeeds, [decodePdf] on its result with the same password
    returns the message. *)
Theorem round_trip message password salt iv finalMessage :
  Forall is_unit message ->
  finalMessageOf message password salt iv = Ok finalMessage ->
  (forall c p, password = Some (c :: p) -> platform_inverts message (c :: p) salt iv) ->
  (forall data,
     Forall is_byte data -> finalMessage <> [] ->
     (N.of_nat (16 * length finalMessage) < 2 ^ 32)%N ->
     4 * (32 + 16 * length finalMessage) <= 3 * length data ->
     exists data',
       encodeImage data message password salt iv = (Ok data', data')
       /\ decodeImage data' password = Ok message)
  /\ (forall arrayBuffer offset chunkSize,
        Forall is_byte arrayBuffer -> finalMessage <> [] ->
        (N.of_nat (16 * length finalMessage) < 2 ^ 32)%N ->
        locateData arrayBuffer = FoundData offset chunkSize ->
        view_fits arrayBuffer offset chunkSize = true ->
        32 + 16 * length finalMessage <= chunkSize ->
        exists buffer',
          encodeAudio arrayBuffer message password salt iv = (Ok buffer', buffer')
          /\ decodeAudio buffer' password = Ok message)
  /\ (forall pdfDoc pdfDoc',
        encodePdf pdfDoc message password salt iv = Ok pdfDoc' ->
        decodePdf pdfDoc' password = Ok message)
  /\ (forall pdfDoc,
        Forall is_latin1 finalMessage ->
        exists pdfDoc', encodePdf pdfDoc message password salt iv = Ok pdfDoc').
Proof.
  intros Hmsg Hfinal Hinv.
  pose proof (finalMessage_unit _ _ _ _ _ Hmsg Hfinal) as Hunit.
  pose proof (decryptIfNeeded_final _ _ _ _ _ Hfinal Hinv) as Hdec.
  split.
  { intros data Hdata Hne Hlen Hcap.
    exists (writeImage (fullBinary finalMessage) data).
    rewrite (encodeImage_final _ _ _ _ _ _ Hfinal).
    assert (Hex : exceedsImage (length (fullBinary finalMessage)) (length data) = false).
    { apply exceedsImage_false. rewrite fullBinary_length by assumption. lia. }
    rewrite Hex. split; [reflexivity|].
    rewrite decodeImage_embedded; try assumption.
    rewrite fullBinary_length by assumption. lia. }
  split.
  { intros arrayBuffer offset chunkSize Hbytes Hne Hlen Hloc Hfit Hcap.
    exists (writeAudio (fullBinary finalMessage) offset chunkSize arrayBuffer).
    rewrite (encodeAudio_found _ _ _ _ _ _ _ Hloc Hfit), Hfinal.
    assert (Hlt : (chunkSize <? length (fullBinary finalMessage)) = false).
    { apply Nat.ltb_ge. rewrite fullBinary_length by assumption. lia. }
    rewrite Hlt. split; [reflexivity|].
    rewrite decodeAudio_written; try assumption.
    rewrite fullBinary_length by assumption. lia. }
  split.
  { intros pdfDoc pdfDoc' Henc.
    apply encodePdf_Ok in Henc as (fm & payload & Hfm & Hb & ->).
    rewrite Hfinal in Hfm. injection Hfm as <-.
    rewrite (decodePdf_flagged _ _ payload) by reflexivity.
    rewrite (atob_btoa _ _ Hb). exact Hdec. }
  intros pdfDoc Hlat. unfold encodePdf. unfold finalMessageOf in Hfinal.
  destruct password as [[|c p]|].
  - injection Hfinal as ->. rewrite (btoa_latin1 _ Hlat). eexists. reflexivity.
  - rewrite Hfinal. simpl. rewrite (btoa_latin1 _ Hlat). eexists. reflexivity.
  - injection Hfinal as ->. rewrite (btoa_latin1 _ Hlat). eexists. reflexivity.
Qed.
End RoundTrip.

Lemma round_trip_witness :
  (exists data',
     encodeImage (H := test_platform) (blank_image 400) (lit "hi")
                 (Some (lit "pw")) [1; 2]%Z [3; 4]%Z = (Ok data', data')
     /\ decodeImage (H := test_platform) data' (Some (lit "pw")) = Ok (lit "hi"))
  /\ (exists buffer',
        encodeAudio (H := test_platform) (wav_file (replicate 64 128%Z)) (lit "hi")
                    None [] [] = (Ok buffer', buffer')
        /\ decodeAudio (H := test_platform) buffer' None = Ok (lit "hi"))
  /\ (forall pdfDoc',
        encodePdf (H := test_platform) blank_pdf (lit "hi") None [] [] = Ok pdfDoc' ->
        decodePdf (H := test_platform) pdfDoc' None = Ok (lit "hi")).
Proof.
  assert (Hu : Forall is_unit (lit "hi")) by by_evaluation.
  assert (Hinv : forall c p, Some (lit "pw") = Some (c :: p) ->
                   platform_inverts (H := test_platform) (lit "hi") (c :: p)
                                    [1; 2]%Z [3; 4]%Z).
  { intros c p [= <- <-]. intros pk k ct Hpk Hk Hct.
    vm_compute in Hpk. injection Hpk as <-.
    vm_compute in Hk. injection Hk as <-.
    vm_compute in Hct. injection Hct as <-.
    repeat split; try (vm_compute; reflexivity).
    exists [112; 119; 1; 2]%Z. split; vm_compute; reflexivity. }
  assert (Hnone : forall c p, @None jsstring = Some (c :: p) ->
                    platform_inverts (H := test_platform) (lit "hi") (c :: p) [] [])
    by discriminate.
  destruct (round_trip (H := test_platform) (lit "hi") (Some (lit "pw"))
              [1; 2]%Z [3; 4]%Z
              (stringify_bundle [1; 2] [3; 4] [82; 83; 194])%Z
              Hu eq_refl Hinv) as (Himage & _).
  destruct (round_trip (H := test_platform) (lit "hi") None [] [] (lit "hi")
              Hu eq_refl Hnone) as (_ & Haudio & Hpdf & _).
  split.
  { apply (Himage (blank_image 400)).
    - by_evaluation.
    - discriminate.
    - vm_compute. reflexivity.
    - vm_compute. lia. }
  split.
  { apply (Haudio (wav_file (replicate 64 128%Z)) 20 64).
    - by_evaluation.
    - discriminate.
    - vm_compute. reflexivity.
    - vm_compute. reflexivity.
    - vm_compute. reflexivity.
    - vm_compute. lia. }
  exact (Hpdf blank_pdf).
Defined.

(** C1 as the specification states it fails on the empty message: the
    encoder writes a header of 32 zero bits, which the decoder takes for a
    carrier without a header. *)
Lemma round_trip_counterexample :
  ~ (forall (P : Platform) (data : list Z) (message : jsstring) data',
       Forall is_byte data -> Forall is_unit message ->
       4 * (32 + 16 * length message) <= 3 * length data ->
       encodeImage data message None [] [] = (Ok data', data') ->
       decodeImage data' None = Ok message).
Proof.
  intros Hclaim.
  specialize (Hclaim test_platform (blank_image 40) []
                (writeImage (fullBinary []) (blank_image 40))).
  assert (Hd : Forall is_byte (blank_image 40)) by by_evaluation.
  assert (Hc : 4 * (32 + 16 * length (@nil N)) <= 3 * length (blank_image 40))
    by (vm_compute; lia).
  specialize (Hclaim Hd (List.Forall_nil _) Hc eq_refl).
  vm_compute in Hclaim. discriminate.
Qed.

(** The same on an audio file, and what the plaintext PDF path does with a
    character above U+00FF. *)
Lemma round_trip_fails_audio_empty :
  exists buffer',
    encodeAudio (H := test_platform) (wav_file (replicate 64 128%Z)) [] None [] []
    = (Ok buffer', buffer')
    /\ decodeAudio (H := test_platform) buffer' None
       = Throw (Error MSG_NO_HIDDEN_AUDIO).
Proof.
  exists (snd (encodeAudio (H := test_platform) (wav_file (replicate 64 128%Z))
                           [] None [] [])).
  split; vm_compute; reflexivity.
Qed.

Lemma round_trip_fails_pdf_non_latin1 :
  encodePdf (H := test_platform) blank_pdf [256%N] None [] []
  = Throw InvalidCharacterError.
Proof. reflexivity. Qed.

(** ** The tamper simulator *)

Lemma corrupt_loop data : forall pre v fuel,
  length data <= fuel ->
  co_data (while corrupt_cond corrupt_body fuel
             {| co_data := pre ++ data; co_i := length pre;
                co_validBytesFound := v; co_corrupted := false |})
  = pre ++ corrupt_from (length pre) v data.
Proof.
  induction data as [|x rest IH]; intros pre v fuel Hfuel.
  - rewrite while_false; [reflexivity|].
    unfold corrupt_cond. cbn [co_data co_i co_corrupted].
    rewrite app_nil_r, Nat.ltb_irrefl. reflexivity.
  - destruct fuel as [|fuel]; [simpl in Hfuel; lia|]. simpl in Hfuel.
    rewrite while_true.
    2:{ unfold corrupt_cond. cbn [co_data co_i co_corrupted negb].
        rewrite andb_true_r. apply Nat.ltb_lt. rewrite length_app. simpl. lia. }
    cbn [corrupt_from]. unfold corrupt_body at 2.
    cbn [co_data co_i co_validBytesFound co_corrupted].
    destruct (isAlpha (length pre)).
    + rewrite snoc_shift, <- length_snoc with (x := x).
      rewrite IH by lia. rewrite length_snoc, Nat.add_1_r, <- app_assoc. reflexivity.
    + destruct (42 <? v).
      * rewrite elem_middle, insert_middle. fold (flip_clamped x).
        rewrite while_false; [reflexivity|].
        unfold corrupt_cond. cbn [co_corrupted negb]. apply andb_false_r.
      * rewrite snoc_shift, <- length_snoc with (x := x).
        rewrite IH by lia. rewrite length_snoc, !Nat.add_1_r, <- app_assoc.
        reflexivity.
Qed.

Lemma corruptImage_from data : corruptImage data = corrupt_from 0 0 data.
Proof. apply (corrupt_loop data [] 0). lia. Qed.

(** On the slot sequence the loop negates slot [43 - v], if there is one. *)
Lemma corrupt_from_slots data : forall i v,
  Forall is_byte data -> v <= 43 ->
  slots_from i (corrupt_from i v data) = alter negb (43 - v) (slots_from i data).
Proof.
  induction data as [|x rest IH]; intros i v Hdata Hv; [reflexivity|].
  apply Forall_cons in Hdata as [Hx Hrest].
  cbn [corrupt_from slots_from]. destruct (isAlpha i) eqn:Ha.
  - cbn [slots_from]. rewrite Ha. apply IH; assumption.
  - destruct (42 <? v) eqn:Hv42.
    + apply Nat.ltb_lt in Hv42. replace (43 - v) with 0 by lia.
      cbn [slots_from]. rewrite Ha.
      destruct (flip_clamped_facts x Hx) as (_ & -> & _). reflexivity.
    + apply Nat.ltb_ge in Hv42. replace (43 - v) with (S (43 - S v)) by lia.
      cbn [slots_from]. rewrite Ha. rewrite IH by (assumption || lia).
      reflexivity.
Qed.

(** On the bytes it changes one byte outside the alpha channel, by its
    least-significant bit, when the buffer has the slot. *)
Lemma corrupt_from_byte data : forall i v,
  Forall is_byte data -> v <= 43 -> 43 - v < length (slots_from i data) ->
  exists k x, data !! k = Some x /\ isAlpha (i + k) = false
              /\ corrupt_from i v data = <[k := flip_clamped x]> data
              /\ Z.lxor (flip_clamped x) x = 1%Z.
Proof.
  induction data as [|x rest IH]; intros i v Hdata Hv Hslot.
  - simpl in Hslot. lia.
  - apply Forall_cons in Hdata as [Hx Hrest].
    cbn [corrupt_from slots_from] in *. destruct (isAlpha i) eqn:Ha.
    + destruct (IH (S i) v Hrest Hv Hslot) as (k & y & Hk & Hak & Heq & Hxor).
      exists (S k), y. split; [exact Hk|].
      split; [replace (i + S k) with (S i + k) by lia; exact Hak|].
      split; [|exact Hxor]. cbn. rewrite Heq. reflexivity.
    + destruct (42 <? v) eqn:Hv42.
      * exists 0, x. split; [reflexivity|].
        split; [rewrite Nat.add_0_r; exact Ha|].
        split; [reflexivity|].
        apply (flip_clamped_facts x Hx).
      * apply Nat.ltb_ge in Hv42. cbn [length] in Hslot.
        destruct (IH (S i) (S v) Hrest) as (k & y & Hk & Hak & Heq & Hxor);
          [lia|lia|].
        exists (S k), y. split; [exact Hk|].
        split; [replace (i + S k) with (S i + k) by lia; exact Hak|].
        split; [|exact Hxor]. cbn. rewrite Heq. reflexivity.
Qed.

(** The slots of a buffer a frame was written into start with the frame. *)
Lemma slots_written data frame :
  Forall is_byte data -> 4 * length frame <= 3 * length data ->
  take (length frame) (slots_from 0 (writeImage frame data)) = frame.
Proof.
  intros Hdata Hcap. rewrite writeImage_embed, <- read_from_slots.
  apply read_embed; [exact Hdata|]. rewrite Nat.Div0.mod_0_l. lia.
Qed.

Lemma writeImage_bytes data frame :
  Forall is_byte data -> Forall is_byte (writeImage frame data).
Proof. intros Hdata. rewrite writeImage_embed. apply embed_from_bytes. exact Hdata. Qed.

Lemma readImage_slots data n :
  rd_text (readImage data (Some n) 0) = take (N.to_nat n) (slots_from 0 data).
Proof.
  rewrite readImage_from by lia. cbn [rd_text]. rewrite drop_0.
  apply read_from_slots.
Qed.

Lemma corruptAudio_found arrayBuffer offset chunkSize :
  locateData arrayBuffer = FoundData offset chunkSize ->
  view_fits arrayBuffer offset chunkSize = true ->
  corruptAudio arrayBuffer
  = if 50 <? chunkSize then
      Ok (samples_set arrayBuffer offset chunkSize 40
            (Z.lxor (samples_get arrayBuffer offset chunkSize 40) 1))
    else Ok arrayBuffer.
Proof.
  intros Hloc Hfit. unfold corruptAudio. rewrite scanChunks_outcome.
  unfold locateData in Hloc. rewrite Hloc, Hfit. reflexivity.
Qed.

Lemma samples_flip buffer offset chunkSize x :
  40 < chunkSize -> buffer !! (offset + 40) = Some x ->
  samples_set buffer offset chunkSize 40
    (Z.lxor (samples_get buffer offset chunkSize 40) 1)
  = <[offset + 40 := flip_wrapped x]> buffer.
Proof.
  intros Hc Hx. unfold samples_set, samples_get, elem.
  assert (Hlt : (40 <? chunkSize) = true) by (apply Nat.ltb_lt; exact Hc).
  rewrite Hlt, Hx. reflexivity.
Qed.

(** Reading the samples after the flip: bit 40 is negated, the rest stays. *)
Lemma readAudio_flipped buffer offset chunkSize x count :
  is_byte x -> count <= chunkSize -> buffer !! (offset + 40) = Some x ->
  readAudio (<[offset + 40 := flip_wrapped x]> buffer) offset chunkSize 0 count
  = alter negb 40 (readAudio buffer offset chunkSize 0 count).
Proof.
  intros Hx Hcount Hlook. unfold readAudio. apply list_eq. intros k.
  destruct (decide (k = 40)) as [->|Hne].
  - rewrite (list_lookup_alter_eq negb), !list_lookup_fmap.
    destruct (decide (40 < count)) as [Hlt|Hge].
    + rewrite lookup_seq_lt by exact Hlt. cbn [fmap option_fmap option_map Nat.add].
      f_equal. unfold samples_get, elem.
      assert (Hc : (40 <? chunkSize) = true) by (apply Nat.ltb_lt; lia).
      rewrite Hc, Hlook, list_lookup_insert_eq by (eapply lookup_lt_Some; exact Hlook).
      cbn [from_option id]. apply (flip_wrapped_facts x Hx).
    + rewrite lookup_seq_ge by lia. reflexivity.
  - rewrite (list_lookup_alter_ne negb) by congruence. rewrite !list_lookup_fmap.
    destruct (decide (k < count)) as [Hlt|Hge].
    + rewrite lookup_seq_lt by exact Hlt. cbn [fmap option_fmap option_map Nat.add].
      f_equal. unfold samples_get, elem.
      rewrite list_lookup_insert_ne by lia. reflexivity.
    + rewrite lookup_seq_ge by lia. reflexivity.
Qed.

Lemma corruptPdf_flagged pdfDoc rawData :
  pdf_subject pdfDoc = Some (flag ++ rawData) ->
  corruptPdf pdfDoc
  = if 10 <? length rawData then
      setSubject pdfDoc
        (flag ++ <[length rawData / 2 :=
                     if bool_decide (rawData !! (length rawData / 2) = Some 65%N)
                     then 66%N else 65%N]> rawData)
    else pdfDoc.
Proof.
  intros Hsub. unfold corruptPdf. rewrite Hsub. cbv zeta. cbn [from_option id].
  rewrite startsWith_app, replace_prefix.
  change (truthy_string (Some (flag ++ rawData))) with true. cbn [andb app].
  destruct (10 <? length rawData) eqn:Hlen; [|reflexivity].
  apply Nat.ltb_lt in Hlen. f_equal. f_equal.
  rewrite insert_take_drop.
  - rewrite Nat.add_1_r. reflexivity.
  - apply Nat.div_lt; lia.
Qed.

Section Tamper.
Context `{Platform}.

Lemma encodeImage_Ok data message password salt iv finalMessage artifact buffer :
  finalMessageOf message password salt iv = Ok finalMessage ->
  encodeImage data message password salt iv = (Ok artifact, buffer) ->
  artifact = writeImage (fullBinary finalMessage) data
  /\ 4 * length (fullBinary finalMessage) <= 3 * length data.
Proof.
  intros Hfinal. rewrite (encodeImage_final _ _ _ _ _ _ Hfinal).
  destruct (exceedsImage _ _) eqn:Hex; [discriminate|].
  intros [= <- _]. split; [reflexivity|]. apply exceedsImage_false. exact Hex.
Qed.

Lemma encodeAudio_Ok arrayBuffer message password salt iv finalMessage
    offset chunkSize artifact buffer :
  finalMessageOf message password salt iv = Ok finalMessage ->
  locateData arrayBuffer = FoundData offset chunkSize ->
  encodeAudio arrayBuffer message password salt iv = (Ok artifact, buffer) ->
  view_fits arrayBuffer offset chunkSize = true
  /\ artifact = writeAudio (fullBinary finalMessage) offset chunkSize arrayBuffer
  /\ length (fullBinary finalMessage) <= chunkSize.
Proof.
  intros Hfinal Hloc. unfold encodeAudio. rewrite scanChunks_outcome.
  unfold locateData in Hloc. rewrite Hloc.
  destruct (view_fits arrayBuffer offset chunkSize); cbn [negb]; [|discriminate].
  rewrite Hfinal. destruct (chunkSize <? _) eqn:Hlt; [discriminate|].
  intros [= <- _]. split; [reflexivity|]. split; [reflexivity|].
  apply Nat.ltb_ge. exact Hlt.
Qed.

(** C5, as the code has it.  Let an artifact be encoded from a framed text
    that is not empty.  On an image [corruptImage] changes one byte outside
    the alpha channel by its least-significant bit, and the frame read back
    differs from the one written in bit 43 alone, past the 32 header bits.
    On an audio file whose data chunk has more than 50 bytes [corruptAudio]
    does the same to sample 40 and frame bit 40; on a smaller chunk it changes
    nothing.  On a PDF whose text after the marker has more than 10
    characters [corruptPdf] replaces the character in the middle of that text
    by another one and keeps the marker; on a shorter text it changes
    nothing. *)
Theorem tamper_flips_one_payload_bit message password salt iv finalMessage :
  Forall is_unit message ->
  finalMessageOf message password salt iv = Ok finalMessage ->
  finalMessage <> [] ->
  (N.of_nat (16 * length finalMessage) < 2 ^ 32)%N ->
  let frame := fullBinary finalMessage in
  32 <= 40 /\ 43 < length frame
  /\ (forall data artifact,
        Forall is_byte data ->
        encodeImage data message password salt iv = (Ok artifact, artifact) ->
        (exists k x, artifact !! k = Some x /\ (k + 1) mod 4 <> 0
                     /\ corruptImage artifact = <[k := flip_clamped x]> artifact
                     /\ Z.lxor (flip_clamped x) x = 1%Z)
        /\ rd_text (readImage (corruptImage artifact)
                              (Some (N.of_nat (length frame))) 0)
           = alter negb 43 frame)
  /\ (forall arrayBuffer artifact offset chunkSize,
        Forall is_byte arrayBuffer ->
        locateData arrayBuffer = FoundData offset chunkSize ->
        encodeAudio arrayBuffer message password salt iv = (Ok artifact, artifact) ->
        locateData artifact = FoundData offset chunkSize
        /\ (50 < chunkSize ->
            exists x, artifact !! (offset + 40) = Some x
                      /\ corruptAudio artifact
                         = Ok (<[offset + 40 := flip_wrapped x]> artifact)
                      /\ Z.lxor (flip_wrapped x) x = 1%Z
                      /\ readAudio (<[offset + 40 := flip_wrapped x]> artifact)
                                   offset chunkSize 0 (length frame)
                         = alter negb 40 frame)
        /\ (chunkSize <= 50 -> corruptAudio artifact = Ok artifact))
  /\ (forall pdfDoc artifact,
        encodePdf pdfDoc message password salt iv = Ok artifact ->
        exists rawData,
          pdf_subject artifact = Some (flag ++ rawData)
          /\ (10 < length rawData ->
              exists char newChar,
                rawData !! (length rawData / 2) = Some char /\ newChar <> char
                /\ corruptPdf artifact
                   = setSubject artifact
                       (flag ++ <[length rawData / 2 := newChar]> rawData))
          /\ (length rawData <= 10 -> corruptPdf artifact = artifact)).
Proof.
  intros Hmsg Hfinal Hne Hlen frame.
  pose proof (finalMessage_unit _ _ _ _ _ Hmsg Hfinal) as Hunit.
  assert (Hframe : length frame = 32 + 16 * length finalMessage)
    by (apply fullBinary_length; assumption).
  assert (H43 : 43 < length frame).
  { destruct finalMessage; [congruence|]. cbn [length] in Hframe. lia. }
  split; [lia|]. split; [exact H43|]. split.
  { intros data artifact Hdata Henc.
    destruct (encodeImage_Ok _ _ _ _ _ _ _ _ Hfinal Henc) as [-> Hcap].
    fold frame in Hcap |- *.
    pose proof (writeImage_bytes data frame Hdata) as Hbytes.
    pose proof (slots_written data frame Hdata Hcap) as Hslots.
    set (artifact := writeImage frame data) in *.
    assert (Hmany : 43 < length (slots_from 0 artifact)).
    { apply (f_equal length) in Hslots. rewrite length_take in Hslots. lia. }
    split.
    - rewrite corruptImage_from.
      destruct (corrupt_from_byte artifact 0 0 Hbytes) as (k & x & Hk & Ha & Heq & Hx);
        [lia|lia|].
      exists k, x. split; [exact Hk|]. split; [|split; assumption].
      intros Hmod. unfold isAlpha in Ha. cbn [Nat.add] in Ha.
      apply Nat.eqb_neq in Ha. contradiction.
    - rewrite readImage_slots, Nat2N.id, corruptImage_from.
      rewrite corrupt_from_slots by (assumption || lia).
      rewrite (take_alter_lt negb) by lia. rewrite Hslots. reflexivity. }
  split.
  { intros arrayBuffer artifact offset chunkSize Hbytes Hloc Henc.
    destruct (encodeAudio_Ok _ _ _ _ _ _ _ _ _ _ Hfinal Hloc Henc) as (Hfit & -> & Hcap).
    fold frame in Hcap |- *.
    apply Nat.leb_le in Hfit as Hfit'.
    destruct (writeAudio_spec frame offset chunkSize arrayBuffer Hcap Hfit')
      as (Hlen' & Hin & Hout).
    set (artifact := writeAudio frame offset chunkSize arrayBuffer) in *.
    assert (Hloc' : locateData artifact = FoundData offset chunkSize).
    { apply (locateData_agree arrayBuffer artifact); [symmetry; exact Hlen'|exact Hloc|].
      intros i Hi. apply Hout. lia. }
    assert (Hfit'' : view_fits artifact offset chunkSize = true)
      by (unfold view_fits; rewrite Hlen'; exact Hfit).
    split; [exact Hloc'|]. split.
    - intros Hbig.
      destruct (lookup_lt_is_Some_2 frame 40) as [b Hb]; [lia|].
      destruct (lookup_lt_is_Some_2 arrayBuffer (offset + 40)) as [x0 Hx0]; [lia|].
      pose proof (Hin 40 b x0 Hb Hx0) as Hx.
      assert (Hbyte : is_byte (embed_wrapped x0 b)).
      { apply embed_wrapped_byte. eapply Forall_lookup_1; [exact Hbytes|exact Hx0]. }
      exists (embed_wrapped x0 b). split; [exact Hx|].
      rewrite (corruptAudio_found _ _ _ Hloc' Hfit'').
      assert (H50 : (50 <? chunkSize) = true) by (apply Nat.ltb_lt; exact Hbig).
      assert (H40 : 40 < chunkSize) by lia.
      rewrite H50, (samples_flip _ _ _ _ H40 Hx).
      split; [reflexivity|]. split; [apply (flip_wrapped_facts _ Hbyte)|].
      rewrite readAudio_flipped by (assumption || lia).
      unfold artifact. rewrite readAudio_written by (assumption || lia).
      rewrite drop_0, firstn_all. reflexivity.
    - intros Hsmall. rewrite (corruptAudio_found _ _ _ Hloc' Hfit'').
      assert (H50 : (50 <? chunkSize) = false) by (apply Nat.ltb_ge; exact Hsmall).
      rewrite H50. reflexivity. }
  intros pdfDoc artifact Henc.
  apply encodePdf_Ok in Henc as (fm & payload & _ & _ & ->).
  exists payload. split; [reflexivity|]. split.
  - intros Hlong.
    destruct (lookup_lt_is_Some_2 payload (length payload / 2)) as [char Hchar].
    { apply Nat.div_lt; lia. }
    exists char, (if bool_decide (payload !! (length payload / 2) = Some 65%N)
                  then 66%N else 65%N).
    split; [exact Hchar|]. split.
    + destruct (bool_decide (payload !! (length payload / 2) = Some 65%N)) eqn:Hd.
      * apply bool_decide_eq_true in Hd.
        assert (Heq : Some char = Some 65%N)
          by (etransitivity; [symmetry; exact Hchar|exact Hd]).
        injection Heq as ->. discriminate.
      * apply bool_decide_eq_false in Hd. intros Heq. apply Hd.
        subst char. exact Hchar.
    + rewrite (corruptPdf_flagged _ payload) by reflexivity.
      assert (H10 : (10 <? length payload) = true) by (apply Nat.ltb_lt; exact Hlong).
      rewrite H10. reflexivity.
  - intros Hshort. rewrite (corruptPdf_flagged _ payload) by reflexivity.
    assert (H10 : (10 <? length payload) = false) by (apply Nat.ltb_ge; exact Hshort).
    rewrite H10. reflexivity.
Qed.
End Tamper.

Lemma tamper_flips_one_payload_bit_witness :
  rd_text (readImage (corruptImage (writeImage (fullBinary (lit "h")) (blank_image 16)))
                     (Some (N.of_nat (length (fullBinary (lit "h"))))) 0)
  = alter negb 43 (fullBinary (lit "h")).
Proof.
  assert (Hu : Forall is_unit (lit "h")) by by_evaluation.
  assert (Hne : lit "h" <> []) by discriminate.
  assert (Hl : (N.of_nat (16 * length (lit "h")) < 2 ^ 32)%N) by (vm_compute; reflexivity).
  destruct (tamper_flips_one_payload_bit (H := test_platform) (lit "h") None [] []
              (lit "h") Hu eq_refl Hne Hl) as (_ & _ & Himage & _).
  assert (Hd : Forall is_byte (blank_image 16)) by by_evaluation.
  exact (proj2 (Himage (blank_image 16)
                       (writeImage (fullBinary (lit "h")) (blank_image 16))
                       Hd eq_refl)).
Defined.

(** C5 as the specification states it fails on small artifacts: an audio
    file with a data chunk of 48 bytes holds the frame of a one-character
    message, and [corruptAudio] returns it unchanged. *)
Lemma tamper_counterexample :
  ~ (forall (P : Platform) (arrayBuffer : list Z) (message : jsstring) artifact,
       Forall is_byte arrayBuffer -> Forall is_unit message -> message <> [] ->
       encodeAudio arrayBuffer message None [] [] = (Ok artifact, artifact) ->
       exists corrupted, corruptAudio artifact = Ok corrupted /\ corrupted <> artifact).
Proof.
  intros Hclaim.
  destruct (Hclaim test_platform (wav_file (replicate 48 128%Z)) (lit "h")
              (snd (encodeAudio (H := test_platform) (wav_file (replicate 48 128%Z))
                                (lit "h") None [] [])))
    as (corrupted & Hcorrupt & Hdiff).
  - by_evaluation.
  - by_evaluation.
  - discriminate.
  - vm_compute. reflexivity.
  - vm_compute in Hcorrupt. injection Hcorrupt as <-.
    apply Hdiff. vm_compute. reflexivity.
Qed.

(** The same on a PDF: the base64 text of "hello" has 8 characters. *)
Lemma tamper_leaves_short_pdf :
  corruptPdf (setSubject blank_pdf (flag ++ lit "aGVsbG8="))
  = setSubject blank_pdf (flag ++ lit "aGVsbG8=").
Proof. reflexivity. Qed.

(** ** The header guard of the decoders *)

Lemma read_from_rest data : forall i n,
  drop n (slots_from i data)
  = slots_from (fst (read_from i n data))
               (drop (fst (read_from i n data) - i) data).
Proof.
  induction data as [|x rest IH]; intros i n.
  - cbn [read_from slots_from fst]. rewrite !drop_nil. reflexivity.
  - destruct n as [|n'].
    + cbn [read_from fst]. rewrite Nat.sub_diag, !drop_0. reflexivity.
    + cbn [read_from slots_from]. destruct (isAlpha i) eqn:Ha.
      * rewrite IH.
        pose proof (read_from_bounds rest (S i) (S n')) as [[Hlo _] _].
        replace (fst (read_from (S i) (S n') rest) - i)
          with (S (fst (read_from (S i) (S n') rest) - S i)) by lia.
        reflexivity.
      * cbn [fst drop]. rewrite IH.
        pose proof (read_from_bounds rest (S i) n') as [[Hlo _] _].
        replace (fst (read_from (S i) n' rest) - i)
          with (S (fst (read_from (S i) n' rest) - S i)) by lia.
        reflexivity.
Qed.

Lemma readImage_NaN data dataIndex :
  readImage data None dataIndex = {| rd_dataIndex := dataIndex; rd_text := [] |}.
Proof. unfold readImage. apply while_false. reflexivity. Qed.

(** What the C3 guard of [decodeImage] is compared with: eight times the
    number of channel bytes, not the number of bits the buffer can hold. *)
Lemma decodeImage_plain `{Platform} data :
  let slots := slots_from 0 data in
  let declared := parseInt2 (take 32 slots) in
  decodeImage data None
  = if le0_num declared || gt_num declared (length data * 8)
    then Throw (Error MSG_NO_HEADER)
    else Ok (binaryToString
               (take (N.to_nat (default 0%N declared)) (drop 32 slots))).
Proof.
  cbv zeta. unfold decodeImage. cbv zeta.
  rewrite (readImage_from data 32 0) by lia.
  rewrite drop_0. change (N.to_nat 32) with 32. cbn [rd_text rd_dataIndex].
  rewrite read_from_slots.
  destruct (le0_num _ || gt_num _ _); [reflexivity|].
  cbn [decryptIfNeeded]. f_equal. f_equal.
  pose proof (read_from_bounds data 0 32) as [[_ Hj] _].
  destruct (parseInt2 (take 32 (slots_from 0 data))) as [declared|].
  - rewrite readImage_from by lia. cbn [rd_text from_option id].
    rewrite read_from_slots, (read_from_rest data 0 32), Nat.sub_0_r. reflexivity.
  - rewrite readImage_NaN. reflexivity.
Qed.

(** What the code does about C3 on an image: the header is the numeral of
    the first 32 slots, and the decoder throws the no-header error exactly
    when that number is 0 or exceeds eight times the byte count of the buffer,
    which is far more than the slots the buffer has.  A declared length
    between the slots left and that bound is accepted, and the decoder then
    returns the text of the fewer bits it found: on [short_image], which
    declares 100 bits and holds 16 after the header, it returns one character
    instead of failing. *)
Theorem header_guard_image (P : Platform) :
  (forall data,
     decodeImage data None
     = if le0_num (parseInt2 (take 32 (slots_from 0 data)))
          || gt_num (parseInt2 (take 32 (slots_from 0 data))) (length data * 8)
       then Throw (Error MSG_NO_HEADER)
       else Ok (binaryToString
                  (take (N.to_nat (default 0%N (parseInt2 (take 32 (slots_from 0 data)))))
                        (drop 32 (slots_from 0 data)))))
  /\ length (slots_from 0 short_image) = 48
  /\ parseInt2 (take 32 (slots_from 0 short_image)) = Some 100%N
  /\ length (drop 32 (slots_from 0 short_image)) = 16
  /\ decodeImage short_image None = Ok [65535%N].
Proof.
  split; [intros data; apply decodeImage_plain|].
  split; [vm_compute; reflexivity|].
  split; [vm_compute; reflexivity|].
  split; [vm_compute; reflexivity|].
  vm_compute. reflexivity.
Qed.

(** The audio decoder compares the declared length with the size of the data
    chunk and then reads exactly that many bits, samples past the end of the
    chunk counting as 0. *)
Lemma header_guard_audio `{Platform} arrayBuffer offset chunkSize :
  locateData arrayBuffer = FoundData offset chunkSize ->
  view_fits arrayBuffer offset chunkSize = true ->
  let declared := parseInt2 (readAudio arrayBuffer offset chunkSize 0 32) in
  let binary := readAudio arrayBuffer offset chunkSize 32
                          (N.to_nat (default 0%N declared)) in
  decodeAudio arrayBuffer None
  = (if le0_num declared || gt_num declared chunkSize
     then Throw (Error MSG_NO_HIDDEN_AUDIO)
     else Ok (binaryToString binary))
  /\ length binary = N.to_nat (default 0%N declared).
Proof.
  intros Hloc Hfit. cbv zeta. split.
  - rewrite (decodeAudio_found _ _ _ _ Hloc Hfit). cbv zeta.
    destruct (le0_num _ || gt_num _ _); reflexivity.
  - unfold readAudio. rewrite length_map, length_seq. reflexivity.
Qed.

(** * Further properties of the services *)

(** ** [binaryToString] on an arbitrary binary text *)

Lemma b2s_loop_groups binary : forall fuel i chars,
  length binary - i <= fuel ->
  b2s_chars (while (b2s_cond binary) (b2s_body binary) fuel
                   {| b2s_i := i; b2s_chars := chars |})
  = chars ++ b2s_groups fuel (drop i binary).
Proof.
  induction fuel as [|fuel IH]; intros i chars Hfuel.
  - simpl. rewrite app_nil_r. reflexivity.
  - destruct (b2s_cond binary {| b2s_i := i; b2s_chars := chars |}) eqn:Hc.
    + rewrite while_true by exact Hc.
      unfold b2s_cond in Hc. cbn [b2s_i] in Hc. apply Nat.ltb_lt in Hc.
      unfold b2s_body. cbn [b2s_i b2s_chars].
      rewrite IH by lia. rewrite <- app_assoc. f_equal.
      destruct (drop i binary) as [|z l] eqn:Hd.
      * apply (f_equal length) in Hd. rewrite length_drop in Hd. simpl in Hd. lia.
      * cbn [b2s_groups app]. rewrite <- Hd, drop_drop. reflexivity.
    + rewrite while_false by exact Hc.
      unfold b2s_cond in Hc. cbn [b2s_i] in Hc. apply Nat.ltb_ge in Hc.
      rewrite drop_ge by lia. cbn [b2s_chars b2s_groups].
      rewrite app_nil_r. reflexivity.
Qed.

Lemma binaryToString_groups binary :
  binaryToString binary = b2s_groups (length binary) binary.
Proof.
  unfold binaryToString. rewrite b2s_loop_groups by lia. reflexivity.
Qed.

Lemma b2s_groups_nil n : b2s_groups n [] = [].
Proof. destruct n; reflexivity. Qed.

Lemma b2s_groups_fuel binary : forall n,
  length binary <= n -> b2s_groups n binary = b2s_groups (length binary) binary.
Proof.
  remember (length binary) as m eqn:Hm. revert binary Hm.
  induction m as [m IH] using lt_wf_ind. intros binary Hm n Hn.
  destruct binary as [|b rest].
  - rewrite !b2s_groups_nil. reflexivity.
  - destruct n as [|n]; [simpl in Hm; lia|].
    destruct m as [|m]; [discriminate|].
    cbn [b2s_groups]. f_equal.
    assert (Hd : length (drop 16 (b :: rest)) <= m)
      by (rewrite length_drop; simpl in *; lia).
    rewrite (IH (length (drop 16 (b :: rest))) ltac:(lia) _ eq_refl n) by lia.
    rewrite (IH (length (drop 16 (b :: rest))) ltac:(lia) _ eq_refl m) by lia.
    reflexivity.
Qed.

Lemma b2s_groups_length binary : forall n,
  length binary <= n -> length (b2s_groups n binary) = (length binary + 15) / 16.
Proof.
  intros n. revert binary. induction n as [|n IH]; intros binary Hn.
  - destruct binary; [reflexivity|simpl in Hn; lia].
  - destruct binary as [|b rest]; [reflexivity|].
    cbn [b2s_groups length]. rewrite IH by (rewrite length_drop; simpl in *; lia).
    rewrite length_drop. cbn [length].
    destruct (le_lt_dec 16 (S (length rest))) as [Hge|Hlt].
    + replace (S (length rest) + 15) with (S (length rest) - 16 + 15 + 1 * 16) by lia.
      rewrite Nat.div_add by lia. lia.
    + replace (S (length rest) - 16 + 15) with 15 by lia.
      replace (S (length rest) + 15) with (length rest + 1 * 16) by lia.
      rewrite Nat.div_add by lia.
      rewrite (Nat.div_small (length rest)) by lia. reflexivity.
Qed.

Lemma b2s_groups_unit binary : forall n, Forall is_unit (b2s_groups n binary).
Proof.
  intros n. revert binary. induction n as [|n IH]; intros binary.
  - constructor.
  - destruct binary as [|b rest]; constructor; [|apply IH].
    unfold is_unit, fromCharCode. destruct (parseInt2 _); [|lia].
    apply N.mod_lt. lia.
Qed.

Lemma b2s_groups_step n binary :
  binary <> [] ->
  b2s_groups (S n) binary
  = fromCharCode (parseInt2 (take 16 binary)) :: b2s_groups n (drop 16 binary).
Proof. destruct binary; [congruence|reflexivity]. Qed.

Lemma b2s_groups_app (b2 : bits) : forall k b1 n,
  length b1 = 16 * k -> length (b1 ++ b2) <= n ->
  b2s_groups n (b1 ++ b2)
  = b2s_groups (length b1) b1 ++ b2s_groups (length b2) b2.
Proof.
  induction k as [|k IH]; intros b1 n Hlen Hn.
  - destruct b1; [|discriminate]. simpl. apply b2s_groups_fuel. exact Hn.
  - rewrite length_app in Hn.
    destruct n as [|n]; [lia|].
    destruct (length b1) as [|m] eqn:Hm; [lia|].
    assert (Hne1 : b1 <> []) by (intros ->; discriminate).
    assert (Hne : b1 ++ b2 <> []) by (destruct b1; [congruence|discriminate]).
    rewrite !b2s_groups_step by assumption.
    rewrite take_app_le by lia. rewrite drop_app_le by lia.
    cbn [app]. f_equal.
    rewrite (IH (drop 16 b1) n); [|rewrite length_drop; lia
                                  |rewrite length_app, length_drop; lia].
    f_equal. rewrite length_drop.
    symmetry. rewrite (b2s_groups_fuel (drop 16 b1) m); [|rewrite length_drop; lia].
    rewrite length_drop. reflexivity.
Qed.

Lemma bits_value_bound s : (bits_value s < 2 ^ N.of_nat (length s))%N.
Proof.
  induction s as [|b s IH] using rev_ind.
  - reflexivity.
  - rewrite bits_value_snoc, length_app. cbn [length].
    replace (N.of_nat (length s + 1)) with (N.succ (N.of_nat (length s))) by lia.
    rewrite N.pow_succ_r'. unfold digit_value. destruct b; lia.
Qed.

(** X1: on any binary text, [binaryToString] gives one character for
    each started group of 16 digits, every character is a 16-bit code unit,
    a text whose length is a multiple of 16 is decoded independently of what
    follows it, and a final group of fewer than 16 digits is read as the
    number those digits denote (it is not padded on the right). *)
Theorem binaryToString_any_text (binary : bits) :
  length (binaryToString binary) = (length binary + 15) / 16
  /\ Forall is_unit (binaryToString binary)
  /\ (forall rest, length binary mod 16 = 0 ->
        binaryToString (binary ++ rest)
        = binaryToString binary ++ binaryToString rest)
  /\ (forall tail, length binary mod 16 = 0 -> 0 < length tail < 16 ->
        binaryToString (binary ++ tail)
        = binaryToString binary ++ [bits_value tail]).
Proof.
  assert (Happ : forall rest, length binary mod 16 = 0 ->
            binaryToString (binary ++ rest)
            = binaryToString binary ++ binaryToString rest).
  { intros rest Hmod. rewrite !binaryToString_groups.
    apply (b2s_groups_app rest (length binary / 16)); [|lia].
    pose proof (Nat.div_mod_eq (length binary) 16). lia. }
  split; [|split; [|split]].
  - rewrite binaryToString_groups. apply b2s_groups_length. lia.
  - rewrite binaryToString_groups. apply b2s_groups_unit.
  - exact Happ.
  - intros tail Hmod Htail. rewrite Happ by exact Hmod. f_equal.
    rewrite binaryToString_groups.
    destruct tail as [|b tail]; [simpl in Htail; lia|].
    cbn [length b2s_groups]. rewrite drop_ge by (simpl in *; lia).
    rewrite b2s_groups_nil. rewrite take_ge by (simpl in *; lia).
    rewrite parseInt2_value by discriminate. cbn [fromCharCode].
    f_equal. apply N.mod_small.
    pose proof (bits_value_bound (b :: tail)) as Hb.
    eapply N.lt_le_trans; [exact Hb|].
    change 65536%N with (2 ^ 16)%N. apply N.pow_le_mono_r; [lia|].
    simpl in *. lia.
Qed.

Lemma binaryToString_any_text_witness :
  binaryToString (stringToBinary (lit "h") ++ [true; false; true])
  = binaryToString (stringToBinary (lit "h")) ++ [5%N].
Proof.
  apply (proj2 (proj2 (proj2 (binaryToString_any_text (stringToBinary (lit "h")))))
           [true; false; true]).
  - reflexivity.
  - simpl. lia.
Defined.

(** ** What the encoders write, and where *)

Lemma embed_from_beyond data : forall i bs j,
  4 * length bs + i mod 4 <= 3 * j ->
  embed_from i bs data !! j = data !! j.
Proof.
  induction data as [|x rest IH]; intros i bs j Hj; [reflexivity|].
  cbn [embed_from]. destruct bs as [|b bs']; [reflexivity|].
  cbn [length] in Hj. destruct j as [|j]; [lia|].
  pose proof (Nat.mod_upper_bound i 4 ltac:(lia)) as Hi.
  pose proof (Nat.div_mod_eq i 4) as Hdiv.
  pose proof (Nat.mod_upper_bound (S i) 4 ltac:(lia)) as HSi.
  pose proof (Nat.div_mod_eq (S i) 4) as HSdiv.
  destruct (isAlpha i) eqn:Ha; cbn [lookup list_lookup]; apply IH.
  - apply isAlpha_spec in Ha. cbn [length]. lia.
  - assert (Hn : i mod 4 <> 3)
      by (intros Hx; apply isAlpha_spec in Hx; congruence).
    lia.
Qed.

Lemma writeAudio_locate fullBinary offset chunkSize buffer :
  length fullBinary <= chunkSize -> offset + chunkSize <= length buffer ->
  locateData buffer = FoundData offset chunkSize ->
  locateData (writeAudio fullBinary offset chunkSize buffer)
  = FoundData offset chunkSize.
Proof.
  intros Hchunk Hfit Hloc.
  destruct (writeAudio_spec fullBinary offset chunkSize buffer Hchunk Hfit)
    as (Hlen & _ & Hout).
  apply (locateData_agree buffer); [symmetry; exact Hlen|exact Hloc|].
  intros i Hi. apply Hout. lia.
Qed.

Lemma writeAudio_bytes fullBinary offset chunkSize buffer :
  Forall is_byte buffer ->
  length fullBinary <= chunkSize -> offset + chunkSize <= length buffer ->
  Forall is_byte (writeAudio fullBinary offset chunkSize buffer).
Proof.
  intros Hbytes Hchunk Hfit.
  destruct (writeAudio_spec fullBinary offset chunkSize buffer Hchunk Hfit)
    as (Hlen & Hin & Hout).
  apply Forall_lookup. intros j y Hy.
  destruct (decide (j < offset \/ offset + length fullBinary <= j)) as [Hj|Hj].
  - rewrite Hout in Hy by exact Hj.
    eapply Forall_lookup in Hbytes; [exact Hbytes|exact Hy].
  - assert (Hi : exists i, j = offset + i /\ i < length fullBinary)
      by (exists (j - offset); lia).
    destruct Hi as (i & -> & Hi).
    destruct (lookup_lt_is_Some_2 fullBinary i Hi) as [b Hb].
    destruct (lookup_lt_is_Some_2 buffer (offset + i) ltac:(lia)) as [x Hx].
    rewrite (Hin i b x Hb Hx) in Hy. injection Hy as <-.
    apply embed_wrapped_byte.
    eapply Forall_lookup in Hbytes; [exact Hbytes|exact Hx].
Qed.

Section WriteFacts.
Context `{Platform}.

(** X2: a successful [encodeImage] changes only a prefix of the pixel
    buffer: the buffer keeps its length, the caller's buffer is the returned
    one, and every byte at an index [j] with [3 j >= 4 * frame length] is the
    byte the carrier had there. *)
Theorem image_write_prefix data message password salt iv finalMessage
    artifact buffer :
  finalMessageOf message password salt iv = Ok finalMessage ->
  encodeImage data message password salt iv = (Ok artifact, buffer) ->
  buffer = artifact
  /\ length artifact = length data
  /\ (forall j, 4 * length (fullBinary finalMessage) <= 3 * j ->
                artifact !! j = data !! j).
Proof.
  intros Hfinal Henc.
  rewrite (encodeImage_final _ _ _ _ _ _ Hfinal) in Henc.
  destruct (exceedsImage _ _); [discriminate|].
  injection Henc as <- <-. rewrite writeImage_embed.
  split; [reflexivity|]. split; [apply embed_from_length|].
  intros j Hj. apply embed_from_beyond. simpl. lia.
Qed.

(** X3: a successful [encodeAudio] writes inside the data chunk only:
    the file keeps its length, every byte before the chunk's samples and
    every byte from sample [frame length] on is unchanged (so are the RIFF
    header, the other chunks and the chunk table, and the walk finds the same
    data chunk again), and sample [i] of the frame keeps its seven upper bits
    and carries frame bit [i] as its last bit. *)
Theorem audio_write_inside_chunk arrayBuffer message password salt iv
    finalMessage offset chunkSize artifact buffer :
  Forall is_byte arrayBuffer ->
  finalMessageOf message password salt iv = Ok finalMessage ->
  locateData arrayBuffer = FoundData offset chunkSize ->
  encodeAudio arrayBuffer message password salt iv = (Ok artifact, buffer) ->
  buffer = artifact
  /\ length artifact = length arrayBuffer
  /\ Forall is_byte artifact
  /\ (forall j, j < offset \/ offset + length (fullBinary finalMessage) <= j ->
                artifact !! j = arrayBuffer !! j)
  /\ (forall i b, fullBinary finalMessage !! i = Some b ->
        exists x y, arrayBuffer !! (offset + i) = Some x
                    /\ artifact !! (offset + i) = Some y
                    /\ lsb_char y = b
                    /\ Z.shiftr y 1 = Z.shiftr x 1)
  /\ locateData artifact = FoundData offset chunkSize.
Proof.
  intros Hbytes Hfinal Hloc Henc.
  assert (Hfit : view_fits arrayBuffer offset chunkSize = true).
  { unfold encodeAudio in Henc. rewrite scanChunks_outcome in Henc.
    unfold locateData in Hloc. rewrite Hloc in Henc.
    destruct (view_fits arrayBuffer offset chunkSize); [reflexivity|discriminate]. }
  rewrite (encodeAudio_found _ _ _ _ _ _ _ Hloc Hfit), Hfinal in Henc.
  destruct (chunkSize <? _) eqn:Hlt; [discriminate|].
  apply Nat.ltb_ge in Hlt. injection Henc as <- <-.
  apply Nat.leb_le in Hfit.
  destruct (writeAudio_spec (fullBinary finalMessage) offset chunkSize arrayBuffer
              Hlt Hfit) as (Hlen & Hin & Hout).
  split; [reflexivity|]. split; [exact Hlen|].
  split; [apply writeAudio_bytes; assumption|].
  split; [exact Hout|]. split; [|apply writeAudio_locate; assumption].
  intros i b Hb.
  assert (Hi : i < length (fullBinary finalMessage))
    by (eapply lookup_lt_Some; exact Hb).
  destruct (lookup_lt_is_Some_2 arrayBuffer (offset + i) ltac:(lia)) as [x Hx].
  assert (Hxb : is_byte x)
    by (eapply Forall_lookup in Hbytes; [exact Hbytes|exact Hx]).
  exists x, (embed_wrapped x b).
  split; [exact Hx|]. split; [apply Hin; assumption|].
  split; [apply embed_wrapped_lsb|apply embed_wrapped_upper]; exact Hxb.
Qed.
End WriteFacts.

Lemma image_write_prefix_witness :
  writeImage (fullBinary (lit "h")) (blank_image 20) !! 64 = blank_image 20 !! 64.
Proof.
  assert (Henc : encodeImage (H := test_platform) (blank_image 20) (lit "h") None [] []
                 = (Ok (writeImage (fullBinary (lit "h")) (blank_image 20)),
                    writeImage (fullBinary (lit "h")) (blank_image 20)))
    by (vm_compute; reflexivity).
  destruct (image_write_prefix (H := test_platform) (blank_image 20) (lit "h") None
              [] [] (lit "h") _ _ eq_refl Henc) as (_ & _ & Hbeyond).
  apply Hbeyond. vm_compute. lia.
Defined.

Lemma audio_write_inside_chunk_witness :
  locateData (writeAudio (fullBinary (lit "h")) 20 48 (wav_file (replicate 48 128%Z)))
  = FoundData 20 48.
Proof.
  apply (audio_write_inside_chunk (H := test_platform)
           (wav_file (replicate 48 128%Z)) (lit "h") None [] [] (lit "h") 20 48
           (writeAudio (fullBinary (lit "h")) 20 48 (wav_file (replicate 48 128%Z)))
           (writeAudio (fullBinary (lit "h")) 20 48 (wav_file (replicate 48 128%Z)))).
  - by_evaluation.
  - reflexivity.
  - vm_compute. reflexivity.
  - vm_compute. reflexivity.
Defined.

(** ** Encoding into a carrier that already holds a message *)

Section Reencode.
Context `{Platform}.

Lemma encodeImage_artifact data message password salt iv artifact buffer :
  Forall is_byte data ->
  encodeImage data message password salt iv = (Ok artifact, buffer) ->
  Forall is_byte artifact /\ length artifact = length data.
Proof.
  intros Hdata. unfold encodeImage.
  destruct (finalMessageOf message password salt iv) as [finalMessage|e];
    [|discriminate].
  destruct (exceedsImage _ _); [discriminate|].
  intros [= <- _]. split; [apply writeImage_bytes; exact Hdata|].
  rewrite writeImage_embed. apply embed_from_length.
Qed.

Lemma encodeAudio_artifact arrayBuffer message password salt iv offset chunkSize
    artifact buffer :
  Forall is_byte arrayBuffer ->
  locateData arrayBuffer = FoundData offset chunkSize ->
  encodeAudio arrayBuffer message password salt iv = (Ok artifact, buffer) ->
  Forall is_byte artifact
  /\ locateData artifact = FoundData offset chunkSize
  /\ view_fits artifact offset chunkSize = true.
Proof.
  intros Hbytes Hloc Henc.
  destruct (finalMessageOf message password salt iv) as [finalMessage|e] eqn:Hfinal.
  - destruct (encodeAudio_Ok _ _ _ _ _ _ _ _ _ _ Hfinal Hloc Henc)
      as (Hfit & -> & Hcap).
    pose proof Hfit as Hfit'. apply Nat.leb_le in Hfit'.
    split; [apply writeAudio_bytes; assumption|].
    split; [apply writeAudio_locate; assumption|].
    destruct (writeAudio_spec (fullBinary finalMessage) offset chunkSize arrayBuffer
                Hcap Hfit') as (Hlen & _).
    unfold view_fits. rewrite Hlen. exact Hfit.
  - unfold encodeAudio in Henc. rewrite scanChunks_outcome in Henc.
    unfold locateData in Hloc. rewrite Hloc in Henc.
    destruct (view_fits arrayBuffer offset chunkSize); cbn [negb] in Henc;
      [|discriminate].
    rewrite Hfinal in Henc. discriminate.
Qed.

(** X4: a carrier that already holds the result of an earlier encoding
    can be encoded again, and decoding then returns the new message: on an
    image and on an audio file under the capacity and non-emptiness
    conditions of a fresh carrier; on a PDF the second encoding gives exactly
    the document that encoding the original one would have given, so nothing
    of the earlier payload is left. *)
Theorem reencode_replaces message password salt iv finalMessage :
  Forall is_unit message ->
  finalMessageOf message password salt iv = Ok finalMessage ->
  (forall c p, password = Some (c :: p) -> platform_inverts message (c :: p) salt iv) ->
  (forall data message0 password0 salt0 iv0 artifact0 buffer0,
     Forall is_byte data -> finalMessage <> [] ->
     (N.of_nat (16 * length finalMessage) < 2 ^ 32)%N ->
     4 * (32 + 16 * length finalMessage) <= 3 * length data ->
     encodeImage data message0 password0 salt0 iv0 = (Ok artifact0, buffer0) ->
     exists artifact,
       encodeImage artifact0 message password salt iv = (Ok artifact, artifact)
       /\ decodeImage artifact password = Ok message)
  /\ (forall arrayBuffer offset chunkSize message0 password0 salt0 iv0
             artifact0 buffer0,
        Forall is_byte arrayBuffer -> finalMessage <> [] ->
        (N.of_nat (16 * length finalMessage) < 2 ^ 32)%N ->
        locateData arrayBuffer = FoundData offset chunkSize ->
        32 + 16 * length finalMessage <= chunkSize ->
        encodeAudio arrayBuffer message0 password0 salt0 iv0 = (Ok artifact0, buffer0) ->
        exists artifact,
          encodeAudio artifact0 message password salt iv = (Ok artifact, artifact)
          /\ decodeAudio artifact password = Ok message)
  /\ (forall pdfDoc message0 password0 salt0 iv0 artifact0 artifact,
        encodePdf pdfDoc message0 password0 salt0 iv0 = Ok artifact0 ->
        encodePdf artifact0 message password salt iv = Ok artifact ->
        encodePdf pdfDoc message password salt iv = Ok artifact
        /\ decodePdf artifact password = Ok message).
Proof.
  intros Hmsg Hfinal Hinv.
  pose proof (finalMessage_unit _ _ _ _ _ Hmsg Hfinal) as Hunit.
  pose proof (decryptIfNeeded_final _ _ _ _ _ Hfinal Hinv) as Hdec.
  split; [|split].
  - intros data message0 password0 salt0 iv0 artifact0 buffer0
           Hdata Hne Hlen Hcap Henc0.
    destruct (encodeImage_artifact _ _ _ _ _ _ _ Hdata Henc0) as [Hbytes Hsame].
    exists (writeImage (fullBinary finalMessage) artifact0).
    rewrite (encodeImage_final _ _ _ _ _ _ Hfinal).
    assert (Hex : exceedsImage (length (fullBinary finalMessage)) (length artifact0)
                  = false).
    { apply exceedsImage_false. rewrite fullBinary_length by assumption. lia. }
    rewrite Hex. split; [reflexivity|].
    rewrite decodeImage_embedded; try assumption.
    rewrite fullBinary_length by assumption. lia.
  - intros arrayBuffer offset chunkSize message0 password0 salt0 iv0
           artifact0 buffer0 Hbytes Hne Hlen Hloc Hcap Henc0.
    destruct (encodeAudio_artifact _ _ _ _ _ _ _ _ _ Hbytes Hloc Henc0)
      as (Hbytes0 & Hloc0 & Hfit0).
    exists (writeAudio (fullBinary finalMessage) offset chunkSize artifact0).
    rewrite (encodeAudio_found _ _ _ _ _ _ _ Hloc0 Hfit0), Hfinal.
    assert (Hlt : (chunkSize <? length (fullBinary finalMessage)) = false).
    { apply Nat.ltb_ge. rewrite fullBinary_length by assumption. lia. }
    rewrite Hlt. split; [reflexivity|].
    rewrite decodeAudio_written; try assumption.
    rewrite fullBinary_length by assumption. lia.
  - intros pdfDoc message0 password0 salt0 iv0 artifact0 artifact Henc0 Henc.
    destruct (encodePdf_Ok _ _ _ _ _ _ Henc0) as (fm0 & payload0 & _ & _ & ->).
    destruct (encodePdf_Ok _ _ _ _ _ _ Henc) as (fm & payload & Hfm & Hpayload & ->).
    assert (fm = finalMessage) as -> by congruence.
    split.
    + clear Henc Henc0. unfold encodePdf. unfold finalMessageOf in Hfm.
      destruct password as [[|c p]|].
      * injection Hfm as ->. rewrite Hpayload. reflexivity.
      * rewrite Hfm. simpl. rewrite Hpayload. reflexivity.
      * injection Hfm as ->. rewrite Hpayload. reflexivity.
    + rewrite (decodePdf_flagged _ _ payload) by reflexivity.
      rewrite (atob_btoa _ _ Hpayload). exact Hdec.
Qed.
End Reencode.

Lemma reencode_replaces_witness :
  exists artifact,
    encodeImage (H := test_platform)
      (writeImage (fullBinary (lit "first")) (blank_image 40)) (lit "hi") None [] []
    = (Ok artifact, artifact)
    /\ decodeImage (H := test_platform) artifact None = Ok (lit "hi").
Proof.
  assert (Hu : Forall is_unit (lit "hi")) by by_evaluation.
  assert (Hnone : forall c p, @None jsstring = Some (c :: p) ->
                    platform_inverts (H := test_platform) (lit "hi") (c :: p) [] [])
    by discriminate.
  destruct (reencode_replaces (H := test_platform) (lit "hi") None [] [] (lit "hi")
              Hu eq_refl Hnone) as (Himage & _).
  apply (Himage (blank_image 40) (lit "first") None [] []
                (writeImage (fullBinary (lit "first")) (blank_image 40))
                (writeImage (fullBinary (lit "first")) (blank_image 40))).
  - by_evaluation.
  - discriminate.
  - vm_compute. reflexivity.
  - vm_compute. lia.
  - vm_compute. reflexivity.
Defined.

(** ** The chunk walk on a laid-out file *)

Lemma scanChunks_S {A} buffer (onData : nat -> nat -> A) onThrow notFound fuel offset :
  scanChunks buffer onData onThrow notFound (S fuel) offset
  = if offset <? length buffer then
      match chunk_header buffer offset with
      | Throw e => onThrow e
      | Ok (chunkId, chunkSize) =>
          if bool_decide (chunkId = chunkId_data)
          then onData (offset + 8) chunkSize
          else scanChunks buffer onData onThrow notFound fuel (offset + 8 + chunkSize)
      end
    else notFound.
Proof. reflexivity. Qed.

Lemma chunk_header_agree (b1 b2 : list Z) o1 o2 :
  (forall k, k < 8 -> b1 !! (o1 + k) = b2 !! (o2 + k)) ->
  chunk_header b1 o1 = chunk_header b2 o2.
Proof.
  intros Hk.
  pose proof (Hk 0 ltac:(lia)) as H0. rewrite !Nat.add_0_r in H0.
  pose proof (Hk 1 ltac:(lia)) as H1.
  pose proof (Hk 2 ltac:(lia)) as H2.
  pose proof (Hk 3 ltac:(lia)) as H3.
  pose proof (Hk 4 ltac:(lia)) as H4.
  pose proof (Hk 5 ltac:(lia)) as H5.
  replace (o1 + 5) with (o1 + 4 + 1) in H5 by lia.
  replace (o2 + 5) with (o2 + 4 + 1) in H5 by lia.
  pose proof (Hk 6 ltac:(lia)) as H6.
  replace (o1 + 6) with (o1 + 4 + 2) in H6 by lia.
  replace (o2 + 6) with (o2 + 4 + 2) in H6 by lia.
  pose proof (Hk 7 ltac:(lia)) as H7.
  replace (o1 + 7) with (o1 + 4 + 3) in H7 by lia.
  replace (o2 + 7) with (o2 + 4 + 3) in H7 by lia.
  unfold chunk_header, getUint32_le, getUint8.
  rewrite H0, H1, H2, H3, H4, H5, H6, H7. reflexivity.
Qed.

Lemma chunk_header_app (p t : list Z) :
  chunk_header (p ++ t) (length p) = chunk_header t 0.
Proof.
  apply chunk_header_agree. intros k _.
  rewrite lookup_app_r by lia. f_equal. lia.
Qed.

Lemma le32_value (n : nat) :
  (N.of_nat n < 2 ^ 32)%N ->
  let z := Z.of_nat n in
  Z.to_nat (z mod 256 + 256 * (z / 256 mod 256) + 65536 * (z / 65536 mod 256)
            + 16777216 * (z / 16777216 mod 256)) = n.
Proof.
  intros Hn z.
  assert (Hz : (0 <= z < 4294967296)%Z).
  { subst z. change (2 ^ 32)%N with 4294967296%N in Hn. lia. }
  assert (Heq : (z mod 256 + 256 * (z / 256 mod 256) + 65536 * (z / 65536 mod 256)
                 + 16777216 * (z / 16777216 mod 256) = z)%Z).
  { clear Hn. Z.div_mod_to_equations. lia. }
  rewrite Heq. subst z. lia.
Qed.

Lemma chunk_header_chunk a b c d (n : nat) (rest : list Z) :
  (N.of_nat n < 2 ^ 32)%N ->
  chunk_header ([a; b; c; d] ++ le32 n ++ rest) 0 = Ok ([a; b; c; d], n).
Proof.
  intros Hn. pose proof (le32_value n Hn) as Hv. cbv zeta in Hv.
  unfold le32. revert Hv.
  generalize (Z.of_nat n mod 256)%Z (Z.of_nat n / 256 mod 256)%Z
             (Z.of_nat n / 65536 mod 256)%Z (Z.of_nat n / 16777216 mod 256)%Z.
  intros z0 z1 z2 z3 Hv.
  unfold chunk_header, getUint32_le, getUint8.
  cbn [app lookup list_lookup Nat.add mbind mret Result_bind Result_ret].
  rewrite Hv. reflexivity.
Qed.

Lemma chunk_header_short (t : list Z) :
  0 < length t < 8 -> chunk_header t 0 = Throw RangeError.
Proof.
  intros Ht.
  do 8 (destruct t as [|? t]; [try (simpl in Ht; lia); reflexivity|]).
  simpl in Ht. lia.
Qed.

Lemma riff_chunk_length id body :
  length (riff_chunk id body) = length id + 4 + length body.
Proof. unfold riff_chunk. rewrite !length_app. simpl. lia. Qed.

Lemma scan_plain_chunks pre : forall (pfx tail : list Z) fuel,
  Forall plain_chunk pre -> length pre < fuel ->
  scanChunks (pfx ++ riff_chunks pre ++ tail) FoundData ScanThrew NoData
             fuel (length pfx)
  = scanChunks (pfx ++ riff_chunks pre ++ tail) FoundData ScanThrew NoData
               (fuel - length pre) (length pfx + length (riff_chunks pre)).
Proof.
  induction pre as [|[id body] pre IH]; intros pfx tail fuel Hpre Hfuel.
  - cbn [riff_chunks map concat length]. rewrite Nat.add_0_r, Nat.sub_0_r.
    reflexivity.
  - apply Forall_cons in Hpre as [(Hid4 & Hid & Hsize) Hpre].
    cbn [fst snd] in Hid4, Hid, Hsize. cbn [length] in Hfuel.
    destruct fuel as [|fuel]; [lia|].
    assert (HB : pfx ++ riff_chunks ((id, body) :: pre) ++ tail
                 = (pfx ++ riff_chunk id body) ++ riff_chunks pre ++ tail).
    { unfold riff_chunks. cbn [map concat fst snd].
      rewrite <- !app_assoc. reflexivity. }
    assert (Hlen : length (riff_chunks ((id, body) :: pre))
                   = length (riff_chunk id body) + length (riff_chunks pre)).
    { unfold riff_chunks. cbn [map concat fst snd]. apply length_app. }
    rewrite scanChunks_S.
    assert (Hlt : (length pfx <? length (pfx ++ riff_chunks ((id, body) :: pre) ++ tail))
                  = true).
    { apply Nat.ltb_lt. rewrite !length_app, Hlen, riff_chunk_length. lia. }
    assert (Hhd : chunk_header (pfx ++ riff_chunks ((id, body) :: pre) ++ tail)
                               (length pfx)
                  = Ok (id, length body)).
    { rewrite chunk_header_app.
      destruct id as [|a [|b [|c [|d [|]]]]]; try discriminate.
      unfold riff_chunks. cbn [map concat fst snd]. unfold riff_chunk.
      rewrite <- !app_assoc. apply chunk_header_chunk. exact Hsize. }
    rewrite Hlt, Hhd. rewrite bool_decide_eq_false_2 by exact Hid.
    rewrite Hlen. rewrite HB.
    replace (length pfx + 8 + length body) with (length (pfx ++ riff_chunk id body))
      by (rewrite length_app, riff_chunk_length; lia).
    rewrite IH by (assumption || lia).
    cbn [length]. f_equal; rewrite ?length_app; lia.
Qed.

Lemma riff_chunks_length pre :
  Forall plain_chunk pre -> 8 * length pre <= length (riff_chunks pre).
Proof.
  induction 1 as [|[id body] pre (Hid4 & _ & _) _ IH]; [simpl; lia|].
  unfold riff_chunks in *. cbn [map concat fst snd length] in *.
  rewrite length_app, riff_chunk_length. lia.
Qed.

Lemma scan_from_header (header : list Z) pre tail :
  length header = 12 -> Forall plain_chunk pre -> tail <> [] ->
  locateData (header ++ riff_chunks pre ++ tail)
  = match chunk_header tail 0 with
    | Throw e => ScanThrew e
    | Ok (chunkId, chunkSize) =>
        if bool_decide (chunkId = chunkId_data)
        then FoundData (12 + length (riff_chunks pre) + 8) chunkSize
        else scanChunks (header ++ riff_chunks pre ++ tail) FoundData ScanThrew NoData
               (length (header ++ riff_chunks pre ++ tail) - length pre - 1)
               (12 + length (riff_chunks pre) + 8 + chunkSize)
    end.
Proof.
  intros Hheader Hpre Htail. unfold locateData.
  pose proof (riff_chunks_length pre Hpre) as Hge.
  assert (Hne : 0 < length tail) by (destruct tail; [congruence|simpl; lia]).
  pose proof (scan_plain_chunks pre header tail
                (length (header ++ riff_chunks pre ++ tail)) Hpre) as Hscan.
  rewrite Hheader in Hscan. rewrite Hscan by (rewrite !length_app; lia).
  clear Hscan.
  destruct (length (header ++ riff_chunks pre ++ tail) - length pre) as [|fuel] eqn:Hf.
  { rewrite !length_app in Hf. lia. }
  rewrite scanChunks_S.
  assert (Hlt : (12 + length (riff_chunks pre)
                 <? length (header ++ riff_chunks pre ++ tail)) = true).
  { apply Nat.ltb_lt. rewrite !length_app. lia. }
  rewrite Hlt.
  assert (Hhd : chunk_header (header ++ riff_chunks pre ++ tail)
                             (12 + length (riff_chunks pre))
                = chunk_header tail 0).
  { rewrite app_assoc. rewrite <- Hheader, <- length_app. apply chunk_header_app. }
  rewrite Hhd. replace (S fuel - 1) with fuel by lia. reflexivity.
Qed.

Lemma locateData_found (header : list Z) pre (n : nat) rest :
  length header = 12 -> Forall plain_chunk pre -> (N.of_nat n < 2 ^ 32)%N ->
  locateData (header ++ riff_chunks pre ++ chunkId_data ++ le32 n ++ rest)
  = FoundData (12 + length (riff_chunks pre) + 8) n.
Proof.
  intros Hheader Hpre Hn.
  rewrite scan_from_header by (assumption || discriminate).
  unfold chunkId_data at 1. rewrite chunk_header_chunk by exact Hn.
  reflexivity.
Qed.

Lemma locateData_none (header : list Z) pre :
  length header = 12 -> Forall plain_chunk pre ->
  locateData (header ++ riff_chunks pre) = NoData.
Proof.
  intros Hheader Hpre. unfold locateData.
  pose proof (riff_chunks_length pre Hpre) as Hge.
  rewrite <- (app_nil_r (riff_chunks pre)).
  pose proof (scan_plain_chunks pre header []
                (length (header ++ riff_chunks pre ++ [])) Hpre) as Hscan.
  rewrite Hheader in Hscan. rewrite Hscan by (rewrite !length_app; simpl; lia).
  clear Hscan.
  destruct (length (header ++ riff_chunks pre ++ []) - length pre) as [|fuel];
    [reflexivity|].
  rewrite scanChunks_S.
  assert (Hlt : (12 + length (riff_chunks pre)
                 <? length (header ++ riff_chunks pre ++ [])) = false).
  { apply Nat.ltb_ge. rewrite !length_app. simpl. lia. }
  rewrite Hlt. reflexivity.
Qed.

Lemma locateData_short buffer : length buffer <= 12 -> locateData buffer = NoData.
Proof.
  intros Hlen. unfold locateData. destruct (length buffer) as [|fuel] eqn:Hf;
    [reflexivity|].
  rewrite scanChunks_S.
  assert (Hlt : (12 <? length buffer) = false) by (apply Nat.ltb_ge; lia).
  rewrite Hlt. reflexivity.
Qed.

Section AudioOutcome.
Context `{Platform}.

Lemma encodeAudio_outcome arrayBuffer message password salt iv :
  encodeAudio arrayBuffer message password salt iv
  = match locateData arrayBuffer with
    | FoundData offset chunkSize =>
        if negb (view_fits arrayBuffer offset chunkSize)
        then (Throw RangeError, arrayBuffer) else
        match finalMessageOf message password salt iv with
        | Throw e => (Throw e, arrayBuffer)
        | Ok finalMessage =>
            if chunkSize <? length (fullBinary finalMessage) then
              (Throw (Error MSG_CAPACITY_AUDIO), arrayBuffer)
            else
              (Ok (writeAudio (fullBinary finalMessage) offset chunkSize arrayBuffer),
               writeAudio (fullBinary finalMessage) offset chunkSize arrayBuffer)
        end
    | ScanThrew e => (Throw e, arrayBuffer)
    | NoData => (Throw (Error MSG_INVALID_WAV_STRUCTURE), arrayBuffer)
    end.
Proof. unfold encodeAudio, locateData. rewrite scanChunks_outcome. reflexivity. Qed.

Lemma decodeAudio_outcome arrayBuffer password :
  decodeAudio arrayBuffer password
  = match locateData arrayBuffer with
    | FoundData offset chunkSize =>
        if negb (view_fits arrayBuffer offset chunkSize) then Throw RangeError else
        let msgLength := parseInt2 (readAudio arrayBuffer offset chunkSize 0 32) in
        if le0_num msgLength || gt_num msgLength chunkSize then
          Throw (Error MSG_NO_HIDDEN_AUDIO)
        else
          decryptIfNeeded
            (binaryToString (readAudio arrayBuffer offset chunkSize 32
                                       (N.to_nat (default 0%N msgLength))))
            password
    | ScanThrew e => Throw e
    | NoData => Throw (Error MSG_INVALID_WAV_FILE)
    end.
Proof. unfold decodeAudio, locateData. rewrite scanChunks_outcome. reflexivity. Qed.
End AudioOutcome.

Lemma corruptAudio_outcome arrayBuffer :
  corruptAudio arrayBuffer
  = match locateData arrayBuffer with
    | FoundData offset chunkSize =>
        if negb (view_fits arrayBuffer offset chunkSize) then Throw RangeError else
        if 50 <? chunkSize then
          Ok (samples_set arrayBuffer offset chunkSize 40
                (Z.lxor (samples_get arrayBuffer offset chunkSize 40) 1))
        else Ok arrayBuffer
    | ScanThrew e => Throw e
    | NoData => Throw (Error MSG_INVALID_WAV_STRUCTURE)
    end.
Proof. unfold corruptAudio, locateData. rewrite scanChunks_outcome. reflexivity. Qed.

Section WavLayout.
Context `{Platform}.

(** X5: in a file made of a 12-byte header, any chunks not named
    [data] (each with a four-byte identifier, laid out without padding), a
    [data] chunk and anything after it, the three audio operations work on
    the samples of that first [data] chunk: the walk ends at its first sample
    with its size, the view fits and holds exactly its samples; and when the
    frame fits into the samples, [encodeAudio] succeeds on the file and
    [decodeAudio] returns the message from the result. *)
Theorem wav_data_chunk_found (header : list Z) pre (samples rest : list Z) :
  length header = 12 -> Forall plain_chunk pre ->
  (N.of_nat (length samples) < 2 ^ 32)%N ->
  let file := header ++ riff_chunks pre ++ riff_chunk chunkId_data samples ++ rest in
  let offset := 12 + length (riff_chunks pre) + 8 in
  locateData file = FoundData offset (length samples)
  /\ view_fits file offset (length samples) = true
  /\ take (length samples) (drop offset file) = samples
  /\ (forall message password salt iv finalMessage,
        Forall is_byte file -> Forall is_unit message ->
        finalMessageOf message password salt iv = Ok finalMessage ->
        (forall c p, password = Some (c :: p) ->
                     platform_inverts message (c :: p) salt iv) ->
        finalMessage <> [] ->
        (N.of_nat (16 * length finalMessage) < 2 ^ 32)%N ->
        32 + 16 * length finalMessage <= length samples ->
        exists artifact,
          encodeAudio file message password salt iv = (Ok artifact, artifact)
          /\ locateData artifact = FoundData offset (length samples)
          /\ decodeAudio artifact password = Ok message).
Proof.
  intros Hheader Hpre Hn file offset.
  assert (Hfile : file = (header ++ riff_chunks pre ++ chunkId_data
                          ++ le32 (length samples)) ++ samples ++ rest).
  { subst file. unfold riff_chunk. rewrite <- !app_assoc. reflexivity. }
  assert (Hoff : length (header ++ riff_chunks pre ++ chunkId_data
                         ++ le32 (length samples)) = offset).
  { subst offset. rewrite !length_app, Hheader. simpl. lia. }
  assert (Hloc : locateData file = FoundData offset (length samples)).
  { subst file. unfold riff_chunk. rewrite <- !app_assoc.
    apply locateData_found; assumption. }
  assert (Hfit : view_fits file offset (length samples) = true).
  { unfold view_fits. apply Nat.leb_le. rewrite Hfile, length_app, Hoff, length_app.
    lia. }
  split; [exact Hloc|]. split; [exact Hfit|]. split.
  { rewrite Hfile, <- Hoff, drop_app_length, take_app_length. reflexivity. }
  intros message password salt iv finalMessage Hbytes Hmsg Hfinal Hinv Hne Hlen Hcap.
  pose proof (finalMessage_unit _ _ _ _ _ Hmsg Hfinal) as Hunit.
  pose proof (decryptIfNeeded_final _ _ _ _ _ Hfinal Hinv) as Hdec.
  assert (Hframe : length (fullBinary finalMessage) <= length samples)
    by (rewrite fullBinary_length by assumption; lia).
  exists (writeAudio (fullBinary finalMessage) offset (length samples) file).
  rewrite (encodeAudio_found _ _ _ _ _ _ _ Hloc Hfit), Hfinal.
  assert (Hlt : (length samples <? length (fullBinary finalMessage)) = false)
    by (apply Nat.ltb_ge; exact Hframe).
  rewrite Hlt. split; [reflexivity|]. split.
  - apply writeAudio_locate; [exact Hframe| |exact Hloc].
    apply Nat.leb_le. exact Hfit.
  - rewrite decodeAudio_written; assumption.
Qed.

(** X6: what the audio operations do with a file that has no usable
    [data] chunk.  A file of at most 12 bytes, or one whose chunks all have
    other names, makes [encodeAudio] and [corruptAudio] throw "Invalid WAV
    structure" and [decodeAudio] throw "Invalid WAV file"; one to seven
    bytes left after the last chunk, or a [data] chunk whose size field
    promises more samples than the file holds, make all three throw a
    RangeError.  A failing [encodeAudio] leaves the buffer as it was. *)
Theorem wav_rejected (header : list Z) pre message password salt iv :
  length header = 12 -> Forall plain_chunk pre ->
  (forall buffer,
     length buffer <= 12 ->
     encodeAudio buffer message password salt iv
     = (Throw (Error MSG_INVALID_WAV_STRUCTURE), buffer)
     /\ decodeAudio buffer password = Throw (Error MSG_INVALID_WAV_FILE)
     /\ corruptAudio buffer = Throw (Error MSG_INVALID_WAV_STRUCTURE))
  /\ (let file := header ++ riff_chunks pre in
      encodeAudio file message password salt iv
      = (Throw (Error MSG_INVALID_WAV_STRUCTURE), file)
      /\ decodeAudio file password = Throw (Error MSG_INVALID_WAV_FILE)
      /\ corruptAudio file = Throw (Error MSG_INVALID_WAV_STRUCTURE))
  /\ (forall tail,
        0 < length tail < 8 ->
        let file := header ++ riff_chunks pre ++ tail in
        encodeAudio file message password salt iv = (Throw RangeError, file)
        /\ decodeAudio file password = Throw RangeError
        /\ corruptAudio file = Throw RangeError)
  /\ (forall (n : nat) samples,
        length samples < n -> (N.of_nat n < 2 ^ 32)%N ->
        let file := header ++ riff_chunks pre ++ chunkId_data ++ le32 n ++ samples in
        encodeAudio file message password salt iv = (Throw RangeError, file)
        /\ decodeAudio file password = Throw RangeError
        /\ corruptAudio file = Throw RangeError).
Proof.
  intros Hheader Hpre. split; [|split; [|split]].
  - intros buffer Hlen.
    rewrite encodeAudio_outcome, decodeAudio_outcome, corruptAudio_outcome.
    rewrite (locateData_short buffer Hlen). auto.
  - cbv zeta.
    rewrite encodeAudio_outcome, decodeAudio_outcome, corruptAudio_outcome.
    rewrite (locateData_none header pre Hheader Hpre). auto.
  - intros tail Htail file.
    assert (Hloc : locateData file = ScanThrew RangeError).
    { subst file. rewrite scan_from_header; try assumption.
      - rewrite chunk_header_short by exact Htail. reflexivity.
      - intros ->. simpl in Htail. lia. }
    rewrite encodeAudio_outcome, decodeAudio_outcome, corruptAudio_outcome.
    rewrite Hloc. auto.
  - intros n samples Hshort Hn file.
    assert (Hloc : locateData file = FoundData (12 + length (riff_chunks pre) + 8) n)
      by (apply locateData_found; assumption).
    assert (Hfit : view_fits file (12 + length (riff_chunks pre) + 8) n = false).
    { unfold view_fits. apply Nat.leb_gt. subst file.
      rewrite !length_app, Hheader. simpl. lia. }
    rewrite encodeAudio_outcome, decodeAudio_outcome, corruptAudio_outcome.
    rewrite Hloc, Hfit. auto.
Qed.
End WavLayout.

Lemma wav_data_chunk_found_witness :
  locateData (map Z.of_N (lit "RIFF....WAVE")
              ++ riff_chunks [(map Z.of_N (lit "fmt "), replicate 16 0%Z)]
              ++ riff_chunk chunkId_data (replicate 48 128%Z) ++ [])
  = FoundData 44 48.
Proof.
  apply (wav_data_chunk_found (H := test_platform) (map Z.of_N (lit "RIFF....WAVE"))
           [(map Z.of_N (lit "fmt "), replicate 16 0%Z)] (replicate 48 128%Z) []).
  - reflexivity.
  - constructor; [|constructor]. split; [reflexivity|]. split; [discriminate|].
    reflexivity.
  - reflexivity.
Defined.

Lemma wav_rejected_witness :
  decodeAudio (H := test_platform)
    (map Z.of_N (lit "RIFF....WAVE")
     ++ riff_chunks [(map Z.of_N (lit "fmt "), replicate 16 0%Z)]) None
  = Throw (Error MSG_INVALID_WAV_FILE).
Proof.
  assert (Hpre : Forall plain_chunk [(map Z.of_N (lit "fmt "), replicate 16 0%Z)]).
  { constructor; [|constructor]. split; [reflexivity|]. split; [discriminate|].
    reflexivity. }
  destruct (wav_rejected (H := test_platform) (map Z.of_N (lit "RIFF....WAVE"))
              [(map Z.of_N (lit "fmt "), replicate 16 0%Z)] [] None [] []
              eq_refl Hpre) as (_ & (_ & Hdecode & _) & _).
  exact Hdecode.
Defined.

(** ** The errors an operation can end with *)



Section Errors.
Context `{Platform}.




End Errors.




(** ** A protected artifact read without its password *)

Section WithoutPassword.
Context `{Platform}.

(** X9: an artifact encoded with a password and decoded without one
    (or with the empty string, which the decoders take for none) does not
    fail: the decoder returns the JSON text of the envelope, which is ASCII
    and starts with the [s] field.  This holds for the three carriers, under
    the capacity conditions of the encoders. *)
Theorem protected_artifact_without_password message c p salt iv envelope :
  encryptMessage message (c :: p) salt iv = Ok envelope ->
  (N.of_nat (16 * length envelope) < 2 ^ 32)%N ->
  Forall is_ascii envelope
  /\ take 6 envelope = lit "{" ++ [dquote] ++ lit "s" ++ [dquote] ++ lit ":["
  /\ (forall data,
        Forall is_byte data -> 4 * (32 + 16 * length envelope) <= 3 * length data ->
        exists artifact,
          encodeImage data message (Some (c :: p)) salt iv = (Ok artifact, artifact)
          /\ decodeImage artifact None = Ok envelope
          /\ decodeImage artifact (Some []) = Ok envelope)
  /\ (forall arrayBuffer offset chunkSize,
        Forall is_byte arrayBuffer ->
        locateData arrayBuffer = FoundData offset chunkSize ->
        view_fits arrayBuffer offset chunkSize = true ->
        32 + 16 * length envelope <= chunkSize ->
        exists artifact,
          encodeAudio arrayBuffer message (Some (c :: p)) salt iv
          = (Ok artifact, artifact)
          /\ decodeAudio artifact None = Ok envelope
          /\ decodeAudio artifact (Some []) = Ok envelope)
  /\ (forall pdfDoc,
        exists artifact,
          encodePdf pdfDoc message (Some (c :: p)) salt iv = Ok artifact
          /\ decodePdf artifact None = Ok envelope
          /\ decodePdf artifact (Some []) = Ok envelope).
Proof.
  intros Henc Hlen.
  pose proof (encryptMessage_ascii _ _ _ _ _ Henc) as Hascii.
  pose proof (ascii_unit _ Hascii) as Hunit.
  destruct (encryptMessage_Ok _ _ _ _ _ Henc) as (pk & k & ct & _ & _ & _ & Henv).
  assert (Hne : envelope <> []) by (rewrite Henv; discriminate).
  assert (Hfinal : finalMessageOf message (Some (c :: p)) salt iv = Ok envelope)
    by exact Henc.
  split; [exact Hascii|]. split; [rewrite Henv; reflexivity|].
  split; [|split].
  - intros data Hdata Hcap.
    exists (writeImage (fullBinary envelope) data).
    rewrite (encodeImage_final _ _ _ _ _ _ Hfinal).
    assert (Hex : exceedsImage (length (fullBinary envelope)) (length data) = false).
    { apply exceedsImage_false. rewrite fullBinary_length by assumption. lia. }
    rewrite Hex. split; [reflexivity|].
    rewrite !decodeImage_embedded; try assumption;
      [split; reflexivity|rewrite fullBinary_length by assumption; lia..].
  - intros arrayBuffer offset chunkSize Hbytes Hloc Hfit Hcap.
    exists (writeAudio (fullBinary envelope) offset chunkSize arrayBuffer).
    rewrite (encodeAudio_found _ _ _ _ _ _ _ Hloc Hfit), Hfinal.
    assert (Hlt : (chunkSize <? length (fullBinary envelope)) = false).
    { apply Nat.ltb_ge. rewrite fullBinary_length by assumption. lia. }
    rewrite Hlt. split; [reflexivity|].
    rewrite !decodeAudio_written; try assumption;
      [split; reflexivity|rewrite fullBinary_length by assumption; lia..].
  - intros pdfDoc.
    destruct (btoa envelope) as [payload|e] eqn:Hb.
    + exists (setSubject pdfDoc (flag ++ payload)).
      split; [unfold encodePdf; rewrite Henc; simpl; rewrite Hb; reflexivity|].
      rewrite !(decodePdf_flagged _ _ payload) by reflexivity.
      rewrite (atob_btoa _ _ Hb). split; reflexivity.
    + rewrite btoa_latin1 in Hb by (apply ascii_latin1; exact Hascii).
      discriminate.
Qed.
End WithoutPassword.

Lemma protected_artifact_without_password_witness :
  exists artifact,
    encodePdf (H := test_platform) blank_pdf (lit "hi") (Some (lit "pw")) [1; 2]%Z [3; 4]%Z
    = Ok artifact
    /\ decodePdf (H := test_platform) artifact None
       = Ok (stringify_bundle [1; 2] [3; 4] [82; 83; 194])%Z
    /\ decodePdf (H := test_platform) artifact (Some [])
       = Ok (stringify_bundle [1; 2] [3; 4] [82; 83; 194])%Z.
Proof.
  destruct (protected_artifact_without_password (H := test_platform) (lit "hi")
              112%N (lit "w") [1; 2]%Z [3; 4]%Z
              (stringify_bundle [1; 2] [3; 4] [82; 83; 194])%Z)
    as (_ & _ & _ & _ & Hpdf).
  - vm_compute. reflexivity.
  - vm_compute. reflexivity.
  - exact (Hpdf blank_pdf).
Defined.

(** ** Simulating the attack a second time *)

Lemma flip_twice x :
  is_byte x ->
  flip_clamped (flip_clamped x) = x /\ flip_wrapped (flip_wrapped x) = x.
Proof.
  intros Hx.
  pose proof (byte_forall
                (fun x => (flip_clamped (flip_clamped x) =? x)%Z
                          && (flip_wrapped (flip_wrapped x) =? x)%Z)
                ltac:(vm_compute; reflexivity) x Hx) as Hf.
  cbv beta in Hf. apply andb_prop in Hf as [H1 H2].
  split; apply Z.eqb_eq; assumption.
Qed.

Lemma corrupt_from_twice data : forall i v,
  Forall is_byte data -> corrupt_from i v (corrupt_from i v data) = data.
Proof.
  induction data as [|x rest IH]; intros i v Hdata; [reflexivity|].
  apply Forall_cons in Hdata as [Hx Hrest].
  cbn [corrupt_from]. destruct (isAlpha i) eqn:Ha.
  - cbn [corrupt_from]. rewrite Ha. f_equal. apply IH. exact Hrest.
  - destruct (42 <? v) eqn:Hv.
    + cbn [corrupt_from]. rewrite Ha, Hv. f_equal. apply flip_twice. exact Hx.
    + cbn [corrupt_from]. rewrite Ha, Hv. f_equal. apply IH. exact Hrest.
Qed.

(** X10: running the tamper simulation twice.  On an image, and on an
    audio file, the second run flips the same bit back: the artifact is
    again byte for byte what it was (and decodes again).  On a PDF the
    second run restores the document only when the replaced character was
    [A] or [B]; any other character has become [B]. *)
Theorem corrupt_twice :
  (forall data, Forall is_byte data -> corruptImage (corruptImage data) = data)
  /\ (forall arrayBuffer corrupted,
        Forall is_byte arrayBuffer ->
        corruptAudio arrayBuffer = Ok corrupted ->
        corruptAudio corrupted = Ok arrayBuffer)
  /\ (forall pdfDoc rawData char,
        pdf_subject pdfDoc = Some (flag ++ rawData) ->
        10 < length rawData ->
        rawData !! (length rawData / 2) = Some char ->
        corruptPdf (corruptPdf pdfDoc)
        = setSubject pdfDoc
            (flag ++ <[length rawData / 2 :=
                         if bool_decide (char = 65%N) then 65%N else 66%N]> rawData)
        /\ (corruptPdf (corruptPdf pdfDoc) = pdfDoc <-> char = 65%N \/ char = 66%N)).
Proof.
  split; [|split].
  - intros data Hdata. rewrite !corruptImage_from. apply corrupt_from_twice.
    exact Hdata.
  - intros arrayBuffer corrupted Hbytes. rewrite corruptAudio_outcome.
    destruct (locateData arrayBuffer) as [offset chunkSize|e|] eqn:Hloc;
      try discriminate.
    destruct (view_fits arrayBuffer offset chunkSize) eqn:Hfit; cbn [negb];
      [|discriminate].
    destruct (50 <? chunkSize) eqn:H50.
    + apply Nat.ltb_lt in H50. pose proof Hfit as Hfit'. apply Nat.leb_le in Hfit'.
      destruct (lookup_lt_is_Some_2 arrayBuffer (offset + 40) ltac:(lia)) as [x Hx].
      assert (Hxb : is_byte x)
        by (eapply Forall_lookup in Hbytes; [exact Hbytes|exact Hx]).
      rewrite (samples_flip _ _ _ x) by (lia || exact Hx).
      intros [= <-].
      assert (Hloc' : locateData (<[offset + 40 := flip_wrapped x]> arrayBuffer)
                      = FoundData offset chunkSize).
      { apply (locateData_agree arrayBuffer); [|exact Hloc|].
        - rewrite length_insert. reflexivity.
        - intros i Hi. apply list_lookup_insert_ne. lia. }
      assert (Hfit'' : view_fits (<[offset + 40 := flip_wrapped x]> arrayBuffer)
                                 offset chunkSize = true).
      { unfold view_fits. rewrite length_insert. exact Hfit. }
      rewrite (corruptAudio_found _ _ _ Hloc' Hfit'').
      assert (H50' : (50 <? chunkSize) = true) by (apply Nat.ltb_lt; exact H50).
      rewrite H50'.
      rewrite (samples_flip _ _ _ (flip_wrapped x)).
      * rewrite list_insert_insert_eq.
        rewrite (proj2 (flip_twice x Hxb)).
        rewrite list_insert_id by exact Hx. reflexivity.
      * lia.
      * apply list_lookup_insert_eq. eapply lookup_lt_Some. exact Hx.
    + intros [= <-]. rewrite corruptAudio_outcome, Hloc, Hfit. cbn [negb].
      rewrite H50. reflexivity.
  - intros pdfDoc rawData char Hsub Hlong Hchar.
    set (idx := length rawData / 2) in *.
    assert (Hidx : idx < length rawData) by (eapply lookup_lt_Some; exact Hchar).
    assert (H10 : (10 <? length rawData) = true) by (apply Nat.ltb_lt; exact Hlong).
    rewrite (corruptPdf_flagged pdfDoc rawData Hsub), H10. fold idx.
    rewrite Hchar.
    set (new1 := if bool_decide (Some char = Some 65%N) then 66%N else 65%N).
    rewrite (corruptPdf_flagged _ (<[idx := new1]> rawData)) by reflexivity.
    rewrite length_insert, H10. fold idx.
    rewrite list_lookup_insert_eq by exact Hidx.
    rewrite list_insert_insert_eq.
    assert (Hnew : (if bool_decide (Some new1 = Some 65%N) then 66%N else 65%N)
                   = if bool_decide (char = 65%N) then 65%N else 66%N).
    { subst new1. destruct (decide (char = 65%N)) as [->|Hne].
      - reflexivity.
      - rewrite (bool_decide_eq_false_2 (Some char = Some 65%N)) by congruence.
        rewrite (bool_decide_eq_false_2 (char = 65%N)) by exact Hne.
        reflexivity. }
    rewrite Hnew. split; [reflexivity|].
    destruct pdfDoc as [subject content]. cbn [pdf_subject] in Hsub. subst subject.
    unfold setSubject. cbn [pdf_content pdf_subject].
    split.
    + intros Heq. injection Heq as Heq.
      apply (f_equal (fun l => l !! idx)) in Heq.
      rewrite list_lookup_insert_eq in Heq by exact Hidx.
      assert (Hc : Some (if bool_decide (char = 65%N) then 65%N else 66%N) = Some char)
        by (etransitivity; [exact Heq|exact Hchar]).
      injection Hc as Hc.
      destruct (bool_decide (char = 65%N)); [left|right]; congruence.
    + intros Hc. f_equal. f_equal. f_equal. apply list_insert_id.
      destruct Hc as [-> | ->]; exact Hchar.
Qed.

Lemma corrupt_twice_witness :
  corruptImage (corruptImage (writeImage (fullBinary (lit "hi")) (blank_image 40)))
  = writeImage (fullBinary (lit "hi")) (blank_image 40).
Proof.
  apply (proj1 corrupt_twice
           (writeImage (fullBinary (lit "hi")) (blank_image 40))).
  by_evaluation.
Defined.

(** ** Tampering that no password guards *)

Lemma lxor_unit c k : is_unit c -> is_unit k -> is_unit (N.lxor c k).
Proof.
  unfold is_unit. change 65536%N with (2 ^ 16)%N. intros Hc Hk.
  assert (Hlog : forall a, (a < 2 ^ 16)%N -> (N.log2 a < 16)%N).
  { intros a Ha. destruct (N.eq_dec a 0%N) as [->|Hne]; [reflexivity|].
    apply N.log2_lt_pow2; [lia|exact Ha]. }
  destruct (N.eq_dec (N.lxor c k) 0%N) as [->|Hne]; [reflexivity|].
  apply N.log2_lt_pow2; [lia|].
  pose proof (N.log2_lxor c k). pose proof (Hlog c Hc). pose proof (Hlog k Hk). lia.
Qed.

Lemma lxor_pow2_neq c m : N.lxor c (2 ^ m) <> c.
Proof.
  intros Heq. apply (f_equal (fun a => N.testbit a m)) in Heq.
  rewrite N.lxor_spec, N.pow2_bits_true in Heq. destruct (N.testbit c m); discriminate.
Qed.

Lemma be_bits_flip w n k :
  k < w ->
  alter negb k (be_bits w n) = be_bits w (N.lxor n (2 ^ N.of_nat (w - 1 - k))).
Proof.
  intros Hk. apply list_eq. intros j.
  destruct (decide (j < w)) as [Hj|Hj].
  - pose proof (be_bits_testbit w n j Hj) as Hn.
    pose proof (be_bits_testbit w (N.lxor n (2 ^ N.of_nat (w - 1 - k))) j Hj) as Hx.
    unfold bits in *. rewrite Hx, N.lxor_spec.
    destruct (decide (j = k)) as [->|Hne].
    + rewrite (list_lookup_alter_eq negb), Hn.
      rewrite N.pow2_bits_true. cbn [fmap option_fmap option_map].
      destruct (N.testbit n _); reflexivity.
    + rewrite (list_lookup_alter_ne negb) by congruence.
      rewrite Hn. rewrite N.pow2_bits_false by lia.
      rewrite xorb_false_r. reflexivity.
  - unfold bits in *. etransitivity.
    + apply lookup_ge_None_2. rewrite (length_alter negb), be_bits_length. lia.
    + symmetry. apply lookup_ge_None_2. rewrite be_bits_length. lia.
Qed.

(** Negating digit [j] of the first group of a binary message changes bit
    [15 - j] of the first character. *)
Lemma stringToBinary_flip c rest j :
  Forall is_unit (c :: rest) -> j < 16 ->
  alter negb j (stringToBinary (c :: rest))
  = stringToBinary (N.lxor c (2 ^ N.of_nat (15 - j)) :: rest)
  /\ Forall is_unit (N.lxor c (2 ^ N.of_nat (15 - j)) :: rest).
Proof.
  intros Hmsg Hj.
  assert (Hmsg' : Forall is_unit (N.lxor c (2 ^ N.of_nat (15 - j)) :: rest)).
  { apply Forall_cons in Hmsg as [Hc Hrest]. constructor; [|exact Hrest].
    apply lxor_unit; [exact Hc|]. unfold is_unit. change 65536%N with (2 ^ 16)%N.
    apply N.pow_lt_mono_r; lia. }
  split; [|exact Hmsg'].
  rewrite !stringToBinary_be by assumption. cbn [map concat].
  pose proof (be_bits_flip 16 c j Hj) as Hflip.
  pose proof (be_bits_length 16 c) as Hlen.
  unfold bits in *.
  rewrite (alter_app_l negb) by (rewrite Hlen; exact Hj).
  rewrite Hflip. reflexivity.
Qed.

Lemma corrupt_from_length data : forall i v,
  length (corrupt_from i v data) = length data.
Proof.
  induction data as [|x rest IH]; intros i v; [reflexivity|].
  cbn [corrupt_from]. destruct (isAlpha i); [cbn [length]; rewrite IH; reflexivity|].
  destruct (42 <? v); cbn [length]; [|rewrite IH]; reflexivity.
Qed.

Lemma readAudio_split buffer offset chunkSize n m :
  readAudio buffer offset chunkSize 0 (n + m)
  = readAudio buffer offset chunkSize 0 n ++ readAudio buffer offset chunkSize n m.
Proof. unfold readAudio. rewrite seq_app, map_app. reflexivity. Qed.

Lemma readAudio_length buffer offset chunkSize from count :
  length (readAudio buffer offset chunkSize from count) = count.
Proof. unfold readAudio. rewrite length_map, length_seq. reflexivity. Qed.

Lemma parseInt2_be_bits_32 (n : N) :
  (n < 2 ^ 32)%N -> parseInt2 (be_bits 32 n) = Some n.
Proof.
  intros Hn. rewrite parseInt2_value.
  - f_equal. apply (bits_value_be_bits 32). exact Hn.
  - intros Hnil. apply (f_equal length) in Hnil. rewrite be_bits_length in Hnil.
    discriminate.
Qed.

Section Undetected.
Context `{Platform}.

Lemma decodeImage_corrupted c rest data :
  Forall is_byte data -> Forall is_unit (c :: rest) ->
  (N.of_nat (16 * length (c :: rest)) < 2 ^ 32)%N ->
  4 * length (fullBinary (c :: rest)) <= 3 * length data ->
  decodeImage (corruptImage (writeImage (fullBinary (c :: rest)) data)) None
  = Ok (N.lxor c 16 :: rest).
Proof.
  intros Hdata Hmsg Hlen Hcap.
  set (message := c :: rest) in *.
  set (L := 16 * length message) in *.
  pose proof (fullBinary_be message Hmsg Hlen) as Hfb.
  pose proof (fullBinary_length message Hmsg Hlen) as Hfblen. fold L in Hfb, Hfblen.
  pose proof (slots_written data (fullBinary message) Hdata Hcap) as Hslots.
  pose proof (writeImage_bytes data (fullBinary message) Hdata) as Hbytes.
  assert (HlenA : length (writeImage (fullBinary message) data) = length data)
    by (rewrite writeImage_embed; apply embed_from_length).
  assert (HL : 16 <= L) by (subst L message; cbn [length]; lia).
  rewrite decodeImage_plain. cbv zeta.
  rewrite corruptImage_from, corrupt_from_length, HlenA.
  rewrite corrupt_from_slots by (assumption || lia).
  replace (43 - 0) with 43 by lia.
  set (A := writeImage (fullBinary message) data) in *.
  set (slots := slots_from 0 A) in *.
  pose proof (be_bits_length 32 (N.of_nat L)) as Hhd.
  unfold bits in *.
  assert (H32 : take 32 (alter negb 43 slots) = be_bits 32 (N.of_nat L)).
  { rewrite (take_alter_ge negb) by lia.
    replace (take 32 slots) with (take 32 (take (length (fullBinary message)) slots))
      by (rewrite take_take; f_equal; lia).
    rewrite Hslots, Hfb. apply take_app_length'. symmetry. exact Hhd. }
  assert (Hbody : take L (drop 32 (alter negb 43 slots))
                  = alter negb 11 (stringToBinary message)).
  { rewrite (drop_alter_ge negb) by lia. replace (43 - 32) with 11 by lia.
    rewrite (take_alter_lt negb) by lia. f_equal.
    rewrite take_drop_commute. rewrite <- Hfblen, Hslots, Hfb.
    apply drop_app_length'. symmetry. exact Hhd. }
  rewrite H32, parseInt2_be_bits_32 by exact Hlen.
  cbn [le0_num gt_num from_option id].
  assert (Hz : (N.of_nat L =? 0)%N = false) by (apply N.eqb_neq; lia).
  assert (Hg : (N.of_nat (length data * 8) <? N.of_nat L)%N = false)
    by (apply N.ltb_ge; lia).
  rewrite Hz, Hg. cbn [orb]. rewrite Nat2N.id, Hbody.
  destruct (stringToBinary_flip c rest 11 Hmsg ltac:(lia)) as [Hflip Hunit].
  change (2 ^ N.of_nat (15 - 11))%N with 16%N in Hflip, Hunit.
  unfold bits in *. fold message in Hflip. rewrite Hflip.
  rewrite binaryToString_stringToBinary by exact Hunit. reflexivity.
Qed.

Lemma decodeAudio_corrupted c rest buffer offset chunkSize x :
  Forall is_byte buffer -> Forall is_unit (c :: rest) ->
  (N.of_nat (16 * length (c :: rest)) < 2 ^ 32)%N ->
  locateData buffer = FoundData offset chunkSize ->
  offset + chunkSize <= length buffer ->
  length (fullBinary (c :: rest)) <= chunkSize ->
  writeAudio (fullBinary (c :: rest)) offset chunkSize buffer !! (offset + 40) = Some x ->
  decodeAudio (<[offset + 40 := flip_wrapped x]>
                 (writeAudio (fullBinary (c :: rest)) offset chunkSize buffer)) None
  = Ok (N.lxor c 128 :: rest).
Proof.
  intros Hbytes Hmsg Hlen Hloc Hfit Hcap Hx.
  set (message := c :: rest) in *.
  set (L := 16 * length message) in *.
  pose proof (fullBinary_be message Hmsg Hlen) as Hfb.
  pose proof (fullBinary_length message Hmsg Hlen) as Hfblen. fold L in Hfb, Hfblen.
  assert (HL : 16 <= L) by (subst L message; cbn [length]; lia).
  set (A := writeAudio (fullBinary message) offset chunkSize buffer) in *.
  assert (HbytesA : Forall is_byte A) by (apply writeAudio_bytes; assumption).
  assert (Hxb : is_byte x)
    by (eapply Forall_lookup in HbytesA; [exact HbytesA|exact Hx]).
  assert (HlenA : length A = length buffer)
    by (apply (writeAudio_spec (fullBinary message) offset chunkSize buffer Hcap Hfit)).
  assert (HlocA : locateData A = FoundData offset chunkSize)
    by (apply writeAudio_locate; assumption).
  set (D := <[offset + 40 := flip_wrapped x]> A).
  assert (HlocD : locateData D = FoundData offset chunkSize).
  { apply (locateData_agree A); [|exact HlocA|].
    - subst D. rewrite length_insert. reflexivity.
    - intros i Hi. apply list_lookup_insert_ne. lia. }
  assert (HfitD : view_fits D offset chunkSize = true).
  { unfold view_fits. subst D. rewrite length_insert, HlenA.
    apply Nat.leb_le. exact Hfit. }
  assert (Hread : readAudio D offset chunkSize 0 (32 + L)
                  = alter negb 40 (fullBinary message)).
  { subst D. rewrite readAudio_flipped by (assumption || lia). f_equal.
    subst A. rewrite readAudio_written by (assumption || lia).
    rewrite drop_0. apply take_ge. lia. }
  pose proof (be_bits_length 32 (N.of_nat L)) as Hhd.
  rewrite readAudio_split, Hfb in Hread.
  unfold bits in *.
  rewrite (alter_app_r_alt negb) in Hread by lia.
  rewrite Hhd in Hread. replace (40 - 32) with 8 in Hread by lia.
  apply app_inj_1 in Hread as [H32 Hbody];
    [|rewrite readAudio_length; symmetry; exact Hhd].
  rewrite (decodeAudio_found _ _ _ _ HlocD HfitD). cbv zeta.
  unfold bits in *. rewrite H32, parseInt2_be_bits_32 by exact Hlen.
  cbn [le0_num gt_num from_option id].
  assert (Hz : (N.of_nat L =? 0)%N = false) by (apply N.eqb_neq; lia).
  assert (Hg : (N.of_nat chunkSize <? N.of_nat L)%N = false)
    by (apply N.ltb_ge; lia).
  rewrite Hz, Hg. cbn [orb]. rewrite Nat2N.id, Hbody.
  destruct (stringToBinary_flip c rest 8 Hmsg ltac:(lia)) as [Hflip Hunit].
  change (2 ^ N.of_nat (15 - 8))%N with 128%N in Hflip, Hunit.
  unfold bits in *. fold message in Hflip. rewrite Hflip.
  rewrite binaryToString_stringToBinary by exact Hunit. reflexivity.
Qed.
End Undetected.

(** Base64 text with one character replaced. *)

Lemma atob_sextets values k :
  Forall is_sextet values -> k <= 2 -> (length values + k) mod 4 = 0 ->
  atob (map b64_char values ++ replicate k equals_sign) = Ok (unsextets values).
Proof.
  intros Hrange Hk Hmod.
  assert (Hne : length values mod 4 <> 1).
  { pose proof (Nat.div_mod_eq (length values + k) 4).
    pose proof (Nat.div_mod_eq (length values) 4).
    pose proof (Nat.mod_upper_bound (length values) 4). lia. }
  unfold atob. cbv zeta.
  rewrite filter_whitespace_encoded by exact Hrange.
  rewrite strip_padding_encoded by assumption.
  rewrite length_map.
  destruct (length values mod 4 =? 1) eqn:H1;
    [apply Nat.eqb_eq in H1; contradiction|].
  rewrite mapM_b64_value by exact Hrange. reflexivity.
Qed.

Lemma unsextets_groups : forall q (vs vs' : list N),
  4 * q <= length vs -> length vs = length vs' ->
  Forall is_sextet vs -> Forall is_sextet vs' ->
  unsextets vs = unsextets vs' -> take (4 * q) vs = take (4 * q) vs'.
Proof.
  induction q as [|q IH]; intros vs vs' Hq Hlen Hvs Hvs' Heq; [reflexivity|].
  destruct vs as [|a [|b [|c [|d T]]]]; try (simpl in Hq; lia).
  destruct vs' as [|a' [|b' [|c' [|d' T']]]]; try (simpl in Hlen; lia).
  cbn [unsextets app] in Heq. injection Heq as Hx Hy Hz Hrest.
  repeat match goal with
         | Hf : Forall is_sextet (_ :: _) |- _ => apply Forall_cons in Hf as [? Hf]
         end.
  unfold is_sextet in *.
  pose proof (N.div_mod' b 16). pose proof (N.mod_upper_bound b 16 ltac:(lia)).
  pose proof (N.div_mod' b' 16). pose proof (N.mod_upper_bound b' 16 ltac:(lia)).
  pose proof (N.div_mod' c 4). pose proof (N.mod_upper_bound c 4 ltac:(lia)).
  pose proof (N.div_mod' c' 4). pose proof (N.mod_upper_bound c' 4 ltac:(lia)).
  assert (b / 16 < 4)%N by (apply N.Div0.div_lt_upper_bound; lia).
  assert (b' / 16 < 4)%N by (apply N.Div0.div_lt_upper_bound; lia).
  assert (c / 4 < 16)%N by (apply N.Div0.div_lt_upper_bound; lia).
  assert (c' / 4 < 16)%N by (apply N.Div0.div_lt_upper_bound; lia).
  replace (4 * S q) with (S (S (S (S (4 * q))))) by lia. cbn [take].
  cbn [length] in Hq, Hlen.
  rewrite (IH T T') by (assumption || lia).
  f_equal; [lia|]. f_equal; [lia|]. f_equal; [lia|]. f_equal. lia.
Qed.

Lemma b64_char_A v : is_sextet v -> b64_char v = 65%N -> v = 0%N.
Proof.
  intros Hv Heq. destruct (b64_char_facts v Hv) as (Hval & _).
  rewrite Heq in Hval. vm_compute in Hval. congruence.
Qed.

Lemma map_insert {A B} (f : A -> B) (l : list A) i x :
  map f (<[i := x]> l) = <[i := f x]> (map f l).
Proof.
  revert i. induction l as [|y l IH]; intros [|i]; cbn; try reflexivity.
  f_equal. apply IH.
Qed.

Section UndetectedPdf.
Context `{Platform}.

Lemma decodePdf_corrupted pdfDoc message payload :
  btoa message = Ok payload -> 6 < length message ->
  exists text,
    decodePdf (corruptPdf (setSubject pdfDoc (flag ++ payload))) None = Ok text
    /\ text <> message.
Proof.
  intros Hb Hlong.
  assert (Hs : Forall is_latin1 message).
  { unfold btoa in Hb. destruct (forallb _ message) eqn:Hall; [|discriminate].
    rewrite forallb_forall in Hall. apply Forall_forall. intros ch Hch.
    apply N.leb_le, Hall, list_elem_of_In. exact Hch. }
  assert (Hpayload : payload
                     = map b64_char (sextets message)
                       ++ replicate ((3 - length message mod 3) mod 3) equals_sign).
  { rewrite btoa_latin1 in Hb by exact Hs. congruence. }
  clear Hb. subst payload.
  pose proof (sextets_range message Hs) as Hrange.
  set (vs := sextets message) in *.
  set (k := (3 - length message mod 3) mod 3).
  set (idx := (length vs + k) / 2).
  assert (Hk : k <= 2 /\ (length vs + k) mod 4 = 0
               /\ exists q, 4 * q <= length vs /\ idx < 4 * q
                            /\ 10 < length vs + k).
  { destruct (sextets_length message) as [q Hq]. fold vs in Hq. subst k idx.
    pose proof (Nat.div_mod_eq (length message) 3).
    pose proof (Nat.mod_upper_bound (length message) 3).
    pose proof (Nat.div_mod_eq (3 - length message mod 3) 3).
    pose proof (Nat.mod_upper_bound (3 - length message mod 3) 3).
    pose proof (Nat.div_mod_eq (length vs + (3 - length message mod 3) mod 3) 4).
    pose proof (Nat.mod_upper_bound (length vs + (3 - length message mod 3) mod 3) 4).
    pose proof (Nat.div_mod_eq (length vs + (3 - length message mod 3) mod 3) 2).
    pose proof (Nat.mod_upper_bound (length vs + (3 - length message mod 3) mod 3) 2).
    split; [|split]; [| |exists q]; destruct Hq as [[? ?]|[[? ?]|[? ?]]]; lia. }
  destruct Hk as (Hk & Hmod & q & Hq & Hidx & Hten).
  assert (Hin : idx < length vs) by lia.
  destruct (lookup_lt_is_Some_2 vs idx Hin) as [v Hv].
  assert (Hvs : is_sextet v)
    by (eapply Forall_lookup in Hrange; [exact Hrange|exact Hv]).
  set (v' := if decide (v = 0%N) then 1%N else 0%N).
  assert (Hv' : is_sextet v' /\ v' <> v).
  { subst v'. unfold is_sextet. destruct (decide (v = 0%N)); split; lia. }
  destruct Hv' as [Hv's Hdiff].
  set (raw := map b64_char vs ++ replicate k equals_sign).
  assert (Hraw : length raw = length vs + k).
  { subst raw. rewrite length_app, length_map, length_replicate. reflexivity. }
  assert (Hchar : raw !! idx = Some (b64_char v)).
  { subst raw. rewrite lookup_app_l by (rewrite length_map; lia).
    change (map b64_char vs) with (b64_char <$> vs).
    rewrite list_lookup_fmap, Hv. reflexivity. }
  assert (Hcor : corruptPdf (setSubject pdfDoc (flag ++ raw))
                 = setSubject (setSubject pdfDoc (flag ++ raw))
                     (flag ++ map b64_char (<[idx := v']> vs)
                           ++ replicate k equals_sign)).
  { rewrite (corruptPdf_flagged _ raw) by reflexivity.
    assert (H10 : (10 <? length raw) = true) by (apply Nat.ltb_lt; lia).
    rewrite H10, Hraw. fold idx. rewrite Hchar. f_equal. f_equal.
    assert (Hnew : (if bool_decide (Some (b64_char v) = Some 65%N) then 66%N else 65%N)
                   = b64_char v').
    { subst v'. destruct (decide (v = 0%N)) as [->|Hne].
      - reflexivity.
      - rewrite bool_decide_eq_false_2; [reflexivity|].
        intros [= Heq]. apply Hne. apply b64_char_A; assumption. }
    rewrite Hnew. subst raw. rewrite insert_app_l by (rewrite length_map; lia).
    rewrite map_insert. reflexivity. }
  exists (unsextets (<[idx := v']> vs)). split.
  - rewrite Hcor. rewrite (decodePdf_flagged _ _ (map b64_char (<[idx := v']> vs)
                                                  ++ replicate k equals_sign))
      by reflexivity.
    rewrite atob_sextets.
    + reflexivity.
    + apply Forall_insert; assumption.
    + exact Hk.
    + rewrite length_insert. exact Hmod.
  - intros Heq0.
    assert (Heq : unsextets (<[idx := v']> vs) = unsextets vs)
      by (rewrite Heq0; symmetry; apply unsextets_sextets; exact Hs).
    apply (unsextets_groups q) in Heq.
    + apply (f_equal (fun l => l !! idx)) in Heq.
      rewrite !lookup_take_lt in Heq by lia.
      rewrite list_lookup_insert_eq in Heq by lia. congruence.
    + rewrite length_insert. exact Hq.
    + apply length_insert.
    + apply Forall_insert; assumption.
    + exact Hrange.
Qed.

(** X11: without a password nothing detects the simulated tampering.
    For a message that starts with the character [c]: decoding a corrupted
    image artifact succeeds and returns the message with [c] replaced by
    [c xor 16]; decoding a corrupted audio artifact (data chunk above 50
    bytes) succeeds and returns it with [c] replaced by [c xor 128]; decoding
    a corrupted PDF artifact (message of at least 7 characters) succeeds and
    returns a text other than the message.  No error is raised in any of the
    three cases. *)
Theorem tamper_undetected_without_password c rest salt iv :
  Forall is_unit (c :: rest) ->
  (N.of_nat (16 * length (c :: rest)) < 2 ^ 32)%N ->
  (forall data artifact buffer,
     Forall is_byte data ->
     encodeImage data (c :: rest) None salt iv = (Ok artifact, buffer) ->
     decodeImage (corruptImage artifact) None = Ok (N.lxor c 16 :: rest))
  /\ (forall arrayBuffer offset chunkSize artifact buffer corrupted,
        Forall is_byte arrayBuffer ->
        locateData arrayBuffer = FoundData offset chunkSize -> 50 < chunkSize ->
        encodeAudio arrayBuffer (c :: rest) None salt iv = (Ok artifact, buffer) ->
        corruptAudio artifact = Ok corrupted ->
        decodeAudio corrupted None = Ok (N.lxor c 128 :: rest))
  /\ (forall pdfDoc artifact,
        6 < length (c :: rest) ->
        encodePdf pdfDoc (c :: rest) None salt iv = Ok artifact ->
        exists text,
          decodePdf (corruptPdf artifact) None = Ok text /\ text <> c :: rest)
  /\ N.lxor c 16 <> c /\ N.lxor c 128 <> c.
Proof.
  intros Hmsg Hlen. split; [|split; [|split; [|split]]].
  - intros data artifact buffer Hdata Henc.
    destruct (encodeImage_Ok data (c :: rest) None salt iv (c :: rest) artifact buffer
                eq_refl Henc) as [-> Hcap].
    apply decodeImage_corrupted; assumption.
  - intros arrayBuffer offset chunkSize artifact buffer corrupted
           Hbytes Hloc H50 Henc Hcor.
    destruct (encodeAudio_Ok arrayBuffer (c :: rest) None salt iv (c :: rest)
                offset chunkSize artifact buffer eq_refl Hloc Henc)
      as (Hfit & -> & Hcap).
    pose proof Hfit as Hfit'. apply Nat.leb_le in Hfit'.
    destruct (writeAudio_spec (fullBinary (c :: rest)) offset chunkSize arrayBuffer
                Hcap Hfit') as (HlenA & _ & _).
    assert (HlocA : locateData (writeAudio (fullBinary (c :: rest)) offset chunkSize
                                           arrayBuffer)
                    = FoundData offset chunkSize)
      by (apply writeAudio_locate; assumption).
    assert (HfitA : view_fits (writeAudio (fullBinary (c :: rest)) offset chunkSize
                                          arrayBuffer) offset chunkSize = true)
      by (unfold view_fits; rewrite HlenA; exact Hfit).
    destruct (lookup_lt_is_Some_2
                (writeAudio (fullBinary (c :: rest)) offset chunkSize arrayBuffer)
                (offset + 40) ltac:(lia)) as [x Hx].
    rewrite (corruptAudio_found _ _ _ HlocA HfitA) in Hcor.
    assert (H50' : (50 <? chunkSize) = true) by (apply Nat.ltb_lt; exact H50).
    rewrite H50' in Hcor.
    rewrite (samples_flip _ _ _ x) in Hcor by (lia || exact Hx).
    injection Hcor as <-.
    apply decodeAudio_corrupted; assumption.
  - intros pdfDoc artifact Hlong Henc.
    unfold encodePdf in Henc.
    destruct (btoa (c :: rest)) as [payload|e] eqn:Hb; [|discriminate].
    simpl in Henc. injection Henc as <-.
    apply decodePdf_corrupted; assumption.
  - change 16%N with (2 ^ 4)%N. apply lxor_pow2_neq.
  - change 128%N with (2 ^ 7)%N. apply lxor_pow2_neq.
Qed.
End UndetectedPdf.

Lemma tamper_undetected_without_password_witness :
  decodeImage (H := test_platform)
    (corruptImage (writeImage (fullBinary (lit "hi")) (blank_image 40))) None
  = Ok (lit "xi").
Proof.
  destruct (tamper_undetected_without_password (H := test_platform)
              104%N (lit "i") [] []) as (Himage & _).
  - by_evaluation.
  - vm_compute. reflexivity.
  - apply (Himage (blank_image 40) (writeImage (fullBinary (lit "hi")) (blank_image 40))
                  (writeImage (fullBinary (lit "hi")) (blank_image 40))).
    + by_evaluation.
    + vm_compute. reflexivity.
Defined.

(** ** The size of what a decoder returns *)

Lemma slots_from_length data : forall i,
  length (slots_from i data) + (i + length data) / 4 = length data + i / 4.
Proof.
  induction data as [|x rest IH]; intros i.
  - cbn [slots_from length]. rewrite Nat.add_0_r. lia.
  - cbn [slots_from length].
    pose proof (IH (S i)) as IHi.
    replace (i + S (length rest)) with (S i + length rest) by lia.
    pose proof (Nat.div_mod_eq i 4). pose proof (Nat.mod_upper_bound i 4 ltac:(lia)).
    pose proof (Nat.div_mod_eq (S i) 4).
    pose proof (Nat.mod_upper_bound (S i) 4 ltac:(lia)).
    destruct (isAlpha i) eqn:Ha.
    + apply isAlpha_spec in Ha. lia.
    + assert (i mod 4 <> 3) by (rewrite <- isAlpha_spec; congruence).
      cbn [length]. lia.
Qed.

Lemma binaryToString_length binary :
  length (binaryToString binary) = (length binary + 15) / 16.
Proof. rewrite binaryToString_groups. apply b2s_groups_length. lia. Qed.

Lemma binaryToString_unit binary : Forall is_unit (binaryToString binary).
Proof. rewrite binaryToString_groups. apply b2s_groups_unit. Qed.

Section TextSize.
Context `{Platform}.

Lemma decodeAudio_declared arrayBuffer offset chunkSize declared :
  locateData arrayBuffer = FoundData offset chunkSize ->
  view_fits arrayBuffer offset chunkSize = true ->
  parseInt2 (readAudio arrayBuffer offset chunkSize 0 32) = Some declared ->
  decodeAudio arrayBuffer None
  = if (declared =? 0)%N || (N.of_nat chunkSize <? declared)%N
    then Throw (Error MSG_NO_HIDDEN_AUDIO)
    else Ok (binaryToString
               (readAudio arrayBuffer offset chunkSize 32 (N.to_nat declared))).
Proof.
  intros Hloc Hfit Hparse.
  rewrite (decodeAudio_found _ _ _ _ Hloc Hfit). cbv zeta. rewrite Hparse.
  reflexivity.
Qed.

(** X12: how long the text is that a decoder returns without a
    password.  An image of [n] bytes has [n - n / 4] slots; [decodeImage]
    returns as many characters as the declared bit count and the slots after
    the header allow, whichever is smaller, in groups of 16 rounded up, so
    never more than the carrier holds, and the empty text on an empty
    buffer.  [decodeAudio] returns the declared bit count in groups of 16
    rounded up, whatever the chunk holds after the header.  Every character
    returned is a 16-bit code unit. *)
Theorem decoded_text_size text :
  (forall data,
     decodeImage data None = Ok text ->
     let slots := slots_from 0 data in
     Forall is_unit text
     /\ length slots = length data - length data / 4
     /\ 16 * length text <= length slots - 32 + 15
     /\ match parseInt2 (take 32 slots) with
        | Some declared =>
            (0 < declared <= N.of_nat (length data * 8))%N
            /\ length text
               = (Nat.min (N.to_nat declared) (length slots - 32) + 15) / 16
        | None => data = [] /\ text = []
        end)
  /\ (forall arrayBuffer,
        decodeAudio arrayBuffer None = Ok text ->
        Forall is_unit text
        /\ exists offset chunkSize declared,
             locateData arrayBuffer = FoundData offset chunkSize
             /\ offset + chunkSize <= length arrayBuffer
             /\ parseInt2 (readAudio arrayBuffer offset chunkSize 0 32) = Some declared
             /\ (0 < declared <= N.of_nat chunkSize)%N
             /\ length text = (N.to_nat declared + 15) / 16).
Proof.
  split.
  - intros data Hdec slots.
    assert (Hslots : length slots = length data - length data / 4).
    { pose proof (slots_from_length data 0) as Hl. fold slots in Hl.
      cbn [Nat.add] in Hl. rewrite (Nat.div_small 0 4) in Hl by lia.
      pose proof (Nat.div_mod_eq (length data) 4). lia. }
    rewrite decodeImage_plain in Hdec. cbv zeta in Hdec. fold slots in Hdec.
    destruct (parseInt2 (take 32 slots)) as [declared|] eqn:Hparse.
    + cbn [le0_num gt_num from_option id] in Hdec.
      destruct (declared =? 0)%N eqn:Hz; [discriminate|].
      destruct (N.of_nat (length data * 8) <? declared)%N eqn:Hg; [discriminate|].
      cbn [orb] in Hdec. injection Hdec as <-.
      apply N.eqb_neq in Hz. apply N.ltb_ge in Hg.
      assert (Hlen : length (binaryToString (take (N.to_nat declared) (drop 32 slots)))
                     = (Nat.min (N.to_nat declared) (length slots - 32) + 15) / 16).
      { rewrite binaryToString_length. unfold bits in *.
        rewrite length_take, length_drop. reflexivity. }
      split; [apply binaryToString_unit|]. split; [exact Hslots|].
      split; [|split; [lia|exact Hlen]].
      rewrite Hlen.
      pose proof (Nat.div_mod_eq
                    (Nat.min (N.to_nat declared) (length slots - 32) + 15) 16).
      lia.
    + assert (Hnil : data = []).
      { destruct data as [|x rest]; [reflexivity|].
        subst slots. cbn in Hparse. discriminate. }
      subst data. vm_compute in Hdec. injection Hdec as <-.
      split; [constructor|]. split; [reflexivity|].
      split; [cbn; lia|]. split; reflexivity.
  - intros arrayBuffer Hdec.
    assert (Hfound : exists offset chunkSize,
              locateData arrayBuffer = FoundData offset chunkSize
              /\ view_fits arrayBuffer offset chunkSize = true).
    { rewrite decodeAudio_outcome in Hdec.
      destruct (locateData arrayBuffer) as [offset chunkSize|e|]; try discriminate.
      destruct (view_fits arrayBuffer offset chunkSize) eqn:Hfit;
        [eauto|discriminate]. }
    destruct Hfound as (offset & chunkSize & Hloc & Hfit).
    assert (Hne : readAudio arrayBuffer offset chunkSize 0 32 <> []).
    { intros Hnil. apply (f_equal length) in Hnil.
      rewrite readAudio_length in Hnil. discriminate Hnil. }
    pose proof (parseInt2_value _ Hne) as Hparse.
    set (declared := bits_value (readAudio arrayBuffer offset chunkSize 0 32)) in *.
    pose proof (decodeAudio_declared _ _ _ _ Hloc Hfit Hparse) as Hcase.
    rewrite Hdec in Hcase. clear Hdec.
    destruct (declared =? 0)%N eqn:Hz; [discriminate|].
    destruct (N.of_nat chunkSize <? declared)%N eqn:Hg; [discriminate|].
    cbn [orb] in Hcase. injection Hcase as ->.
    apply N.eqb_neq in Hz. apply N.ltb_ge in Hg. apply Nat.leb_le in Hfit.
    split; [apply binaryToString_unit|].
    exists offset, chunkSize, declared.
    split; [exact Hloc|]. split; [exact Hfit|]. split; [exact Hparse|].
    split; [lia|].
    rewrite binaryToString_length, readAudio_length. reflexivity.
Qed.
End TextSize.

Lemma decoded_text_size_witness :
  16 * length [65535%N] <= length (slots_from 0 short_image) - 32 + 15.
Proof.
  assert (Hdec : decodeImage (H := test_platform) short_image None = Ok [65535%N])
    by (vm_compute; reflexivity).
  destruct (proj1 (decoded_text_size (H := test_platform) [65535%N]) short_image Hdec)
    as (_ & _ & Hbound & _).
  exact Hbound.
Defined.

(** ** The simulated attack on a protected image or audio artifact *)

Section TamperedEnvelope.
Context `{Platform}.

Lemma decryptMessage_unparsed text password e :
  JSON_parse text = Throw e ->
  decryptMessage text password = Throw (Error MSG_DECRYPT_FAILED).
Proof.
  intros Hparse.
  apply (decryptMessage_generic _ _ (Error MSG_INVALID_PAYLOAD)); [|discriminate].
  unfold decryptMessage_try. rewrite Hparse. reflexivity.
Qed.

(** X13: on a protected image or audio artifact the simulated attack
    never reaches the authentication tag.  The envelope text starts with an
    opening brace; the flipped bit lies in that first character, which is
    read back as [k] from an image and as code unit 251 from an audio file.
    On a host whose [JSON.parse] rejects the altered text, decoding the
    corrupted artifact with the right password fails with the generic
    "Decryption failed" error, not with the integrity error. *)
Theorem tamper_on_protected_artifact message c p salt iv envelope :
  encryptMessage message (c :: p) salt iv = Ok envelope ->
  (N.of_nat (16 * length envelope) < 2 ^ 32)%N ->
  exists rest,
    envelope = 123%N :: rest
    /\ (forall e data artifact buffer,
          JSON_parse (107%N :: rest) = Throw e ->
          Forall is_byte data ->
          encodeImage data message (Some (c :: p)) salt iv = (Ok artifact, buffer) ->
          decodeImage (corruptImage artifact) None = Ok (107%N :: rest)
          /\ decodeImage (corruptImage artifact) (Some (c :: p))
             = Throw (Error MSG_DECRYPT_FAILED))
    /\ (forall e arrayBuffer offset chunkSize artifact buffer corrupted,
          JSON_parse (251%N :: rest) = Throw e ->
          Forall is_byte arrayBuffer ->
          locateData arrayBuffer = FoundData offset chunkSize -> 50 < chunkSize ->
          encodeAudio arrayBuffer message (Some (c :: p)) salt iv
          = (Ok artifact, buffer) ->
          corruptAudio artifact = Ok corrupted ->
          decodeAudio corrupted None = Ok (251%N :: rest)
          /\ decodeAudio corrupted (Some (c :: p))
             = Throw (Error MSG_DECRYPT_FAILED)).
Proof.
  intros Henc Hlen.
  pose proof (encryptMessage_ascii _ _ _ _ _ Henc) as Hascii.
  pose proof (ascii_unit _ Hascii) as Hunit.
  destruct (encryptMessage_Ok _ _ _ _ _ Henc) as (pk & k & ct & _ & _ & _ & Henv).
  assert (Hrest : exists rest, envelope = 123%N :: rest)
    by (rewrite Henv; unfold stringify_bundle; cbn [lit list_ascii_of_string map app];
        eauto).
  destruct Hrest as [rest ->]. exists rest. split; [reflexivity|].
  assert (Hfinal : finalMessageOf message (Some (c :: p)) salt iv = Ok (123%N :: rest))
    by exact Henc.
  split.
  - intros e data artifact buffer Hparse Hdata Hencode.
    destruct (encodeImage_Ok _ _ _ _ _ _ _ _ Hfinal Hencode) as [-> Hcap].
    pose proof (decodeImage_corrupted 123%N rest data Hdata Hunit Hlen Hcap) as Hplain.
    change (N.lxor 123 16) with 107%N in Hplain.
    split; [exact Hplain|].
    rewrite decodeImage_password, Hplain. simpl.
    eapply decryptMessage_unparsed. exact Hparse.
  - intros e arrayBuffer offset chunkSize artifact buffer corrupted
           Hparse Hbytes Hloc H50 Hencode Hcor.
    destruct (encodeAudio_Ok _ _ _ _ _ _ _ _ _ _ Hfinal Hloc Hencode)
      as (Hfit & -> & Hcap).
    pose proof Hfit as Hfit'. apply Nat.leb_le in Hfit'.
    destruct (writeAudio_spec (fullBinary (123%N :: rest)) offset chunkSize arrayBuffer
                Hcap Hfit') as (HlenA & _ & _).
    assert (HlocA : locateData (writeAudio (fullBinary (123%N :: rest)) offset chunkSize
                                           arrayBuffer)
                    = FoundData offset chunkSize)
      by (apply writeAudio_locate; assumption).
    assert (HfitA : view_fits (writeAudio (fullBinary (123%N :: rest)) offset chunkSize
                                          arrayBuffer) offset chunkSize = true)
      by (unfold view_fits; rewrite HlenA; exact Hfit).
    assert (H40 : offset + 40
                  < length (writeAudio (fullBinary (123%N :: rest)) offset chunkSize
                                       arrayBuffer)) by lia.
    destruct (lookup_lt_is_Some_2 _ _ H40) as [x Hx].
    rewrite (corruptAudio_found _ _ _ HlocA HfitA) in Hcor.
    assert (H50' : (50 <? chunkSize) = true) by (apply Nat.ltb_lt; exact H50).
    rewrite H50' in Hcor.
    rewrite (samples_flip _ _ _ x) in Hcor by (lia || exact Hx).
    injection Hcor as <-.
    pose proof (decodeAudio_corrupted 123%N rest arrayBuffer offset chunkSize x
                  Hbytes Hunit Hlen Hloc Hfit' Hcap Hx) as Hplain.
    change (N.lxor 123 128) with 251%N in Hplain.
    split; [exact Hplain|].
    rewrite decodeAudio_password, Hplain. simpl.
    eapply decryptMessage_unparsed. exact Hparse.
Qed.
End TamperedEnvelope.

Lemma tamper_on_protected_artifact_witness :
  decodeImage (H := test_platform)
    (corruptImage
       (writeImage (fullBinary (stringify_bundle [1; 2] [3; 4] [82; 83; 194])%Z)
                   (blank_image 400)))
    (Some (lit "pw"))
  = Throw (Error MSG_DECRYPT_FAILED).
Proof.
  destruct (tamper_on_protected_artifact (H := test_platform) (lit "hi")
              112%N (lit "w") [1; 2]%Z [3; 4]%Z
              (stringify_bundle [1; 2] [3; 4] [82; 83; 194])%Z)
    as (rest & Henv & Himage & _).
  - vm_compute. reflexivity.
  - vm_compute. reflexivity.
  - injection Henv as <-.
    apply (Himage (mkError "SyntaxError" "Unexpected token") (blank_image 400)
                  (writeImage (fullBinary (stringify_bundle [1; 2] [3; 4] [82; 83; 194])%Z)
                              (blank_image 400))
                  (writeImage (fullBinary (stringify_bundle [1; 2] [3; 4] [82; 83; 194])%Z)
                              (blank_image 400))).
    + vm_compute. reflexivity.
    + by_evaluation.
    + vm_compute. reflexivity.
Defined.

(** ** An unprotected artifact read with a password *)

Section UnprotectedWithPassword.
Context `{Platform}.

Lemma decryptMessage_malformed text password :
  malformed_envelope text ->
  decryptMessage text password = Throw (Error MSG_DECRYPT_FAILED).
Proof.
  intros Hmal.
  assert (Htry : exists e, decryptMessage_try text password = Throw e
                           /\ err_name e <> "OperationError").
  { unfold malformed_envelope in Hmal. unfold decryptMessage_try.
    destruct (JSON_parse text) as [bundle|e0]; cbn [try_catch mbind Result_bind].
    - destruct bundle as [| |b|n| |s|items|fields]; cbn [get_prop mbind Result_bind] in *;
        try (eexists; split; [reflexivity|]; discriminate).
      destruct (truthy (assoc (lit "s") fields)),
               (truthy (assoc (lit "iv") fields)),
               (truthy (assoc (lit "d") fields));
        cbn [negb orb andb] in *; try discriminate;
        eexists; split; try reflexivity; discriminate.
    - eexists. split; [reflexivity|]. discriminate. }
  destruct Htry as (e & Htry & He).
  apply (decryptMessage_generic _ _ _ Htry He).
Qed.

(** X14: an artifact encoded without a password and decoded with one.
    When the message is not itself an envelope (the parser rejects it, or it
    parses to a value without usable [s], [iv] and [d]), the three decoders
    fail with the generic "Decryption failed" error: the hidden text is there
    and is read, but the caller does not get it. *)
Theorem unprotected_artifact_with_password message c p salt iv :
  Forall is_unit message -> message <> [] ->
  (N.of_nat (16 * length message) < 2 ^ 32)%N ->
  malformed_envelope message ->
  (forall data,
     Forall is_byte data -> 4 * (32 + 16 * length message) <= 3 * length data ->
     exists artifact,
       encodeImage data message None salt iv = (Ok artifact, artifact)
       /\ decodeImage artifact None = Ok message
       /\ decodeImage artifact (Some (c :: p)) = Throw (Error MSG_DECRYPT_FAILED))
  /\ (forall arrayBuffer offset chunkSize,
        Forall is_byte arrayBuffer ->
        locateData arrayBuffer = FoundData offset chunkSize ->
        view_fits arrayBuffer offset chunkSize = true ->
        32 + 16 * length message <= chunkSize ->
        exists artifact,
          encodeAudio arrayBuffer message None salt iv = (Ok artifact, artifact)
          /\ decodeAudio artifact None = Ok message
          /\ decodeAudio artifact (Some (c :: p)) = Throw (Error MSG_DECRYPT_FAILED))
  /\ (forall pdfDoc artifact,
        encodePdf pdfDoc message None salt iv = Ok artifact ->
        decodePdf artifact None = Ok message
        /\ decodePdf artifact (Some (c :: p)) = Throw (Error MSG_DECRYPT_FAILED)).
Proof.
  intros Hunit Hne Hlen Hmal.
  pose proof (decryptMessage_malformed message (c :: p) Hmal) as Hfail.
  assert (Hframe : length (fullBinary message) = 32 + 16 * length message)
    by (apply fullBinary_length; assumption).
  split; [|split].
  - intros data Hdata Hcap.
    exists (writeImage (fullBinary message) data).
    rewrite encodeImage_plain.
    assert (Hex : exceedsImage (length (fullBinary message)) (length data) = false)
      by (apply exceedsImage_false; lia).
    rewrite Hex. split; [reflexivity|].
    rewrite !decodeImage_embedded by (assumption || lia).
    split; [reflexivity|exact Hfail].
  - intros arrayBuffer offset chunkSize Hbytes Hloc Hfit Hcap.
    exists (writeAudio (fullBinary message) offset chunkSize arrayBuffer).
    rewrite (encodeAudio_found _ _ _ _ _ _ _ Hloc Hfit).
    cbn [finalMessageOf].
    assert (Hlt : (chunkSize <? length (fullBinary message)) = false)
      by (apply Nat.ltb_ge; lia).
    rewrite Hlt. split; [reflexivity|].
    rewrite !decodeAudio_written by (assumption || lia).
    split; [reflexivity|exact Hfail].
  - intros pdfDoc artifact Henc. unfold encodePdf in Henc.
    destruct (btoa message) as [payload|e] eqn:Hb; [|discriminate].
    simpl in Henc. injection Henc as <-.
    rewrite !(decodePdf_flagged _ _ payload) by reflexivity.
    rewrite (atob_btoa _ _ Hb). split; [reflexivity|exact Hfail].
Qed.
End UnprotectedWithPassword.

Lemma unprotected_artifact_with_password_witness :
  exists artifact,
    encodeImage (H := test_platform) (blank_image 40) (lit "hi") None [] []
    = (Ok artifact, artifact)
    /\ decodeImage (H := test_platform) artifact None = Ok (lit "hi")
    /\ decodeImage (H := test_platform) artifact (Some (lit "pw"))
       = Throw (Error MSG_DECRYPT_FAILED).
Proof.
  assert (Hu : Forall is_unit (lit "hi")) by by_evaluation.
  assert (Hne : lit "hi" <> []) by discriminate.
  assert (Hlen : (N.of_nat (16 * length (lit "hi")) < 2 ^ 32)%N)
    by (vm_compute; reflexivity).
  assert (Hmal : malformed_envelope (H := test_platform) (lit "hi"))
    by (vm_compute; exact I).
  destruct (unprotected_artifact_with_password (H := test_platform) (lit "hi")
              112%N (lit "w") [] [] Hu Hne Hlen Hmal) as (Himage & _).
  assert (Hbytes : Forall is_byte (blank_image 40)) by by_evaluation.
  assert (Hcap : 4 * (32 + 16 * length (lit "hi")) <= 3 * length (blank_image 40))
    by (vm_compute; lia).
  exact (Himage (blank_image 40) Hbytes Hcap).
Defined.

(** ** The capacity boundary *)

Section CapacityBoundary.
Context `{Platform}.

(** C4: whatever text is framed (the message, or its envelope when a password
    is given), a frame of 32 header bits and 16 bits per character that is
    longer than the capacity (3/4 of the channel bytes of an image, the size
    of the data chunk of an audio file) makes the encoder throw the capacity
    error and leave the buffer as it was; a frame exactly as long as the
    capacity is encoded, and then the carrier holds it: the slots of the
    image, and the last bits of the samples of the data chunk, are exactly
    the frame, nothing outside the chunk has changed, and the decoder reads
    the framed text back. *)
Theorem capacity_boundary message password salt iv finalMessage :
  finalMessageOf message password salt iv = Ok finalMessage ->
  Forall is_unit finalMessage ->
  (forall data,
     3 * length data < 4 * (32 + 16 * length finalMessage) ->
     encodeImage data message password salt iv
     = (Throw (Error (MSG_CAPACITY_IMAGE (length (fullBinary finalMessage))
                                         (3 * length data / 4))), data))
  /\ (forall data,
        (N.of_nat (16 * length finalMessage) < 2 ^ 32)%N ->
        4 * (32 + 16 * length finalMessage) = 3 * length data ->
        exists data',
          encodeImage data message password salt iv = (Ok data', data')
          /\ length data' = length data
          /\ (Forall is_byte data ->
              slots_from 0 data' = fullBinary finalMessage
              /\ rd_text (readImage data'
                                    (Some (N.of_nat (length (fullBinary finalMessage))))
                                    0)
                 = fullBinary finalMessage
              /\ (finalMessage <> [] ->
                  decodeImage data' password
                  = decryptIfNeeded finalMessage password)))
  /\ (forall arrayBuffer offset chunkSize,
        locateData arrayBuffer = FoundData offset chunkSize ->
        view_fits arrayBuffer offset chunkSize = true ->
        chunkSize < 32 + 16 * length finalMessage ->
        encodeAudio arrayBuffer message password salt iv
        = (Throw (Error MSG_CAPACITY_AUDIO), arrayBuffer))
  /\ (forall arrayBuffer offset chunkSize,
        locateData arrayBuffer = FoundData offset chunkSize ->
        view_fits arrayBuffer offset chunkSize = true ->
        (N.of_nat (16 * length finalMessage) < 2 ^ 32)%N ->
        32 + 16 * length finalMessage = chunkSize ->
        exists buffer',
          encodeAudio arrayBuffer message password salt iv = (Ok buffer', buffer')
          /\ length buffer' = length arrayBuffer
          /\ (forall j, j < offset \/ offset + chunkSize <= j ->
                        buffer' !! j = arrayBuffer !! j)
          /\ (Forall is_byte arrayBuffer ->
              readAudio buffer' offset chunkSize 0 chunkSize
              = fullBinary finalMessage
              /\ (finalMessage <> [] ->
                  decodeAudio buffer' password
                  = decryptIfNeeded finalMessage password))).
Proof.
  intros Hfinal Hmsg.
  pose proof (fullBinary_length_ge finalMessage Hmsg) as Hge.
  split; [|split; [|split]].
  - intros data Hover. rewrite (encodeImage_final _ _ _ _ _ _ Hfinal).
    assert (Hex : exceedsImage (length (fullBinary finalMessage)) (length data) = true)
      by (apply exceedsImage_true; lia).
    rewrite Hex. reflexivity.
  - intros data Hlen Heq.
    pose proof (fullBinary_length finalMessage Hmsg Hlen) as Hframe.
    rewrite (encodeImage_final _ _ _ _ _ _ Hfinal).
    assert (Hex : exceedsImage (length (fullBinary finalMessage)) (length data) = false)
      by (apply exceedsImage_false; lia).
    rewrite Hex. exists (writeImage (fullBinary finalMessage) data).
    assert (Hsame : length (writeImage (fullBinary finalMessage) data) = length data)
      by (rewrite writeImage_embed; apply embed_from_length).
    split; [reflexivity|]. split; [exact Hsame|].
    intros Hdata.
    assert (Hcap : 4 * length (fullBinary finalMessage) <= 3 * length data) by lia.
    pose proof (slots_written data (fullBinary finalMessage) Hdata Hcap) as Htake.
    assert (Hslots : slots_from 0 (writeImage (fullBinary finalMessage) data)
                     = fullBinary finalMessage).
    { rewrite <- Htake at 2. symmetry. apply take_ge.
      pose proof (slots_from_length (writeImage (fullBinary finalMessage) data) 0) as Hl.
      cbn [Nat.add] in Hl. rewrite (Nat.div_small 0 4) in Hl by lia.
      rewrite Hsame in Hl.
      pose proof (Nat.div_mod_eq (length data) 4).
      pose proof (Nat.mod_upper_bound (length data) 4 ltac:(lia)). lia. }
    split; [exact Hslots|]. split.
    + rewrite readImage_slots, Nat2N.id, Hslots. apply take_ge. lia.
    + intros Hne. apply decodeImage_embedded; assumption.
  - intros arrayBuffer offset chunkSize Hloc Hfit Hover.
    rewrite (encodeAudio_found _ _ _ _ _ _ _ Hloc Hfit), Hfinal.
    assert (Hlt : (chunkSize <? length (fullBinary finalMessage)) = true)
      by (apply Nat.ltb_lt; lia).
    rewrite Hlt. reflexivity.
  - intros arrayBuffer offset chunkSize Hloc Hfit Hlen Heq.
    pose proof (fullBinary_length finalMessage Hmsg Hlen) as Hframe.
    rewrite (encodeAudio_found _ _ _ _ _ _ _ Hloc Hfit), Hfinal.
    assert (Hlt : (chunkSize <? length (fullBinary finalMessage)) = false)
      by (apply Nat.ltb_ge; lia).
    rewrite Hlt.
    exists (writeAudio (fullBinary finalMessage) offset chunkSize arrayBuffer).
    assert (Hcap : length (fullBinary finalMessage) <= chunkSize) by lia.
    pose proof Hfit as Hfit'. apply Nat.leb_le in Hfit'.
    destruct (writeAudio_spec (fullBinary finalMessage) offset chunkSize arrayBuffer
                Hcap Hfit') as (Hsame & _ & Hout).
    split; [reflexivity|]. split; [exact Hsame|]. split.
    { intros j Hj. apply Hout. lia. }
    intros Hbytes. split.
    + rewrite readAudio_written by (assumption || lia).
      rewrite drop_0. apply take_ge. lia.
    + intros Hne. apply decodeAudio_written; assumption.
Qed.
End CapacityBoundary.

Lemma capacity_boundary_witness :
  (exists data',
     encodeImage (H := test_platform) (blank_image 16) (lit "h") None [] []
     = (Ok data', data')
     /\ slots_from 0 data' = fullBinary (lit "h")
     /\ decodeImage (H := test_platform) data' None = Ok (lit "h"))
  /\ encodeImage (H := test_platform) (blank_image 15) (lit "h") None [] []
     = (Throw (Error (MSG_CAPACITY_IMAGE 48 45)), blank_image 15)
  /\ (exists buffer',
        encodeAudio (H := test_platform) (wav_file (replicate 48 128%Z))
                    (lit "h") None [] [] = (Ok buffer', buffer')
        /\ readAudio buffer' 20 48 0 48 = fullBinary (lit "h")
        /\ decodeAudio (H := test_platform) buffer' None = Ok (lit "h"))
  /\ encodeAudio (H := test_platform) (wav_file (replicate 47 128%Z)) (lit "h") None [] []
     = (Throw (Error MSG_CAPACITY_AUDIO), wav_file (replicate 47 128%Z)).
Proof.
  assert (Hu : Forall is_unit (lit "h")) by by_evaluation.
  assert (Hbound : (N.of_nat (16 * length (lit "h")) < 2 ^ 32)%N)
    by (vm_compute; reflexivity).
  assert (Hne : lit "h" <> []) by discriminate.
  destruct (capacity_boundary (H := test_platform) (lit "h") None [] [] (lit "h")
              eq_refl Hu) as (Himg_over & Himg_eq & Haud_over & Haud_eq).
  split.
  { assert (Heq : 4 * (32 + 16 * length (lit "h")) = 3 * length (blank_image 16))
      by (vm_compute; reflexivity).
    assert (Hbytes : Forall is_byte (blank_image 16)) by by_evaluation.
    destruct (Himg_eq (blank_image 16) Hbound Heq) as (data' & Henc & _ & Hheld).
    destruct (Hheld Hbytes) as (Hslots & _ & Hdec).
    exists data'. split; [exact Henc|]. split; [exact Hslots|]. exact (Hdec Hne). }
  split.
  { assert (Hover : 3 * length (blank_image 15) < 4 * (32 + 16 * length (lit "h")))
      by (vm_compute; lia).
    exact (Himg_over (blank_image 15) Hover). }
  split.
  { assert (Hloc : locateData (wav_file (replicate 48 128%Z)) = FoundData 20 48)
      by (vm_compute; reflexivity).
    assert (Hfit : view_fits (wav_file (replicate 48 128%Z)) 20 48 = true)
      by (vm_compute; reflexivity).
    assert (Heq : 32 + 16 * length (lit "h") = 48) by (vm_compute; reflexivity).
    assert (Hbytes : Forall is_byte (wav_file (replicate 48 128%Z))) by by_evaluation.
    destruct (Haud_eq (wav_file (replicate 48 128%Z)) 20 48 Hloc Hfit Hbound Heq)
      as (buffer' & Henc & _ & _ & Hheld).
    destruct (Hheld Hbytes) as (Hread & Hdec).
    exists buffer'. split; [exact Henc|]. split; [exact Hread|]. exact (Hdec Hne). }
  assert (Hloc : locateData (wav_file (replicate 47 128%Z)) = FoundData 20 47)
    by (vm_compute; reflexivity).
  assert (Hfit : view_fits (wav_file (replicate 47 128%Z)) 20 47 = true)
    by (vm_compute; reflexivity).
  assert (Hover : 47 < 32 + 16 * length (lit "h")) by (vm_compute; lia).
  exact (Haud_over (wav_file (replicate 47 128%Z)) 20 47 Hloc Hfit Hover).
Defined.
